(** * The AGI C core: numeric kernels, activation library, allocator
      tracker and neural-network engine

    A shallow embedding of the C sources under [src/c-core]:

    - [simd_operations.c], [matrix_operations.c]   (numeric kernels)
    - [activation_functions.c]                     (activation library)
    - [memory_management.c]                        (allocator tracker)
    - [neural_operations.c]                        (network engine)

    Conventions of the embedding.

    - [double] is IEEE-754 binary64, i.e. Rocq's primitive [float]; the C
      operators [+ - * /], [sqrt] and the comparisons are the primitive
      ones (round to nearest even).  The libm functions [exp], [tanh] and
      [pow] are not part of the repository: they are the fields of a
      record [libm] that the activation library takes as a parameter.
    - [size_t] is 64 bits wide (LP64): a [Z] in [0, 2^64), every
      arithmetic operation on it written with its wrap-around.
    - A [double*] is [option nat]: [None] is [NULL], [Some b] is the base
      of heap block [b].  The heap is a list of cells; blocks allocated
      by [calloc] hold a list of doubles, blocks obtained from [malloc]
      and [aligned_alloc] are raw.  Reading or writing outside a live
      block is undefined behaviour in C and [None] here.
    - The engine is the portable build: [AGI_AVX2_SUPPORT] undefined, so
      the forward pass runs its "Standard implementation" branch. *)

From Stdlib Require Import ZArith Lia Floats Reals Lra.
From Stdlib Require Uint63.
From stdpp Require Import base option list.

(* ------------------------------------------------------------------ *)
(** ** agi_core.h: scalar types and error codes                        *)
(* ------------------------------------------------------------------ *)

Abbreviation double := float (only parsing).

(** [size_t]: the modulus of its arithmetic and the wrapping operations. *)
Definition SIZE_MODULUS : Z := 2 ^ 64.

Definition size_wrap (z : Z) : Z := (z mod SIZE_MODULUS)%Z.
Definition size_add (a b : Z) : Z := size_wrap (a + b).
Definition size_mul (a b : Z) : Z := size_wrap (a * b).
Definition size_sub (a b : Z) : Z := size_wrap (a - b).

Definition is_size_t (z : Z) : Prop := (0 <= z < SIZE_MODULUS)%Z.

(** The conversion [(double) n] of an integer: the nearest binary64. *)
Definition double_of_Z (n : Z) : double :=
  SF2Prim (binary_normalize prec emax n 0 false).

Inductive agi_error_t :=
| AGI_SUCCESS
| AGI_ERROR_NULL_POINTER
| AGI_ERROR_INVALID_ARGUMENT
| AGI_ERROR_MEMORY_ALLOCATION
| AGI_ERROR_INVALID_OPERATION
| AGI_ERROR_NOT_IMPLEMENTED
| AGI_ERROR_SIMD_NOT_SUPPORTED
| AGI_ERROR_OPENMP_NOT_AVAILABLE.

(** The integer value of each code, as the enum declares it. *)
Definition agi_error_code (e : agi_error_t) : Z :=
  match e with
  | AGI_SUCCESS => 0
  | AGI_ERROR_NULL_POINTER => -1
  | AGI_ERROR_INVALID_ARGUMENT => -2
  | AGI_ERROR_MEMORY_ALLOCATION => -3
  | AGI_ERROR_INVALID_OPERATION => -4
  | AGI_ERROR_NOT_IMPLEMENTED => -5
  | AGI_ERROR_SIMD_NOT_SUPPORTED => -6
  | AGI_ERROR_OPENMP_NOT_AVAILABLE => -7
  end%Z.

(* ------------------------------------------------------------------ *)
(** ** The heap                                                        *)
(* ------------------------------------------------------------------ *)

Inductive cell :=
| Doubles (data : list float)   (* a live array of doubles *)
| Raw (bytes : Z)               (* a live untyped region of [bytes] bytes *)
| Freed.                        (* released by [free] *)

Abbreviation heap := (list cell) (only parsing).
Abbreviation ptr := (option nat) (only parsing).

(** The doubles of block [b], when it is a live array. *)
Definition block (h : heap) (b : nat) : option (list float) :=
  match h !! b with
  | Some (Doubles l) => Some l
  | _ => None
  end.

Definition set_block (h : heap) (b : nat) (l : list float) : heap :=
  <[b := Doubles l]> h.

Definition is_null (p : ptr) : bool :=
  match p with None => true | Some _ => false end.

(** [p[i]] as an rvalue; dereferencing [NULL] is undefined. *)
Definition load (h : heap) (p : ptr) (i : nat) : option float :=
  b ← p; l ← block h b; l !! i.

(** [p[i] = v]. *)
Definition store (h : heap) (p : ptr) (i : nat) (v : float) : option heap :=
  b ← p; l ← block h b;
  if decide (i < length l) then Some (set_block h b (<[i := v]> l)) else None.

Definition sizeof_double : Z := 8.

(** [memcpy(dst, src, bytes)] for a byte count that is a whole number of
    doubles.  A count of zero touches nothing; [dst = src] copies a block
    onto itself and leaves it as it is. *)
Definition memcpy (dst src : ptr) (bytes : Z) (h : heap) : option heap :=
  let n := Z.to_nat (bytes / sizeof_double) in
  if decide (n = 0) then Some h
  else
    d ← dst; s ← src;
    ls ← block h s; ld ← block h d;
    if decide (n ≤ length ls ∧ n ≤ length ld)
    then Some (set_block h d (take n ls ++ drop n ld))
    else None.

(* ------------------------------------------------------------------ *)
(** ** matrix_operations.c                                             *)
(* ------------------------------------------------------------------ *)

(** The loop shared by the three kernels,
    [for (i = 0; i < size; i++) result[i] = a[i] op b[i];]
    with [i] the current index and [n] the iterations left. *)
Fixpoint elementwise_loop (op : float → float → float)
    (a b result : ptr) (i n : nat) (h : heap) : option heap :=
  match n with
  | O => Some h
  | S n' =>
      x ← load h a i;
      y ← load h b i;
      h' ← store h result i (op x y);
      elementwise_loop op a b result (S i) n' h'
  end.

Definition agi_matrix_add (a b result : ptr) (size : Z) (h : heap)
  : option (agi_error_t * heap) :=
  if is_null a || is_null b || is_null result
  then Some (AGI_ERROR_NULL_POINTER, h)
  else
    h' ← elementwise_loop PrimFloat.add a b result 0 (Z.to_nat size) h;
    Some (AGI_SUCCESS, h').

Definition agi_matrix_subtract (a b result : ptr) (size : Z) (h : heap)
  : option (agi_error_t * heap) :=
  if is_null a || is_null b || is_null result
  then Some (AGI_ERROR_NULL_POINTER, h)
  else
    h' ← elementwise_loop PrimFloat.sub a b result 0 (Z.to_nat size) h;
    Some (AGI_SUCCESS, h').

Definition agi_matrix_element_multiply (a b result : ptr) (size : Z) (h : heap)
  : option (agi_error_t * heap) :=
  if is_null a || is_null b || is_null result
  then Some (AGI_ERROR_NULL_POINTER, h)
  else
    h' ← elementwise_loop PrimFloat.mul a b result 0 (Z.to_nat size) h;
    Some (AGI_SUCCESS, h').

(* ------------------------------------------------------------------ *)
(** ** simd_operations.c                                               *)
(* ------------------------------------------------------------------ *)

(** The body is the null check and [return AGI_SUCCESS]: nothing is read
    and nothing is written. *)
Definition agi_matrix_multiply_simd (a b result : ptr) (m n k : Z) (h : heap)
  : option (agi_error_t * heap) :=
  if is_null a || is_null b || is_null result
  then Some (AGI_ERROR_NULL_POINTER, h)
  else Some (AGI_SUCCESS, h).

(** [for (i = 0; i < size; i++) sum += a[i] * b[i];] *)
Fixpoint dot_product_loop (a b : ptr) (i n : nat) (sum : float) (h : heap)
  : option float :=
  match n with
  | O => Some sum
  | S n' =>
      x ← load h a i;
      y ← load h b i;
      dot_product_loop a b (S i) n' (sum + x * y)%float h
  end.

Definition agi_vector_dot_product_simd (a b : ptr) (size : Z) (h : heap)
  : option float :=
  if is_null a || is_null b then Some 0%float
  else dot_product_loop a b 0 (Z.to_nat size) 0%float h.

(* ------------------------------------------------------------------ *)
(** ** activation_functions.c                                          *)
(* ------------------------------------------------------------------ *)

(** The functions of [<math.h>] the library calls. *)
Record libm := {
  c_exp : float → float;
  c_tanh : float → float;
  c_pow : float → float → float;
}.

(** [agi_activation_type_t]: a C enum is an [int], and a caller can pass
    any value of it; the enumerators are 0..6 in declaration order. *)
Definition AGI_ACTIVATION_SIGMOID : Z := 0.
Definition AGI_ACTIVATION_TANH : Z := 1.
Definition AGI_ACTIVATION_RELU : Z := 2.
Definition AGI_ACTIVATION_LEAKY_RELU : Z := 3.
Definition AGI_ACTIVATION_SWISH : Z := 4.
Definition AGI_ACTIVATION_GELU : Z := 5.
Definition AGI_ACTIVATION_SOFTMAX : Z := 6.

(** The tags the enum declares. *)
Definition recognized_activation (t : Z) : Prop := (0 <= t <= 6)%Z.

(** [M_PI], 3.14159265358979323846 rounded to binary64. *)
Definition M_PI : float := 0x1.921fb54442d18p+1%float.

#[local] Set Warnings "-inexact-float".

(** The [switch] of [agi_apply_activation], as a function of [input[i]]. *)
Definition activation_value (m : libm) (activation_type : Z) (x : float) : float :=
  (if (activation_type =? AGI_ACTIVATION_SIGMOID)%Z then
     1 / (1 + c_exp m (- x))
   else if (activation_type =? AGI_ACTIVATION_TANH)%Z then
     c_tanh m x
   else if (activation_type =? AGI_ACTIVATION_RELU)%Z then
     if 0 <? x then x else 0
   else if (activation_type =? AGI_ACTIVATION_LEAKY_RELU)%Z then
     if 0 <? x then x else 0.01 * x
   else if (activation_type =? AGI_ACTIVATION_SWISH)%Z then
     x / (1 + c_exp m (- x))
   else if (activation_type =? AGI_ACTIVATION_GELU)%Z then
     0.5 * x * (1 + c_tanh m (PrimFloat.sqrt (2 / M_PI) * (x + 0.044715 * c_pow m x 3)))
   else if (activation_type =? AGI_ACTIVATION_SOFTMAX)%Z then
     c_exp m x
   else
     x)%float.

(** The [switch] of [agi_apply_activation_derivative]; it has no case for
    softmax, which takes the [default] branch with every other value. *)
Definition activation_derivative_value (m : libm) (activation_type : Z) (x : float)
  : float :=
  (if (activation_type =? AGI_ACTIVATION_SIGMOID)%Z then
     let sigmoid := 1 / (1 + c_exp m (- x)) in
     sigmoid * (1 - sigmoid)
   else if (activation_type =? AGI_ACTIVATION_TANH)%Z then
     1 - c_tanh m x * c_tanh m x
   else if (activation_type =? AGI_ACTIVATION_RELU)%Z then
     if 0 <? x then 1 else 0
   else if (activation_type =? AGI_ACTIVATION_LEAKY_RELU)%Z then
     if 0 <? x then 1 else 0.01
   else if (activation_type =? AGI_ACTIVATION_SWISH)%Z then
     let sigmoid := 1 / (1 + c_exp m (- x)) in
     sigmoid + x * sigmoid * (1 - sigmoid)
   else if (activation_type =? AGI_ACTIVATION_GELU)%Z then
     0.5 * (1 + c_tanh m (PrimFloat.sqrt (2 / M_PI) * (x + 0.044715 * c_pow m x 3)))
   else
     1)%float.

(** [for (i = 0; i < size; i++) output[i] = f(input[i]);] *)
Fixpoint pointwise_loop (f : float → float) (input output : ptr) (i n : nat)
    (h : heap) : option heap :=
  match n with
  | O => Some h
  | S n' =>
      x ← load h input i;
      h' ← store h output i (f x);
      pointwise_loop f input output (S i) n' h'
  end.

(** [for (i = 0; i < size; i++) sum += output[i];] *)
Fixpoint sum_loop (output : ptr) (i n : nat) (sum : float) (h : heap)
  : option float :=
  match n with
  | O => Some sum
  | S n' =>
      x ← load h output i;
      sum_loop output (S i) n' (sum + x)%float h
  end.

(** [for (i = 0; i < size; i++) output[i] /= sum;] *)
Fixpoint normalize_loop (output : ptr) (sum : float) (i n : nat) (h : heap)
  : option heap :=
  match n with
  | O => Some h
  | S n' =>
      x ← load h output i;
      h' ← store h output i (x / sum)%float;
      normalize_loop output sum (S i) n' h'
  end.

Definition agi_apply_activation (m : libm) (input output : ptr) (size : Z)
    (activation_type : Z) (h : heap) : option (agi_error_t * heap) :=
  if is_null input || is_null output
  then Some (AGI_ERROR_NULL_POINTER, h)
  else
    h1 ← pointwise_loop (activation_value m activation_type)
           input output 0 (Z.to_nat size) h;
    if (activation_type =? AGI_ACTIVATION_SOFTMAX)%Z then
      sum ← sum_loop output 0 (Z.to_nat size) 0%float h1;
      h2 ← normalize_loop output sum 0 (Z.to_nat size) h1;
      Some (AGI_SUCCESS, h2)
    else Some (AGI_SUCCESS, h1).

Definition agi_apply_activation_derivative (m : libm) (input output : ptr)
    (size : Z) (activation_type : Z) (h : heap) : option (agi_error_t * heap) :=
  if is_null input || is_null output
  then Some (AGI_ERROR_NULL_POINTER, h)
  else
    h1 ← pointwise_loop (activation_derivative_value m activation_type)
           input output 0 (Z.to_nat size) h;
    Some (AGI_SUCCESS, h1).

(* ------------------------------------------------------------------ *)
(** ** The C library: allocation and [rand]                            *)
(* ------------------------------------------------------------------ *)

Record agi_memory_stats_t := {
  total_memory : Z;
  used_memory : Z;
  peak_memory : Z;
  allocation_count : Z;
  deallocation_count : Z;
  fragmentation_ratio : float;
}.

(** The process: its heap, the tracker's file-scope [g_memory_stats], and
    what the environment will answer.  [alloc_script] lists whether the
    next allocation requests succeed and [rand_script] the next values of
    [rand()]; an exhausted script grants every request and returns 0. *)
Record world := {
  heap_of : list cell;
  g_memory_stats : agi_memory_stats_t;
  alloc_script : list bool;
  rand_script : list Z;
}.

Definition with_heap (w : world) (h : heap) : world :=
  {| heap_of := h; g_memory_stats := g_memory_stats w;
     alloc_script := alloc_script w; rand_script := rand_script w |}.

Definition with_stats (w : world) (s : agi_memory_stats_t) : world :=
  {| heap_of := heap_of w; g_memory_stats := s;
     alloc_script := alloc_script w; rand_script := rand_script w |}.

(** [static agi_memory_stats_t g_memory_stats = {0};] *)
Definition zero_stats : agi_memory_stats_t :=
  {| total_memory := 0; used_memory := 0; peak_memory := 0;
     allocation_count := 0; deallocation_count := 0;
     fragmentation_ratio := 0%float |}.

Definition initial_world : world :=
  {| heap_of := []; g_memory_stats := zero_stats;
     alloc_script := []; rand_script := [] |}.

(** The allocator places [c] in a fresh block when the environment grants
    the request and returns [NULL] otherwise. *)
Definition allocate (c : cell) (w : world) : ptr * world :=
  let granted := match alloc_script w with [] => true | g :: _ => g end in
  let w' := {| heap_of := heap_of w; g_memory_stats := g_memory_stats w;
               alloc_script := tail (alloc_script w);
               rand_script := rand_script w |} in
  if granted
  then (Some (length (heap_of w)), with_heap w' (heap_of w ++ [c]))
  else (None, w').

Definition malloc (size : Z) (w : world) : ptr * world :=
  allocate (Raw size) w.

Definition aligned_alloc (alignment size : Z) (w : world) : ptr * world :=
  allocate (Raw size) w.

(** [calloc(nmemb, sizeof(double))]: [NULL] when the byte count does not
    fit in a [size_t], else [nmemb] zeroed doubles. *)
Definition calloc (nmemb size : Z) (w : world) : ptr * world :=
  if decide (nmemb * size < SIZE_MODULUS)%Z
  then allocate (Doubles (replicate (Z.to_nat nmemb) 0%float)) w
  else (None, w).

Definition live (c : cell) : bool :=
  match c with Freed => false | _ => true end.

(** [free(p)]: nothing for [NULL]; undefined for a pointer that is not a
    live block. *)
Definition free (p : ptr) (w : world) : option world :=
  match p with
  | None => Some w
  | Some b =>
      c ← heap_of w !! b;
      if live c then Some (with_heap w (<[b := Freed]> (heap_of w))) else None
  end.

(** glibc's [RAND_MAX]. *)
Definition RAND_MAX : Z := 2147483647.

Definition rand (w : world) : Z * world :=
  let r := match rand_script w with [] => 0%Z | r :: _ => r end in
  ((r mod (RAND_MAX + 1))%Z,
   {| heap_of := heap_of w; g_memory_stats := g_memory_stats w;
      alloc_script := alloc_script w; rand_script := tail (rand_script w) |}).

(* ------------------------------------------------------------------ *)
(** ** memory_management.c                                             *)
(* ------------------------------------------------------------------ *)

Definition agi_aligned_alloc (size alignment : Z) (w : world) : ptr * world :=
  let '(p, w1) := aligned_alloc alignment size w in
  if is_null p then (p, w1)
  else
    let s := g_memory_stats w1 in
    let total := size_add (total_memory s) size in
    let used := size_add (used_memory s) size in
    let count := size_add (allocation_count s) 1 in
    let peak := if (peak_memory s <? used)%Z then used else peak_memory s in
    (p, with_stats w1
          {| total_memory := total; used_memory := used; peak_memory := peak;
             allocation_count := count;
             deallocation_count := deallocation_count s;
             fragmentation_ratio := fragmentation_ratio s |}).

Definition agi_aligned_free (p : ptr) (w : world) : option (agi_error_t * world) :=
  if is_null p then Some (AGI_ERROR_NULL_POINTER, w)
  else
    let s := g_memory_stats w in
    let w1 := with_stats w
          {| total_memory := total_memory s; used_memory := used_memory s;
             peak_memory := peak_memory s;
             allocation_count := allocation_count s;
             deallocation_count := size_add (deallocation_count s) 1;
             fragmentation_ratio := fragmentation_ratio s |} in
    w2 ← free p w1;
    Some (AGI_SUCCESS, w2).

(** [stats] is the caller's struct: [None] for a null pointer, and the
    snapshot that is written through it otherwise. *)
Definition agi_get_memory_stats (stats : option agi_memory_stats_t) (w : world)
  : agi_error_t * option agi_memory_stats_t :=
  match stats with
  | None => (AGI_ERROR_NULL_POINTER, None)
  | Some _ =>
      let s := g_memory_stats w in
      let ratio :=
        if (0 <? peak_memory s)%Z
        then (double_of_Z (size_sub (peak_memory s) (used_memory s))
              / double_of_Z (peak_memory s))%float
        else 0%float in
      (AGI_SUCCESS,
       Some {| total_memory := total_memory s; used_memory := used_memory s;
               peak_memory := peak_memory s;
               allocation_count := allocation_count s;
               deallocation_count := deallocation_count s;
               fragmentation_ratio := ratio |})
  end.

Definition agi_optimize_memory (w : world) : agi_error_t * world :=
  (AGI_SUCCESS, w).

(* ------------------------------------------------------------------ *)
(** ** neural_operations.c: data                                       *)
(* ------------------------------------------------------------------ *)

(** [hidden_layer_sizes] is a [size_t*]: [None] for [NULL], and otherwise
    the array it points to, as long as the caller made it. *)
Record agi_neural_config_t := {
  input_size : Z;
  hidden_layers_count : Z;
  hidden_layer_sizes : option (list Z);
  output_size : Z;
  learning_rate : float;
  momentum : float;
  use_batch_normalization : bool;
  use_dropout : bool;
  dropout_rate : float;
}.

(** The four [batch_norm_*] pointers of the C struct are never written
    and never read by the engine; they are left out. *)
Record agi_neural_layer_t := {
  weights : option nat;
  biases : option nat;
  layer_input_size : Z;
  layer_output_size : Z;
  is_training : bool;
}.

(** A network as the engine sees it through its [agi_neural_network_t*]:
    [self] is the block that holds the struct, [layers_block] the block of
    the [layers] array and [layers] what the array holds. *)
Record agi_neural_network_t := {
  self : nat;
  layers_block : nat;
  layers : list agi_neural_layer_t;
  layer_count : Z;
  config : agi_neural_config_t;
  input_buffer : option nat;
  output_buffer : option nat;
  gradient_buffer : option nat;
  max_batch_size : Z;
}.

(** Sizes of the structs under LP64. *)
Definition sizeof_agi_neural_layer_t : Z := 72.
Definition sizeof_agi_neural_network_t : Z := 112.

(* ------------------------------------------------------------------ *)
(** ** neural_operations.c: agi_create_neural_network                  *)
(* ------------------------------------------------------------------ *)

(** [config->hidden_layer_sizes[i]]; reading past the array is undefined. *)
Definition hidden_layer_size (config : agi_neural_config_t) (i : nat) : option Z :=
  sizes ← hidden_layer_sizes config; sizes !! i.

(** The [if / else if / else] that picks layer [i]'s [output_size]. *)
Definition layer_output_size_at (config : agi_neural_config_t) (layer_count : Z)
    (i : nat) : option Z :=
  if decide (i = 0) then hidden_layer_size config 0
  else if (Z.of_nat i =? size_sub layer_count 1)%Z then Some (output_size config)
  else hidden_layer_size config i.

(** [weights[j] = ((double)rand() / RAND_MAX - 0.5) * 2.0 * scale] for
    [j < weights_size]. *)
Fixpoint init_weights_loop (wts : ptr) (scale : float) (j n : nat) (w : world)
  : option world :=
  match n with
  | O => Some w
  | S n' =>
      let '(r, w1) := rand w in
      let v := ((double_of_Z r / double_of_Z RAND_MAX - 0.5) * 2 * scale)%float in
      h' ← store (heap_of w1) wts j v;
      init_weights_loop wts scale (S j) n' (with_heap w1 h')
  end.

(** The error path's [for (j = 0; j <= i; j++)] over the layers written so
    far, the current one last. *)
Fixpoint free_layers (ls : list agi_neural_layer_t) (w : world) : option world :=
  match ls with
  | [] => Some w
  | l :: ls' =>
      w1 ← free (weights l) w;
      w2 ← free (biases l) w1;
      free_layers ls' w2
  end.

(** The layer loop of the constructor: [i] is the index, [n] the
    iterations left, [done] the entries [0..i-1] of the array.  The result
    is [None] when the loop took its error path (everything freed), and
    the filled array otherwise. *)
Fixpoint create_layers (config : agi_neural_config_t) (layer_count : Z)
    (network layers_ptr : nat) (layers_bytes : Z)
    (i n : nat) (current_size : Z) (done : list agi_neural_layer_t) (w : world)
  : option (option (list agi_neural_layer_t) * world) :=
  match n with
  | O => Some (Some done, w)
  | S n' =>
      out ← layer_output_size_at config layer_count i;
      (* network->layers[i] must lie inside the array that was obtained *)
      if decide ((Z.of_nat i + 1) * sizeof_agi_neural_layer_t <= layers_bytes)%Z
      then
        let weights_size := size_mul current_size out in
        let biases_size := out in
        let '(wts, w1) := calloc weights_size sizeof_double w in
        let '(bs, w2) := calloc biases_size sizeof_double w1 in
        let layer := {| weights := wts; biases := bs;
                        layer_input_size := current_size;
                        layer_output_size := out; is_training := true |} in
        if is_null wts || is_null bs then
          w3 ← free_layers (done ++ [layer]) w2;
          w4 ← free (Some layers_ptr) w3;
          w5 ← free (Some network) w4;
          Some (None, w5)
        else
          let scale := PrimFloat.sqrt (2 / double_of_Z (size_add current_size out))%float in
          w3 ← init_weights_loop wts scale 0 (Z.to_nat weights_size) w2;
          create_layers config layer_count network layers_ptr layers_bytes
            (S i) n' out (done ++ [layer]) w3
      else None
  end.

Definition agi_create_neural_network (config : option agi_neural_config_t)
    (w : world) : option (option agi_neural_network_t * world) :=
  match config with
  | None => Some (None, w)
  | Some config =>
      let '(network, w1) := malloc sizeof_agi_neural_network_t w in
      match network with
      | None => Some (None, w1)
      | Some network =>
          let layer_count := size_add (hidden_layers_count config) 2 in
          let layers_bytes := size_mul layer_count sizeof_agi_neural_layer_t in
          let '(layers_ptr, w2) := malloc layers_bytes w1 in
          match layers_ptr with
          | None => w3 ← free (Some network) w2; Some (None, w3)
          | Some layers_ptr =>
              r ← create_layers config layer_count network layers_ptr
                    layers_bytes 0 (Z.to_nat layer_count) (input_size config) [] w2;
              match r with
              | (None, w3) => Some (None, w3)
              | (Some ls, w3) =>
                  let '(ib, w4) := calloc (input_size config) sizeof_double w3 in
                  let '(ob, w5) := calloc (output_size config) sizeof_double w4 in
                  let '(gb, w6) := calloc (output_size config) sizeof_double w5 in
                  Some (Some {| self := network; layers_block := layers_ptr;
                                layers := ls; layer_count := layer_count;
                                config := config;
                                input_buffer := ib; output_buffer := ob;
                                gradient_buffer := gb; max_batch_size := 32 |},
                        w6)
              end
          end
      end
  end.

(* ------------------------------------------------------------------ *)
(** ** neural_operations.c: agi_destroy_neural_network                 *)
(* ------------------------------------------------------------------ *)

(** [for (i = 0; i < layer_count; i++) { free(layers[i].weights);
    free(layers[i].biases); }] *)
Fixpoint destroy_layers_loop (ls : list agi_neural_layer_t) (i n : nat) (w : world)
  : option world :=
  match n with
  | O => Some w
  | S n' =>
      l ← ls !! i;
      w1 ← free (weights l) w;
      w2 ← free (biases l) w1;
      destroy_layers_loop ls (S i) n' w2
  end.

Definition agi_destroy_neural_network (network : option agi_neural_network_t)
    (w : world) : option (agi_error_t * world) :=
  match network with
  | None => Some (AGI_ERROR_NULL_POINTER, w)
  | Some network =>
      w1 ← destroy_layers_loop (layers network) 0
             (Z.to_nat (layer_count network)) w;
      w2 ← free (Some (layers_block network)) w1;
      w3 ← free (input_buffer network) w2;
      w4 ← free (output_buffer network) w3;
      w5 ← free (gradient_buffer network) w4;
      w6 ← free (Some (self network)) w5;
      Some (AGI_SUCCESS, w6)
  end.

(* ------------------------------------------------------------------ *)
(** ** neural_operations.c: agi_forward_pass                           *)
(* ------------------------------------------------------------------ *)

(** [for (j = 0; j < input_size; j++)
       current_output[i] += weights[i * input_size + j] * current_input[j];] *)
Fixpoint accumulate_loop (wts cur_in cur_out : ptr) (in_size : Z) (i : nat)
    (j n : nat) (h : heap) : option heap :=
  match n with
  | O => Some h
  | S n' =>
      acc ← load h cur_out i;
      wt ← load h wts
             (Z.to_nat (size_add (size_mul (Z.of_nat i) in_size) (Z.of_nat j)));
      x ← load h cur_in j;
      h' ← store h cur_out i (acc + wt * x)%float;
      accumulate_loop wts cur_in cur_out in_size i (S j) n' h'
  end.

(** [for (i = 0; i < output_size; i++) { current_output[i] = 0.0; ... }] *)
Fixpoint matvec_loop (wts cur_in cur_out : ptr) (in_size : Z) (i n : nat)
    (h : heap) : option heap :=
  match n with
  | O => Some h
  | S n' =>
      h1 ← store h cur_out i 0%float;
      h2 ← accumulate_loop wts cur_in cur_out in_size i 0 (Z.to_nat in_size) h1;
      matvec_loop wts cur_in cur_out in_size (S i) n' h2
  end.

(** [for (i = 0; i < output_size; i++) current_output[i] += biases[i];] *)
Fixpoint bias_loop (bs cur_out : ptr) (i n : nat) (h : heap) : option heap :=
  match n with
  | O => Some h
  | S n' =>
      v ← load h cur_out i;
      b ← load h bs i;
      h' ← store h cur_out i (v + b)%float;
      bias_loop bs cur_out (S i) n' h'
  end.

(** [x > 0.0 ? x : 0.0] *)
Definition relu (x : float) : float := (if 0 <? x then x else 0)%float.

(** [for (i = 0; i < output_size; i++)
       current_output[i] = current_output[i] > 0.0 ? current_output[i] : 0.0;] *)
Fixpoint relu_loop (cur_out : ptr) (i n : nat) (h : heap) : option heap :=
  match n with
  | O => Some h
  | S n' =>
      v ← load h cur_out i;
      h' ← store h cur_out i (relu v);
      relu_loop cur_out (S i) n' h'
  end.

(** One iteration of the layer loop, before the buffers are swapped. *)
Definition forward_layer (layer : agi_neural_layer_t) (cur_in cur_out : ptr)
    (h : heap) : option heap :=
  let n_out := Z.to_nat (layer_output_size layer) in
  h1 ← matvec_loop (weights layer) cur_in cur_out (layer_input_size layer) 0 n_out h;
  h2 ← bias_loop (biases layer) cur_out 0 n_out h1;
  relu_loop cur_out 0 n_out h2.

(** The layer loop; it returns [current_input] as the last swap left it. *)
Fixpoint layers_loop (ls : list agi_neural_layer_t) (layer_idx n : nat)
    (cur_in cur_out : ptr) (h : heap) : option (ptr * heap) :=
  match n with
  | O => Some (cur_in, h)
  | S n' =>
      layer ← ls !! layer_idx;
      h' ← forward_layer layer cur_in cur_out h;
      layers_loop ls (S layer_idx) n' cur_out cur_in h'
  end.

Definition agi_forward_pass (network : option agi_neural_network_t)
    (input output : ptr) (batch_size : Z) (h : heap)
  : option (agi_error_t * heap) :=
  match network with
  | None => Some (AGI_ERROR_NULL_POINTER, h)
  | Some network =>
      if is_null input || is_null output
      then Some (AGI_ERROR_NULL_POINTER, h)
      else
        h1 ← memcpy (input_buffer network) input
               (size_mul (input_size (config network)) sizeof_double) h;
        r ← layers_loop (layers network) 0 (Z.to_nat (layer_count network))
              (input_buffer network) (output_buffer network) h1;
        h3 ← memcpy output r.1
               (size_mul (output_size (config network)) sizeof_double) r.2;
        Some (AGI_SUCCESS, h3)
  end.

(* ------------------------------------------------------------------ *)
(** ** neural_operations.c: agi_backward_pass and agi_train_batch      *)
(* ------------------------------------------------------------------ *)

(** [for (i = 0; i < output_size; i++) gradients[i] = target[i] - input[i];] *)
Fixpoint residual_loop (input target gradients : ptr) (i n : nat) (h : heap)
  : option heap :=
  match n with
  | O => Some h
  | S n' =>
      t ← load h target i;
      x ← load h input i;
      h' ← store h gradients i (t - x)%float;
      residual_loop input target gradients (S i) n' h'
  end.

Definition agi_backward_pass (network : option agi_neural_network_t)
    (input target gradients : ptr) (batch_size : Z) (h : heap)
  : option (agi_error_t * heap) :=
  match network with
  | None => Some (AGI_ERROR_NULL_POINTER, h)
  | Some network =>
      if is_null input || is_null target || is_null gradients
      then Some (AGI_ERROR_NULL_POINTER, h)
      else
        h' ← residual_loop input target gradients 0
               (Z.to_nat (output_size (config network))) h;
        Some (AGI_SUCCESS, h')
  end.

(** [for (i = 0; i < output_size; i++) {
       double diff = target[i] - output_buffer[i]; total_loss += diff * diff; }] *)
Fixpoint loss_loop (target output : ptr) (i n : nat) (total_loss : float)
    (h : heap) : option float :=
  match n with
  | O => Some total_loss
  | S n' =>
      t ← load h target i;
      o ← load h output i;
      let diff := (t - o)%float in
      loss_loop target output (S i) n' (total_loss + diff * diff)%float h
  end.

(** The statuses of the two passes are discarded, as in the source. *)
Definition agi_train_batch (network : option agi_neural_network_t)
    (input target : ptr) (batch_size : Z) (h : heap) : option (float * heap) :=
  match network with
  | None => Some ((-1)%float, h)
  | Some network =>
      if is_null input || is_null target
      then Some ((-1)%float, h)
      else
        f ← agi_forward_pass (Some network) input (output_buffer network)
              batch_size h;
        sum ← loss_loop target (output_buffer network) 0
                (Z.to_nat (output_size (config network))) 0%float f.2;
        let total_loss := (sum / double_of_Z (output_size (config network)))%float in
        b ← agi_backward_pass (Some network) (output_buffer network) target
              (gradient_buffer network) batch_size f.2;
        Some (total_loss, b.2)
  end.

(* ================================================================== *)
(** * Properties                                                       *)
(* ================================================================== *)

(** ** Blocks of the heap *)

Lemma block_Some (h : list cell) b l :
  block h b = Some l ↔ h !! b = Some (Doubles l).
Proof.
  unfold block. destruct (h !! b) as [[]|]; split; intros; simplify_eq; done.
Qed.

Lemma block_lt (h : list cell) b l : block h b = Some l → b < length h.
Proof. rewrite block_Some. apply lookup_lt_Some. Qed.

Lemma block_set_block_eq (h : list cell) b l :
  b < length h → block (set_block h b l) b = Some l.
Proof.
  intros Hb. apply block_Some. unfold set_block.
  by rewrite list_lookup_insert_eq.
Qed.

Lemma block_set_block_ne (h : list cell) b b' l :
  b ≠ b' → block (set_block h b l) b' = block h b'.
Proof.
  intros Hne. unfold block, set_block. by rewrite list_lookup_insert_ne.
Qed.

Lemma set_block_twice (h : list cell) b l l' :
  set_block (set_block h b l) b l' = set_block h b l'.
Proof. unfold set_block. apply list_insert_insert_eq. Qed.

Lemma set_block_same (h : list cell) b l :
  block h b = Some l → set_block h b l = h.
Proof. rewrite block_Some. unfold set_block. apply list_insert_id. Qed.

Lemma length_set_block (h : list cell) b l :
  length (set_block h b l) = length h.
Proof. unfold set_block. apply length_insert. Qed.

Lemma load_block (h : list cell) b l i :
  block h b = Some l → load h (Some b) i = l !! i.
Proof. intros Hb. unfold load. simpl. by rewrite Hb. Qed.

Lemma store_block (h : list cell) b l i v :
  block h b = Some l → i < length l →
  store h (Some b) i v = Some (set_block h b (<[i := v]> l)).
Proof.
  intros Hb Hi. unfold store. simpl. rewrite Hb. simpl.
  by rewrite decide_True.
Qed.

(** ** The elementwise loop

    [written op la lb lr n] is the result block after [n] iterations:
    the first [n] elements combined, the rest as they were. *)
Definition written (op : float → float → float) (la lb lr : list float)
    (n : nat) : list float :=
  zip_with op (take n la) (take n lb) ++ drop n lr.

Lemma length_written op la lb lr n :
  n ≤ length la → n ≤ length lb → n ≤ length lr →
  length (written op la lb lr n) = length lr.
Proof.
  intros. unfold written.
  rewrite length_app, length_zip_with, !length_take, length_drop. lia.
Qed.

Lemma written_0 op la lb lr : written op la lb lr 0 = lr.
Proof. unfold written. by rewrite !take_0, drop_0. Qed.

Lemma written_lookup_ge op la lb lr n i :
  n ≤ length la → n ≤ length lb → n ≤ i →
  written op la lb lr n !! i = lr !! i.
Proof.
  intros Ha Hb Hi. unfold written.
  rewrite lookup_app_r; rewrite length_zip_with, !length_take; [|lia].
  rewrite lookup_drop. f_equal. lia.
Qed.

Lemma written_S op la lb lr n x y :
  la !! n = Some x → lb !! n = Some y → n < length lr →
  <[n := op x y]> (written op la lb lr n) = written op la lb lr (S n).
Proof.
  intros Ha Hb Hr. unfold written.
  pose proof (lookup_lt_Some _ _ _ Ha). pose proof (lookup_lt_Some _ _ _ Hb).
  rewrite insert_app_r_alt; rewrite length_zip_with, !length_take; [|lia].
  replace (n - (n `min` length la) `min` (n `min` length lb)) with 0 by lia.
  destruct (lookup_lt_is_Some_2 lr n Hr) as [z Hz].
  rewrite (drop_S _ _ _ Hz). simpl.
  rewrite (take_S_r _ _ _ Ha), (take_S_r _ _ _ Hb).
  rewrite zip_with_app by (rewrite !length_take; lia).
  simpl. by rewrite <- app_assoc.
Qed.

(** From iteration [i] on: the heap holds [written .. i] in the result
    block and is the initial heap elsewhere, also when the result block
    is one of the operands. *)
Lemma elementwise_loop_from op pa pb pr (h : list cell) la lb lr n i :
  block h pa = Some la → block h pb = Some lb → block h pr = Some lr →
  i + n ≤ length la → i + n ≤ length lb → i + n ≤ length lr →
  elementwise_loop op (Some pa) (Some pb) (Some pr) i n
      (set_block h pr (written op la lb lr i))
  = Some (set_block h pr (written op la lb lr (i + n))).
Proof.
  intros Ha Hb Hr. revert i.
  induction n as [|n IH]; intros i Hla Hlb Hlr; cbn [elementwise_loop].
  { by rewrite Nat.add_0_r. }
  pose proof (block_lt _ _ _ Hr) as Hpr.
  assert (Hcur : block (set_block h pr (written op la lb lr i)) pr
                 = Some (written op la lb lr i))
    by (by apply block_set_block_eq).
  destruct (lookup_lt_is_Some_2 la i) as [x Hx]; [lia|].
  destruct (lookup_lt_is_Some_2 lb i) as [y Hy]; [lia|].
  assert (Hloada : load (set_block h pr (written op la lb lr i)) (Some pa) i
                   = Some x).
  { destruct (decide (pr = pa)) as [->|Hne].
    - rewrite (load_block _ _ _ _ Hcur), written_lookup_ge by lia.
      by simplify_eq.
    - rewrite (load_block _ _ la) by (by rewrite block_set_block_ne). done. }
  assert (Hloadb : load (set_block h pr (written op la lb lr i)) (Some pb) i
                   = Some y).
  { destruct (decide (pr = pb)) as [->|Hne].
    - rewrite (load_block _ _ _ _ Hcur), written_lookup_ge by lia.
      by simplify_eq.
    - rewrite (load_block _ _ lb) by (by rewrite block_set_block_ne). done. }
  rewrite Hloada, Hloadb. cbn [mbind option_bind].
  rewrite (store_block _ _ _ _ _ Hcur)
    by (rewrite length_written; lia).
  cbn [mbind option_bind]. rewrite set_block_twice, (written_S _ _ _ _ _ _ _ Hx Hy) by lia.
  rewrite IH by lia. do 3 f_equal. lia.
Qed.

Lemma elementwise_loop_correct op pa pb pr (h : list cell) la lb lr n :
  block h pa = Some la → block h pb = Some lb → block h pr = Some lr →
  n ≤ length la → n ≤ length lb → n ≤ length lr →
  elementwise_loop op (Some pa) (Some pb) (Some pr) 0 n h
  = Some (set_block h pr (written op la lb lr n)).
Proof.
  intros Ha Hb Hr Hla Hlb Hlr.
  pose proof (elementwise_loop_from op pa pb pr h la lb lr n 0 Ha Hb Hr) as H.
  rewrite written_0, (set_block_same _ _ _ Hr) in H. by apply H.
Qed.

(** ** The elementwise kernels (matrix_operations.c) *)

(** What the interface promises of a kernel [f] computing [op]:
    - an absent argument gives [AGI_ERROR_NULL_POINTER] and writes nothing;
    - with three buffers of at least [size] elements the call returns
      [AGI_SUCCESS] and the result buffer holds [a[i] op b[i]] in its first
      [size] elements (its other elements, and every other block, are as
      before) -- the operands are read before [result[i]] is written, so
      this also holds when [result] is one of them;
    - whenever the call returns, its status is one of these two, and it is
      the null-pointer error exactly when an argument is absent. *)
Definition kernel_contract
    (f : option nat → option nat → option nat → Z → list cell
         → option (agi_error_t * list cell))
    (op : float → float → float) : Prop :=
  (∀ a b result size h,
      a = None ∨ b = None ∨ result = None →
      f a b result size h = Some (AGI_ERROR_NULL_POINTER, h)) ∧
  (∀ pa pb pr size h la lb lr,
      block h pa = Some la → block h pb = Some lb → block h pr = Some lr →
      Z.to_nat size ≤ length la → Z.to_nat size ≤ length lb →
      Z.to_nat size ≤ length lr →
      f (Some pa) (Some pb) (Some pr) size h
      = Some (AGI_SUCCESS,
              set_block h pr (written op la lb lr (Z.to_nat size)))) ∧
  (∀ a b result size h e h',
      f a b result size h = Some (e, h') →
      (e = AGI_SUCCESS ∨ e = AGI_ERROR_NULL_POINTER) ∧
      (e = AGI_ERROR_NULL_POINTER ↔ a = None ∨ b = None ∨ result = None)).

Lemma null_check3 (a b result : option nat) :
  is_null a || is_null b || is_null result = true
  ↔ a = None ∨ b = None ∨ result = None.
Proof. destruct a, b, result; simpl; intuition congruence. Qed.

Lemma elementwise_kernel_contract op f :
  (∀ a b result size h,
      f a b result size h =
      if is_null a || is_null b || is_null result
      then Some (AGI_ERROR_NULL_POINTER, h)
      else h' ← elementwise_loop op a b result 0 (Z.to_nat size) h;
           Some (AGI_SUCCESS, h')) →
  kernel_contract f op.
Proof.
  intros Hf. split; [|split].
  - intros a b result size h Hnull. rewrite Hf.
    apply null_check3 in Hnull. by rewrite Hnull.
  - intros pa pb pr size h la lb lr Ha Hb Hr Hla Hlb Hlr. rewrite Hf. simpl.
    by rewrite (elementwise_loop_correct op pa pb pr h la lb lr).
  - intros a b result size h e h' H. rewrite Hf in H.
    rewrite <- null_check3.
    destruct (is_null a || is_null b || is_null result).
    + naive_solver.
    + destruct (elementwise_loop _ _ _ _ _ _ _); simpl in H; naive_solver.
Qed.

(** C7.  [agi_matrix_add], [agi_matrix_subtract] and
    [agi_matrix_element_multiply] each return the null-pointer error
    exactly when one of the three buffer arguments is absent; given three
    buffers of [size] elements they return success with the elementwise
    sum, difference or product in all [size] output elements, and they
    have no other status. *)
Theorem elementwise_kernels_contract :
  kernel_contract agi_matrix_add PrimFloat.add ∧
  kernel_contract agi_matrix_subtract PrimFloat.sub ∧
  kernel_contract agi_matrix_element_multiply PrimFloat.mul.
Proof. split; [|split]; by apply elementwise_kernel_contract. Qed.

Definition kernel_sample_heap : list cell :=
  [Doubles [1; 2]%float; Doubles [3; 5]%float; Doubles [0; 0]%float].

Lemma elementwise_kernels_contract_witness :
  agi_matrix_add (Some 0) (Some 1) (Some 2) 2 kernel_sample_heap
  = Some (AGI_SUCCESS,
          [Doubles [1; 2]%float; Doubles [3; 5]%float; Doubles [4; 7]%float]) ∧
  agi_matrix_subtract (Some 0) (Some 1) (Some 0) 2 kernel_sample_heap
  = Some (AGI_SUCCESS,
          [Doubles [-2; -3]%float; Doubles [3; 5]%float; Doubles [0; 0]%float]) ∧
  agi_matrix_element_multiply None (Some 1) (Some 2) 2 kernel_sample_heap
  = Some (AGI_ERROR_NULL_POINTER, kernel_sample_heap).
Proof.
  destruct elementwise_kernels_contract as ((_ & Hadd & _) & (_ & Hsub & _) & (Hmul & _)).
  split; [|split].
  - rewrite (Hadd 0 1 2 2%Z kernel_sample_heap [1; 2]%float [3; 5]%float [0; 0]%float);
      [reflexivity | reflexivity | reflexivity | reflexivity | simpl; lia ..].
  - rewrite (Hsub 0 1 0 2%Z kernel_sample_heap [1; 2]%float [3; 5]%float [1; 2]%float);
      [reflexivity | reflexivity | reflexivity | reflexivity | simpl; lia ..].
  - apply Hmul. by left.
Defined.

(** ** The matrix product (simd_operations.c) *)

(** Following the spec's words, [result[i,j] = Σ_t A[i,t]·B[t,j]] by the
    triple-nested accumulation, for row-major [A] (m×k) and [B] (k×n):
    the reference the kernel is compared with. *)
Definition spec_matrix_entry (A B : list float) (n k : nat) (i j : nat) : float :=
  fold_left
    (λ acc t, (acc + nth (i * k + t) A 0 * nth (t * n + j) B 0)%float)
    (seq 0 k) 0%float.

Definition spec_matrix_multiply (A B : list float) (m n k : nat) : list float :=
  flat_map (λ i, map (spec_matrix_entry A B n k i) (seq 0 n)) (seq 0 m).

(** The kernel never writes: whatever it is given, the heap it returns is
    the heap it received. *)
Lemma agi_matrix_multiply_simd_heap a b result m n k (h : list cell) e h' :
  agi_matrix_multiply_simd a b result m n k h = Some (e, h') → h' = h.
Proof.
  unfold agi_matrix_multiply_simd.
  destruct (is_null a || is_null b || is_null result); naive_solver.
Qed.

Definition matmul_sample_heap : list cell :=
  [Doubles [2]%float; Doubles [3]%float; Doubles [0]%float].

(** C1 (the code at the failing input).  For the 1×1 matrices [2] and [3]
    the kernel reports success and leaves the result buffer at [0], while
    the product the interface documents is [6]. *)
Theorem agi_matrix_multiply_simd_leaves_result :
  agi_matrix_multiply_simd (Some 0) (Some 1) (Some 2) 1 1 1 matmul_sample_heap
  = Some (AGI_SUCCESS, matmul_sample_heap) ∧
  block matmul_sample_heap 2 = Some [0%float] ∧
  spec_matrix_multiply [2%float] [3%float] 1 1 1 = [6%float].
Proof. repeat split. Qed.

(** ** The activation library (activation_functions.c) *)

(** A stand-in for [<math.h>] with which statements that hold for every
    [libm] are instantiated.  Its functions are first-order stand-ins,
    not the C library's, and no theorem below depends on which functions
    they are. *)
Definition sample_libm : libm :=
  {| c_exp := λ x, (1 + x)%float;
     c_tanh := λ x, x;
     c_pow := λ x y, (x * y)%float |}.

Lemma pointwise_loop_elementwise f a r n : ∀ i (h : list cell),
  pointwise_loop f a r i n h = elementwise_loop (λ x _, f x) a a r i n h.
Proof.
  induction n as [|n IH]; intros i h; cbn [pointwise_loop elementwise_loop];
    [done|].
  destruct (load h a i) as [x|]; cbn [mbind option_bind]; [|done].
  destruct (store h r i (f x)) as [h'|]; cbn [mbind option_bind]; [|done].
  apply IH.
Qed.

Lemma written_unary f (li lo : list float) n :
  written (λ x _, f x) li li lo n = (f <$> take n li) ++ drop n lo.
Proof. unfold written. by rewrite zip_with_diag. Qed.

Lemma pointwise_loop_correct f pi po (h : list cell) li lo n :
  block h pi = Some li → block h po = Some lo →
  n ≤ length li → n ≤ length lo →
  pointwise_loop f (Some pi) (Some po) 0 n h
  = Some (set_block h po ((f <$> take n li) ++ drop n lo)).
Proof.
  intros Hi Ho Hli Hlo.
  rewrite pointwise_loop_elementwise, <- written_unary.
  by apply elementwise_loop_correct.
Qed.

Lemma fmap_constant (c : float) (l : list float) :
  (λ _, c) <$> l = replicate (length l) c.
Proof. induction l as [|x l IH]; [done|]. by rewrite fmap_cons, IH. Qed.

Lemma fmap_identity (l : list float) : (λ x, x) <$> l = l.
Proof. induction l as [|x l IH]; [done|]. by rewrite fmap_cons, IH. Qed.

(** Walks down a [switch] on a tag that is none of the enumerators. *)
Ltac skip_recognized_tags Ht :=
  repeat match goal with
  | |- context [Z.eqb ?t ?c] =>
      destruct (Z.eqb_spec t c) as [?Heq|_];
      [exfalso; apply Ht; rewrite Heq; by cbv|]
  end.

Lemma activation_value_default m t x :
  ¬ recognized_activation t → activation_value m t x = x.
Proof.
  unfold activation_value. intros Ht. by skip_recognized_tags Ht.
Qed.

Lemma activation_derivative_value_default m t x :
  ¬ recognized_activation t → activation_derivative_value m t x = 1%float.
Proof.
  unfold activation_derivative_value. intros Ht. by skip_recognized_tags Ht.
Qed.

Lemma pointwise_loop_ext f g a r n i (h : list cell) :
  (∀ x, f x = g x) → pointwise_loop f a r i n h = pointwise_loop g a r i n h.
Proof.
  intros Hfg. revert i h.
  induction n as [|n IH]; intros i h; cbn [pointwise_loop]; [done|].
  destruct (load h a i) as [x|]; cbn [mbind option_bind]; [|done].
  rewrite Hfg.
  destruct (store h r i (g x)) as [h'|]; cbn [mbind option_bind]; [|done].
  apply IH.
Qed.

(** C4, as the code has it.  For a tag outside the enum and buffers of
    [size] elements, [agi_apply_activation] copies the input to the output
    unchanged and [agi_apply_activation_derivative] writes 1.0 (the
    derivative of the identity) in every output element; both return
    success. *)
Theorem unrecognized_activation_fallback :
  ∀ (m : libm) (tag size : Z) (h : list cell) (pi po : nat)
    (li lo : list float),
    ¬ recognized_activation tag →
    block h pi = Some li → block h po = Some lo →
    Z.to_nat size ≤ length li → Z.to_nat size ≤ length lo →
    agi_apply_activation m (Some pi) (Some po) size tag h
    = Some (AGI_SUCCESS,
            set_block h po (take (Z.to_nat size) li ++ drop (Z.to_nat size) lo))
    ∧
    agi_apply_activation_derivative m (Some pi) (Some po) size tag h
    = Some (AGI_SUCCESS,
            set_block h po (replicate (Z.to_nat size) 1%float
                            ++ drop (Z.to_nat size) lo)).
Proof.
  intros m tag size h pi po li lo Ht Hi Ho Hli Hlo. split.
  - unfold agi_apply_activation. cbn [is_null orb].
    rewrite (pointwise_loop_ext _ (λ x, x))
      by (intros; by apply activation_value_default).
    rewrite (pointwise_loop_correct _ pi po h li lo) by done.
    cbn [mbind option_bind]. rewrite fmap_identity.
    assert (tag ≠ AGI_ACTIVATION_SOFTMAX) as Hne
      by (unfold recognized_activation, AGI_ACTIVATION_SOFTMAX in *; lia).
    apply Z.eqb_neq in Hne. by rewrite Hne.
  - unfold agi_apply_activation_derivative. cbn [is_null orb].
    rewrite (pointwise_loop_ext _ (λ _, 1%float))
      by (intros; by apply activation_derivative_value_default).
    rewrite (pointwise_loop_correct _ pi po h li lo) by done.
    cbn [mbind option_bind]. rewrite fmap_constant, length_take.
    by rewrite Nat.min_l.
Qed.

Definition activation_sample_heap : list cell :=
  [Doubles [2; -3]%float; Doubles [0; 0]%float].

Lemma unrecognized_activation_fallback_witness :
  agi_apply_activation sample_libm (Some 0) (Some 1) 2 7 activation_sample_heap
  = Some (AGI_SUCCESS, [Doubles [2; -3]%float; Doubles [2; -3]%float]) ∧
  agi_apply_activation_derivative sample_libm (Some 0) (Some 1) 2 7
    activation_sample_heap
  = Some (AGI_SUCCESS, [Doubles [2; -3]%float; Doubles [1; 1]%float]).
Proof.
  apply (unrecognized_activation_fallback sample_libm 7 2 activation_sample_heap
           0 1 [2; -3]%float [0; 0]%float).
  - unfold recognized_activation. lia.
  - reflexivity.
  - reflexivity.
  - simpl. lia.
  - simpl. lia.
Defined.

(** C4 as stated fails for the derivative: with the unrecognized tag 7
    and the input [2; -3], no libm makes
    [agi_apply_activation_derivative] pass the input through. *)
Lemma derivative_fallback_is_not_identity :
  ¬ ∃ m : libm,
      agi_apply_activation_derivative m (Some 0) (Some 1) 2 7
        activation_sample_heap
      = Some (AGI_SUCCESS, set_block activation_sample_heap 1 [2; -3]%float).
Proof.
  intros [m Hm].
  destruct (unrecognized_activation_fallback m 7 2 activation_sample_heap
              0 1 [2; -3]%float [0; 0]%float) as [_ Hd];
    [unfold recognized_activation; lia | done | done | simpl; lia | simpl; lia |].
  rewrite Hd in Hm. vm_compute in Hm.
  assert (Prim2SF 1 = Prim2SF 2) as Hbits by (f_equal; congruence).
  vm_compute in Hbits. discriminate Hbits.
Qed.

(** ** Classes of binary64 values *)

(** A binary64 value whose sign bit is clear, or a NaN. *)
Definition sign_clear (x : spec_float) : Prop :=
  match x with
  | S754_zero false | S754_finite false _ _ | S754_infinity false | S754_nan => True
  | _ => False
  end.

Lemma binary_round_aux_sign_clear (m e : Z) (l : location) :
  sign_clear (binary_round_aux prec emax false m e l).
Proof.
  unfold binary_round_aux.
  destruct (shr_fexp prec emax m e l) as [mrs1 e1].
  destruct (shr_fexp prec emax _ e1 loc_Exact) as [mrs2 e2].
  destruct (shr_m mrs2); [exact I | | exact I].
  by destruct (e2 <=? emax - prec)%Z.
Qed.

Lemma binary_normalize_sign_clear (n e : Z) :
  (0 <= n)%Z → sign_clear (binary_normalize prec emax n e false).
Proof.
  intros Hn. destruct n as [|p|p]; [exact I | | lia].
  cbn [binary_normalize]. unfold binary_round.
  destruct (shl_align p e _) as [mz ez]. apply binary_round_aux_sign_clear.
Qed.

Lemma square_sign_clear (x : float) : sign_clear (Prim2SF (x * x)).
Proof.
  rewrite FloatAxioms.mul_spec. unfold SF64mul.
  destruct (Prim2SF x) as [[]|[]| |[] m e]; cbn [SFmul xorb]; try exact I;
    apply binary_round_aux_sign_clear.
Qed.

Lemma add_sign_clear (x y : float) :
  sign_clear (Prim2SF x) → sign_clear (Prim2SF y) → sign_clear (Prim2SF (x + y)).
Proof.
  rewrite FloatAxioms.add_spec. unfold SF64add.
  destruct (Prim2SF x) as [[]|[]| |[] mx ex], (Prim2SF y) as [[]|[]| |[] my ey];
    cbn [SFadd sign_clear]; try done.
  intros _ _. cbn [cond_Zopp]. by apply binary_normalize_sign_clear.
Qed.

Lemma div_sign_clear (x y : float) :
  sign_clear (Prim2SF x) → sign_clear (Prim2SF y) → sign_clear (Prim2SF (x / y)).
Proof.
  rewrite FloatAxioms.div_spec. unfold SF64div.
  destruct (Prim2SF x) as [[]|[]| |[] mx ex], (Prim2SF y) as [[]|[]| |[] my ey];
    cbn [SFdiv sign_clear xorb]; try done.
  intros _ _.
  destruct (SFdiv_core_binary prec emax (Z.pos mx) ex (Z.pos my) ey)
    as [[mz ez] lz].
  apply binary_round_aux_sign_clear.
Qed.













(** ** Softmax *)

Lemma fold_left_add_zeros (n : nat) :
  fold_left PrimFloat.add (replicate n 0%float) 0%float = 0%float.
Proof. induction n as [|n IH]; [done|]. exact IH. Qed.


(** The two passes of the softmax branch over any arithmetic: the
    exponentials, then each divided by their sum (accumulated from the
    left, starting at zero). *)
Definition softmax_two_pass {T : Type} (exp : T → T) (add div : T → T → T)
    (zero : T) (x : list T) : list T :=
  let e := exp <$> x in
  let sum := fold_left add e zero in
  (λ v, div v sum) <$> e.

Lemma sum_loop_from po (h : list cell) l n : ∀ i s,
  block h po = Some l → i + n ≤ length l →
  sum_loop (Some po) i n s h
  = Some (fold_left PrimFloat.add (take n (drop i l)) s).
Proof.
  induction n as [|n IH]; intros i s Hb Hl; cbn [sum_loop]; [done|].
  rewrite (load_block _ _ _ _ Hb).
  destruct (lookup_lt_is_Some_2 l i) as [x Hx]; [lia|].
  rewrite Hx. cbn [mbind option_bind].
  rewrite IH by (done || lia).
  by rewrite (drop_S _ _ _ Hx).
Qed.

Lemma normalize_loop_elementwise out sum n : ∀ i (h : list cell),
  normalize_loop out sum i n h
  = elementwise_loop (λ x _, (x / sum)%float) out out out i n h.
Proof.
  induction n as [|n IH]; intros i h; cbn [normalize_loop elementwise_loop];
    [done|].
  destruct (load h out i) as [x|]; cbn [mbind option_bind]; [|done].
  destruct (store h out i (x / sum)%float) as [h'|]; cbn [mbind option_bind];
    [|done].
  apply IH.
Qed.

Lemma activation_value_softmax m x :
  activation_value m AGI_ACTIVATION_SOFTMAX x = c_exp m x.
Proof. reflexivity. Qed.

(** The softmax branch on the heap: the output block receives the two
    passes over the first [size] inputs. *)
Lemma agi_apply_activation_softmax m pi po size (h : list cell) li lo :
  block h pi = Some li → block h po = Some lo →
  Z.to_nat size ≤ length li → Z.to_nat size ≤ length lo →
  agi_apply_activation m (Some pi) (Some po) size AGI_ACTIVATION_SOFTMAX h
  = Some (AGI_SUCCESS,
          set_block h po
            (softmax_two_pass (c_exp m) PrimFloat.add PrimFloat.div 0%float
               (take (Z.to_nat size) li)
             ++ drop (Z.to_nat size) lo)).
Proof.
  intros Hi Ho Hli Hlo. unfold agi_apply_activation. cbn [is_null orb].
  set (n := Z.to_nat size) in *.
  rewrite (pointwise_loop_ext _ (c_exp m))
    by (intros; apply activation_value_softmax).
  rewrite (pointwise_loop_correct _ pi po h li lo) by done.
  cbn [mbind option_bind]. rewrite Z.eqb_refl.
  set (e := c_exp m <$> take n li).
  assert (He : length e = n)
    by (unfold e; rewrite length_fmap, length_take; lia).
  pose proof (block_lt _ _ _ Ho) as Hpo.
  assert (Hcur : block (set_block h po (e ++ drop n lo)) po
                 = Some (e ++ drop n lo)) by (by apply block_set_block_eq).
  rewrite (sum_loop_from po _ _ n 0 _ Hcur)
    by (rewrite length_app, length_drop; lia).
  cbn [mbind option_bind]. rewrite drop_0, take_app_length' by done.
  rewrite normalize_loop_elementwise.
  rewrite (elementwise_loop_correct _ po po po _ _ _ _ n Hcur Hcur Hcur)
    by (rewrite length_app, length_drop; lia).
  cbn [mbind option_bind].
  rewrite set_block_twice, written_unary.
  rewrite take_app_length', drop_app_length' by done.
  reflexivity.
Qed.









(** ** The allocator tracker (memory_management.c) *)

(** A client's calls into the tracker, and a run of a sequence of them. *)
Inductive tracker_call :=
| CallAlloc (size alignment : Z)    (* agi_aligned_alloc(size, alignment) *)
| CallFree (p : option nat).        (* agi_aligned_free(p) *)

Definition tracker_step (c : tracker_call) (w : world) : option world :=
  match c with
  | CallAlloc size alignment => Some (agi_aligned_alloc size alignment w).2
  | CallFree p => r ← agi_aligned_free p w; Some r.2
  end.

Fixpoint tracker_run (cs : list tracker_call) (w : world) : option world :=
  match cs with
  | [] => Some w
  | c :: cs' => w' ← tracker_step c w; tracker_run cs' w'
  end.

(** The bytes, and the number of requests, that one call is granted. *)
Definition step_bytes (c : tracker_call) (w : world) : Z :=
  match c with
  | CallAlloc size alignment =>
      if is_null (agi_aligned_alloc size alignment w).1 then 0 else size
  | CallFree _ => 0
  end.

Definition step_calls (c : tracker_call) (w : world) : Z :=
  match c with
  | CallAlloc size alignment =>
      if is_null (agi_aligned_alloc size alignment w).1 then 0 else 1
  | CallFree _ => 0
  end.

(** The same over a run. *)
Fixpoint granted_bytes (cs : list tracker_call) (w : world) : Z :=
  match cs with
  | [] => 0
  | c :: cs' =>
      (step_bytes c w
       + match tracker_step c w with
         | Some w' => granted_bytes cs' w'
         | None => 0
         end)%Z
  end.

Fixpoint granted_calls (cs : list tracker_call) (w : world) : Z :=
  match cs with
  | [] => 0
  | c :: cs' =>
      (step_calls c w
       + match tracker_step c w with
         | Some w' => granted_calls cs' w'
         | None => 0
         end)%Z
  end.

(** Every requested size is a [size_t]. *)
Definition call_ok (c : tracker_call) : Prop :=
  match c with
  | CallAlloc size _ => is_size_t size
  | CallFree _ => True
  end.

Definition used (w : world) : Z := used_memory (g_memory_stats w).
Definition peak (w : world) : Z := peak_memory (g_memory_stats w).
Definition total (w : world) : Z := total_memory (g_memory_stats w).
Definition allocations (w : world) : Z := allocation_count (g_memory_stats w).
Definition deallocations (w : world) : Z := deallocation_count (g_memory_stats w).

Lemma size_wrap_range z : is_size_t (size_wrap z).
Proof. unfold is_size_t, size_wrap, SIZE_MODULUS. apply Z.mod_pos_bound. lia. Qed.

Lemma size_wrap_small z : is_size_t z → size_wrap z = z.
Proof. unfold is_size_t, size_wrap. intros. by apply Z.mod_small. Qed.

Lemma size_wrap_add_l a b : size_wrap (size_wrap a + b) = size_wrap (a + b).
Proof. unfold size_wrap. by rewrite Zplus_mod_idemp_l. Qed.

Lemma agi_aligned_alloc_granted size alignment w b w' :
  agi_aligned_alloc size alignment w = (Some b, w') →
  total w' = size_add (total w) size ∧
  used w' = size_add (used w) size ∧
  allocations w' = size_add (allocations w) 1 ∧
  peak w' = (if (peak w <? used w')%Z then used w' else peak w) ∧
  deallocations w' = deallocations w.
Proof.
  unfold agi_aligned_alloc, aligned_alloc, allocate.
  destruct (match alloc_script w with [] => true | g :: _ => g end);
    cbn; intros [= <- <-]; done.
Qed.

Lemma agi_aligned_alloc_refused size alignment w w' :
  agi_aligned_alloc size alignment w = (None, w') →
  g_memory_stats w' = g_memory_stats w.
Proof.
  unfold agi_aligned_alloc, aligned_alloc, allocate.
  destruct (match alloc_script w with [] => true | g :: _ => g end);
    cbn; intros [= <-]; done.
Qed.

Lemma free_stats p w w' : free p w = Some w' → g_memory_stats w' = g_memory_stats w.
Proof.
  destruct p as [b|]; cbn; [|by intros [= <-]].
  destruct (heap_of w !! b) as [c|]; cbn; [|done].
  destruct (live c); [|done]. by intros [= <-].
Qed.

Lemma agi_aligned_free_counters p w e w' :
  agi_aligned_free p w = Some (e, w') →
  total w' = total w ∧ used w' = used w ∧ peak w' = peak w ∧
  allocations w' = allocations w ∧
  (p = None → e = AGI_ERROR_NULL_POINTER ∧ deallocations w' = deallocations w) ∧
  (p ≠ None → e = AGI_SUCCESS ∧
              deallocations w' = size_add (deallocations w) 1).
Proof.
  unfold agi_aligned_free. destruct p as [b|]; cbn [is_null].
  - destruct (free (Some b) _) as [w2|] eqn:Hfree; cbn; [|done].
    intros [= <- <-]. apply free_stats in Hfree.
    unfold total, used, peak, allocations, deallocations. rewrite Hfree. cbn.
    repeat split; try done.
  - intros [= <- <-]. repeat split; try done.
Qed.

(** The counters are [size_t] values and [used_memory] is at most
    [peak_memory]: true of the initial statistics and kept by every call. *)
Definition stats_ok (w : world) : Prop :=
  is_size_t (total w) ∧ is_size_t (used w) ∧ is_size_t (peak w) ∧
  is_size_t (allocations w) ∧ is_size_t (deallocations w) ∧
  (used w <= peak w)%Z.

Lemma tracker_step_counters c w w' :
  call_ok c → stats_ok w → tracker_step c w = Some w' →
  stats_ok w' ∧ (peak w <= peak w')%Z ∧
  used w' = size_wrap (used w + step_bytes c w) ∧
  total w' = size_wrap (total w + step_bytes c w) ∧
  allocations w' = size_wrap (allocations w + step_calls c w) ∧
  (0 <= step_bytes c w)%Z.
Proof.
  intros Hc (Ht & Hu & Hp & Ha & Hd & Hinv) Hstep.
  destruct c as [size alignment | p]; cbn in *.
  - destruct (agi_aligned_alloc size alignment w) as [[b|] w1] eqn:Halloc;
      cbn in *; injection Hstep as <-.
    + apply agi_aligned_alloc_granted in Halloc as (Et & Eu & Ea & Ep & Ed).
      unfold stats_ok. rewrite Ep, Eu, Et, Ea, Ed.
      unfold size_add.
      pose proof (size_wrap_range (used w + size)).
      pose proof (size_wrap_range (total w + size)).
      pose proof (size_wrap_range (allocations w + 1)).
      unfold is_size_t in *.
      destruct (Z.ltb_spec (peak w) (size_wrap (used w + size)));
        repeat split; try done; lia.
    + apply agi_aligned_alloc_refused in Halloc.
      unfold stats_ok, used, peak, total, allocations, deallocations in *.
      rewrite Halloc, !Z.add_0_r.
      rewrite !size_wrap_small by done. unfold is_size_t in *.
      repeat split; try done; lia.
  - destruct (agi_aligned_free p w) as [[e w1]|] eqn:Hfree; cbn in *; [|done].
    injection Hstep as <-.
    apply agi_aligned_free_counters in Hfree as (Et & Eu & Ep & Ea & Hn & Hs).
    assert (is_size_t (deallocations w1)) as Hd1.
    { destruct p as [b|].
      - destruct Hs as [_ ->]; [done|]. apply size_wrap_range.
      - destruct Hn as [_ ->]; done. }
    unfold stats_ok. rewrite Eu, Ep, Et, Ea, !Z.add_0_r.
    rewrite !size_wrap_small by done. unfold is_size_t in *.
    repeat split; try done; lia.
Qed.

Lemma size_wrap_add_add a g1 g2 :
  size_wrap (size_wrap (a + g1) + g2) = size_wrap (a + (g1 + g2)).
Proof. rewrite size_wrap_add_l. f_equal. lia. Qed.

Lemma tracker_run_counters cs : ∀ w w',
  Forall call_ok cs → stats_ok w → tracker_run cs w = Some w' →
  stats_ok w' ∧ (peak w <= peak w')%Z ∧
  used w' = size_wrap (used w + granted_bytes cs w) ∧
  total w' = size_wrap (total w + granted_bytes cs w) ∧
  allocations w' = size_wrap (allocations w + granted_calls cs w) ∧
  (0 <= granted_bytes cs w)%Z.
Proof.
  induction cs as [|c cs IH]; intros w w' Hcs Hok Hrun.
  - injection Hrun as <-. cbn. rewrite !Z.add_0_r.
    destruct Hok as (Ht & Hu & Hp & Ha & Hd & Hinv).
    rewrite !size_wrap_small by done.
    unfold stats_ok, is_size_t in *. repeat split; lia.
  - apply Forall_cons in Hcs as [Hc Hcs]. cbn [tracker_run] in Hrun.
    destruct (tracker_step c w) as [w1|] eqn:Hstep; cbn in Hrun; [|done].
    destruct (tracker_step_counters c w w1 Hc Hok Hstep)
      as (Hok1 & Hp1 & Hu1 & Ht1 & Ha1 & Hg1).
    destruct (IH w1 w' Hcs Hok1 Hrun) as (Hok' & Hp' & Hu' & Ht' & Ha' & Hg').
    cbn [granted_bytes granted_calls]. rewrite Hstep.
    rewrite Hu', Ht', Ha', Hu1, Ht1, Ha1, !size_wrap_add_add.
    split; [exact Hok'|]. repeat split; try done; lia.
Qed.

Lemma stats_ok_initial : stats_ok initial_world.
Proof. unfold stats_ok, is_size_t, SIZE_MODULUS. cbn. lia. Qed.

(** C6, as the code has it.  A successful [agi_aligned_alloc] adds [size]
    to [total_memory] and [used_memory] and one to [allocation_count]
    (all in [size_t] arithmetic) and raises [peak_memory] to the new used
    total when that exceeds it; [agi_aligned_free] never changes
    [used_memory].  Hence across every sequence of the two calls
    [used_memory] never exceeds [peak_memory], and it does not decrease as
    long as the bytes granted so far fit in a [size_t]. *)
Theorem tracker_counters :
  (∀ size alignment w b w',
      agi_aligned_alloc size alignment w = (Some b, w') →
      total w' = size_add (total w) size ∧
      used w' = size_add (used w) size ∧
      allocations w' = size_add (allocations w) 1 ∧
      peak w' = (if (peak w <? used w')%Z then used w' else peak w)) ∧
  (∀ p w e w',
      agi_aligned_free p w = Some (e, w') → used w' = used w) ∧
  (∀ cs w w',
      Forall call_ok cs → stats_ok w → tracker_run cs w = Some w' →
      (used w' <= peak w')%Z ∧
      ((used w + granted_bytes cs w < SIZE_MODULUS)%Z → (used w <= used w')%Z)).
Proof.
  split; [|split].
  - intros size alignment w b w' H.
    apply agi_aligned_alloc_granted in H as (? & ? & ? & ? & _). done.
  - intros p w e w' H. by apply agi_aligned_free_counters in H as (_ & ? & _).
  - intros cs w w' Hcs Hok Hrun.
    destruct (tracker_run_counters cs w w' Hcs Hok Hrun)
      as (Hok' & _ & Hu & _ & _ & Hg).
    split; [apply Hok'|]. intros Hfit. rewrite Hu.
    destruct Hok as (_ & Hr & _). unfold is_size_t in Hr.
    rewrite size_wrap_small by (unfold is_size_t; lia). lia.
Qed.

Lemma tracker_counters_witness :
  ∃ w' : world,
    tracker_run [CallAlloc 24 8; CallAlloc 40 8; CallFree (Some 0)] initial_world
    = Some w' ∧
    (used w' <= peak w')%Z ∧ (used initial_world <= used w')%Z.
Proof.
  destruct tracker_counters as (_ & _ & Hrun).
  eexists. split; [reflexivity|].
  match goal with
  | |- (used ?w <= _)%Z ∧ _ =>
      destruct (Hrun [CallAlloc 24 8; CallAlloc 40 8; CallFree (Some 0)]
                  initial_world w) as [Hpeak Hmono]
  end.
  - repeat constructor; unfold is_size_t, SIZE_MODULUS; lia.
  - apply stats_ok_initial.
  - reflexivity.
  - split; [exact Hpeak|]. apply Hmono. vm_compute. reflexivity.
Defined.

(** [n] rounds of allocating [size] bytes and releasing them again, the
    first allocation landing in block [first]. *)
Definition alloc_free_cycles (size : Z) (first n : nat) : list tracker_call :=
  flat_map (λ b, [CallAlloc size 64; CallFree (Some b)]) (seq first n).

Lemma alloc_free_cycle size w :
  alloc_script w = [] →
  ∃ w', tracker_run [CallAlloc size 64; CallFree (Some (length (heap_of w)))] w
        = Some w' ∧
        alloc_script w' = [] ∧
        length (heap_of w') = S (length (heap_of w)) ∧
        used w' = size_add (used w) size.
Proof.
  intros Hscript. cbn. unfold agi_aligned_alloc, aligned_alloc, allocate.
  rewrite Hscript. cbn. unfold agi_aligned_free. cbn.
  rewrite lookup_app_r, Nat.sub_diag by done. cbn.
  eexists. split; [reflexivity|]. cbn.
  rewrite length_insert, length_app. cbn.
  split; [done|]. split; [lia|done].
Qed.

Lemma tracker_run_app cs1 cs2 w :
  tracker_run (cs1 ++ cs2) w = w1 ← tracker_run cs1 w; tracker_run cs2 w1.
Proof.
  revert w. induction cs1 as [|c cs1 IH]; intros w; cbn; [done|].
  destruct (tracker_step c w); cbn; [apply IH|done].
Qed.

Lemma alloc_free_cycles_run size n : ∀ w,
  alloc_script w = [] → is_size_t (used w) →
  ∃ w', tracker_run (alloc_free_cycles size (length (heap_of w)) n) w = Some w' ∧
        alloc_script w' = [] ∧
        used w' = size_wrap (used w + Z.of_nat n * size).
Proof.
  induction n as [|n IH]; intros w Hscript Hused.
  - exists w. rewrite Z.mul_0_l, Z.add_0_r, size_wrap_small by done. done.
  - destruct (alloc_free_cycle size w Hscript) as (w1 & Hrun1 & Hs1 & Hl1 & Hu1).
    destruct (IH w1 Hs1) as (w2 & Hrun2 & Hs2 & Hu2).
    { rewrite Hu1. apply size_wrap_range. }
    exists w2. split; [|split; [done|]].
    + unfold alloc_free_cycles in *. cbn [seq flat_map].
      rewrite tracker_run_app, Hrun1. cbn [mbind option_bind].
      by rewrite <- Hl1.
    + rewrite Hu2, Hu1. unfold size_add. rewrite size_wrap_add_l.
      f_equal. lia.
Qed.

Definition GiB : Z := 2 ^ 30.

(** C6 as stated fails once the byte counter wraps.  Starting from the
    initial statistics, 2^34 - 1 rounds of allocating one GiB and freeing
    it leave [used_memory] at 2^64 - 2^30 (free never lowers it); the next
    successful one-GiB allocation makes it 0. *)
Lemma used_memory_wraps_around :
  ∃ w1 w2 : world,
    tracker_run (alloc_free_cycles GiB 0 (N.to_nat (2 ^ 34 - 1))) initial_world
    = Some w1 ∧
    tracker_step (CallAlloc GiB 64) w1 = Some w2 ∧
    used w1 = (2 ^ 64 - 2 ^ 30)%Z ∧ used w2 = 0%Z ∧
    (used w2 < used w1)%Z.
Proof.
  destruct (alloc_free_cycles_run GiB (N.to_nat (2 ^ 34 - 1)) initial_world)
    as (w1 & Hrun & Hscript & Hused); [done | |].
  { unfold is_size_t, SIZE_MODULUS. cbn. lia. }
  rewrite N_nat_Z in Hused.
  assert (used w1 = (2 ^ 64 - 2 ^ 30)%Z) as Hu1 by (rewrite Hused; reflexivity).
  exists w1, (agi_aligned_alloc GiB 64 w1).2.
  assert (used (agi_aligned_alloc GiB 64 w1).2 = 0%Z) as Hu2.
  { destruct (agi_aligned_alloc GiB 64 w1) as [[b|] w2] eqn:Halloc.
    - apply agi_aligned_alloc_granted in Halloc as (_ & Hu2 & _).
      cbn [snd]. rewrite Hu2, Hu1. reflexivity.
    - exfalso. revert Halloc.
      unfold agi_aligned_alloc, aligned_alloc, allocate. rewrite Hscript.
      cbn. discriminate. }
  split; [exact Hrun|]. split; [reflexivity|]. split; [exact Hu1|].
  split; [exact Hu2|]. rewrite Hu1, Hu2. reflexivity.
Qed.

(** ** The network engine: construction (neural_operations.c) *)

(** The configuration {input = 3, hidden = [4], output = 2}: the array of
    hidden sizes has [hidden_layers_count] = 1 elements. *)
Definition config_3_4_2 : agi_neural_config_t :=
  {| input_size := 3; hidden_layers_count := 1;
     hidden_layer_sizes := Some [4%Z]; output_size := 2;
     learning_rate := 0x1.47ae147ae147bp-7%float; momentum := 0%float;
     use_batch_normalization := false; use_dropout := false;
     dropout_rate := 0%float |}.

(** The same configuration over an array with one more element behind
    the declared one. *)
Definition config_3_4_2_then (next : Z) : agi_neural_config_t :=
  {| input_size := 3; hidden_layers_count := 1;
     hidden_layer_sizes := Some [4%Z; next]; output_size := 2;
     learning_rate := 0x1.47ae147ae147bp-7%float; momentum := 0%float;
     use_batch_normalization := false; use_dropout := false;
     dropout_rate := 0%float |}.

(** The shape [(input_size → output_size)] of each layer. *)
Definition layer_shapes (net : agi_neural_network_t) : list (Z * Z) :=
  (λ l, (layer_input_size l, layer_output_size l)) <$> layers net.

Definition network_shapes (r : option (option agi_neural_network_t * world))
  : option (list (Z * Z)) :=
  match r with
  | Some (Some net, _) => Some (layer_shapes net)
  | _ => None
  end.

(** C3 (the code at the failing input).  With three layers, layer 1 takes
    its width from [hidden_layer_sizes[1]], one past the single element of
    the array: constructing from {3, [4], 2} reads outside the array, and
    the call has no defined result.  What follows the array in memory
    decides the shape: a 7 there gives (3→4), (4→7), (7→2), and only a 4
    there gives the shapes (3→4), (4→4), (4→2) of the claim. *)
Theorem create_reads_past_hidden_layer_sizes :
  layer_output_size_at config_3_4_2 3 1 = None ∧
  agi_create_neural_network (Some config_3_4_2) initial_world = None ∧
  network_shapes
    (agi_create_neural_network (Some (config_3_4_2_then 7)) initial_world)
  = Some [(3, 4); (4, 7); (7, 2)]%Z ∧
  network_shapes
    (agi_create_neural_network (Some (config_3_4_2_then 4)) initial_world)
  = Some [(3, 4); (4, 4); (4, 2)]%Z.
Proof. repeat split; vm_compute; reflexivity. Qed.

(** *** What the C library calls do to the world *)

Lemma allocate_Some c w b w' :
  allocate c w = (Some b, w') →
  b = length (heap_of w) ∧ heap_of w' = heap_of w ++ [c] ∧
  g_memory_stats w' = g_memory_stats w ∧ rand_script w' = rand_script w.
Proof.
  unfold allocate.
  destruct (match alloc_script w with [] => true | g :: _ => g end);
    intros [= <- <-]; done.
Qed.

Lemma allocate_None c w w' :
  allocate c w = (None, w') →
  heap_of w' = heap_of w ∧ g_memory_stats w' = g_memory_stats w ∧
  rand_script w' = rand_script w.
Proof.
  unfold allocate.
  destruct (match alloc_script w with [] => true | g :: _ => g end);
    intros [= <-]; done.
Qed.

Lemma calloc_Some n w b w' :
  calloc n sizeof_double w = (Some b, w') →
  b = length (heap_of w) ∧
  heap_of w' = heap_of w ++ [Doubles (replicate (Z.to_nat n) 0%float)] ∧
  g_memory_stats w' = g_memory_stats w ∧ rand_script w' = rand_script w ∧
  (n * sizeof_double < SIZE_MODULUS)%Z.
Proof.
  unfold calloc. case_decide; [|done].
  intros (-> & -> & -> & ->)%allocate_Some. done.
Qed.

Lemma calloc_None n w w' :
  calloc n sizeof_double w = (None, w') →
  heap_of w' = heap_of w ∧ g_memory_stats w' = g_memory_stats w ∧
  rand_script w' = rand_script w.
Proof.
  unfold calloc. case_decide; [|by intros [= <-]].
  by intros ?%allocate_None.
Qed.

Lemma malloc_Some size w b w' :
  malloc size w = (Some b, w') →
  b = length (heap_of w) ∧ heap_of w' = heap_of w ++ [Raw size] ∧
  g_memory_stats w' = g_memory_stats w ∧ rand_script w' = rand_script w.
Proof. apply allocate_Some. Qed.

Lemma malloc_None size w w' :
  malloc size w = (None, w') →
  heap_of w' = heap_of w ∧ g_memory_stats w' = g_memory_stats w.
Proof. intros (? & ? & _)%allocate_None. done. Qed.

Lemma store_Some (h : list cell) p i v h' :
  store h p i v = Some h' →
  ∃ b l, p = Some b ∧ block h b = Some l ∧ i < length l ∧
         h' = set_block h b (<[i := v]> l).
Proof.
  unfold store. destruct p as [b|]; cbn; [|done].
  destruct (block h b) as [l|] eqn:Hb; cbn; [|done].
  case_decide; [|done]. intros [= <-]. by exists b, l.
Qed.

(** The initialisation loop rewrites the weights block in place and
    touches nothing else. *)
Lemma init_weights_loop_spec wts scale n : ∀ j w w',
  init_weights_loop wts scale j n w = Some w' →
  g_memory_stats w' = g_memory_stats w ∧ alloc_script w' = alloc_script w ∧
  (n = 0 → heap_of w' = heap_of w) ∧
  (0 < n → ∃ b l l', wts = Some b ∧ block (heap_of w) b = Some l ∧
                     length l' = length l ∧
                     heap_of w' = set_block (heap_of w) b l').
Proof.
  induction n as [|n IH]; intros j w w' Hrun; cbn [init_weights_loop] in Hrun.
  { injection Hrun as <-. split; [done|]. split; [done|]. split; [done|lia]. }
  destruct (rand w) as [r w1] eqn:Hrand.
  assert (heap_of w1 = heap_of w ∧ g_memory_stats w1 = g_memory_stats w ∧
          alloc_script w1 = alloc_script w) as (Hh1 & Hs1 & Ha1)
    by (unfold rand in Hrand; injection Hrand as <- <-; done).
  destruct (store (heap_of w1) wts j _) as [h'|] eqn:Hstore;
    cbn [mbind option_bind] in Hrun; [|done].
  apply store_Some in Hstore as (b & l & -> & Hb & Hj & ->).
  apply IH in Hrun as (Hs & Ha & H0 & Hpos). cbn in Hs, Ha, H0, Hpos.
  rewrite Hh1 in *. split; [congruence|]. split; [congruence|].
  split; [lia|]. intros _. exists b, l.
  pose proof (block_lt _ _ _ Hb) as Hlt.
  destruct n as [|n].
  - rewrite H0 by done. eexists. split; [done|]. split; [|split; [|done]].
    + done.
    + by rewrite length_insert.
  - destruct Hpos as (b' & l1 & l2 & [= <-] & Hb' & Hlen & ->); [lia|].
    rewrite block_set_block_eq in Hb' by done. injection Hb' as <-.
    exists l2. rewrite set_block_twice, Hlen, length_insert. done.
Qed.

(** *** What a successful construction builds *)

(** The cells the layer loop allocates, in order: for each layer its
    weights, then its zeroed biases, at consecutive fresh blocks starting
    at [base]. *)
Fixpoint layer_cells (base : nat) (ls : list agi_neural_layer_t)
    (cells : list cell) : Prop :=
  match ls, cells with
  | [], [] => True
  | l :: ls', Doubles W :: Doubles B :: cells' =>
      weights l = Some base ∧ biases l = Some (S base) ∧
      length W = Z.to_nat (size_mul (layer_input_size l) (layer_output_size l)) ∧
      B = replicate (Z.to_nat (layer_output_size l)) 0%float ∧
      is_training l = true ∧
      layer_cells (S (S base)) ls' cells'
  | _, _ => False
  end.

(** Each layer's input width is the width before it. *)
Fixpoint chained (cur : Z) (ls : list agi_neural_layer_t) : Prop :=
  match ls with
  | [] => True
  | l :: ls' => layer_input_size l = cur ∧ chained (layer_output_size l) ls'
  end.

Lemma create_layers_spec cfg lc net_b lay_b bytes n : ∀ i cur done w ls w',
  create_layers cfg lc net_b lay_b bytes i n cur done w = Some (Some ls, w') →
  ∃ new cells,
    ls = done ++ new ∧ length new = n ∧
    heap_of w' = heap_of w ++ cells ∧
    layer_cells (length (heap_of w)) new cells ∧
    chained cur new ∧
    g_memory_stats w' = g_memory_stats w.
Proof.
  induction n as [|n IH]; intros i cur done w ls w' Hrun;
    cbn [create_layers] in Hrun.
  { injection Hrun as <- <-. exists [], [].
    by rewrite !app_nil_r. }
  destruct (layer_output_size_at cfg lc i) as [out|];
    cbn [mbind option_bind] in Hrun; [|done].
  case_decide; [|done].
  destruct (calloc (size_mul cur out) sizeof_double w) as [wts w1] eqn:Hw.
  destruct (calloc out sizeof_double w1) as [bs w2] eqn:Hb.
  destruct wts as [pw|]; cbn [is_null orb] in Hrun;
    [|by simplify_option_eq].
  destruct bs as [pb|]; cbn [is_null orb] in Hrun;
    [|by simplify_option_eq].
  apply calloc_Some in Hw as (-> & Hh1 & Hs1 & _).
  apply calloc_Some in Hb as (-> & Hh2 & Hs2 & _).
  destruct (init_weights_loop _ _ _ _ w2) as [w3|] eqn:Hinit;
    cbn [mbind option_bind] in Hrun; [|done].
  apply init_weights_loop_spec in Hinit as (Hs3 & _ & Hzero & Hpos).
  set (B := replicate (Z.to_nat out) 0%float) in *.
  assert (∃ W, length W = Z.to_nat (size_mul cur out) ∧
               heap_of w3 = heap_of w ++ [Doubles W; Doubles B])
    as (W & HW & Hh3).
  { destruct (decide (Z.to_nat (size_mul cur out) = 0)) as [Hk|Hk].
    - exists []. split; [done|]. rewrite Hzero, Hh2, Hh1, Hk by done.
      by rewrite <- app_assoc.
    - destruct Hpos as (b & l & l' & [= <-] & Hbl & Hlen & ->); [lia|].
      exists l'. rewrite Hh2, Hh1, <- app_assoc in Hbl |- *.
      apply block_Some in Hbl. rewrite lookup_app_r, Nat.sub_diag in Hbl by done.
      injection Hbl as <-. rewrite length_replicate in Hlen. split; [done|].
      unfold set_block. rewrite insert_app_r_alt, Nat.sub_diag by done. done. }
  apply IH in Hrun as (new & cells & -> & Hlen & Hh & Hcells & Hchain & Hs).
  eexists (_ :: new), (Doubles W :: Doubles B :: cells).
  rewrite <- app_assoc. cbn [app]. split; [done|]. split; [by rewrite <- Hlen|].
  rewrite Hh, Hh3, <- app_assoc. cbn [app]. split; [done|].
  rewrite Hh3, length_app in Hcells. cbn in Hcells.
  replace (length (heap_of w) + 2) with (S (S (length (heap_of w)))) in Hcells
    by lia.
  split; [|split; [done|congruence]].
  cbn. by rewrite Hh1, length_app, Nat.add_1_r.
Qed.

(** A scratch buffer requested with [calloc(n, sizeof(double))] when the
    heap had [base] blocks: the request was refused and the pointer is
    [NULL], or it is the fresh block [base] of [n] zeroed doubles. *)
Definition scratch (p : option nat) (n : Z) (base : nat) (cells : list cell)
  : Prop :=
  (p = None ∧ cells = []) ∨
  (p = Some base ∧ cells = [Doubles (replicate (Z.to_nat n) 0%float)] ∧
   (n * sizeof_double < SIZE_MODULUS)%Z).

Lemma calloc_scratch n w p w' :
  calloc n sizeof_double w = (p, w') →
  ∃ cells, scratch p n (length (heap_of w)) cells ∧
           heap_of w' = heap_of w ++ cells ∧
           g_memory_stats w' = g_memory_stats w.
Proof.
  destruct p as [b|]; intros H.
  - apply calloc_Some in H as (-> & Hh & Hs & _ & Hfit).
    eexists. split; [by right|]. done.
  - apply calloc_None in H as (Hh & Hs & _).
    exists []. split; [by left|]. by rewrite app_nil_r.
Qed.

(** The heap a successful construction leaves: the network record, the
    layer array, the layers' buffers and the scratch buffers, appended in
    this order to the heap it started from. *)
Lemma create_spec cfg w net w' :
  agi_create_neural_network (Some cfg) w = Some (Some net, w') →
  ∃ cells ci co cg,
    heap_of w' =
      heap_of w
      ++ [Raw sizeof_agi_neural_network_t;
          Raw (size_mul (layer_count net) sizeof_agi_neural_layer_t)]
      ++ cells ++ ci ++ co ++ cg ∧
    self net = length (heap_of w) ∧
    layers_block net = S (length (heap_of w)) ∧
    config net = cfg ∧
    layer_count net = size_add (hidden_layers_count cfg) 2 ∧
    length (layers net) = Z.to_nat (layer_count net) ∧
    layer_cells (S (S (length (heap_of w)))) (layers net) cells ∧
    chained (input_size cfg) (layers net) ∧
    scratch (input_buffer net) (input_size cfg)
      (S (S (length (heap_of w))) + length cells) ci ∧
    scratch (output_buffer net) (output_size cfg)
      (S (S (length (heap_of w))) + length cells + length ci) co ∧
    scratch (gradient_buffer net) (output_size cfg)
      (S (S (length (heap_of w))) + length cells + length ci + length co) cg ∧
    g_memory_stats w' = g_memory_stats w.
Proof.
  unfold agi_create_neural_network. intros Hrun.
  destruct (malloc sizeof_agi_neural_network_t w) as [[pn|] w1] eqn:Hn; [|done].
  apply malloc_Some in Hn as (-> & Hh1 & Hs1 & _).
  destruct (malloc _ w1) as [[pl|] w2] eqn:Hl; [|by simplify_option_eq].
  apply malloc_Some in Hl as (-> & Hh2 & Hs2 & _).
  destruct (create_layers _ _ _ _ _ _ _ _ _ w2) as [[[ls|] w3]|] eqn:Hls;
    cbn [mbind option_bind] in Hrun; [|done..].
  apply create_layers_spec in Hls
    as (new & cells & Hnew & Hlen & Hh3 & Hcells & Hchain & Hs3).
  rewrite app_nil_l in Hnew. subst new.
  destruct (calloc (input_size cfg) _ w3) as [ib w4] eqn:Hi.
  destruct (calloc (output_size cfg) _ w4) as [ob w5] eqn:Ho.
  destruct (calloc (output_size cfg) _ w5) as [gb w6] eqn:Hg.
  injection Hrun as <- <-.
  apply calloc_scratch in Hi as (ci & Hci & Hh4 & Hs4).
  apply calloc_scratch in Ho as (co & Hco & Hh5 & Hs5).
  apply calloc_scratch in Hg as (cg & Hcg & Hh6 & Hs6).
  assert (heap_of w2 = heap_of w ++ [Raw sizeof_agi_neural_network_t;
            Raw (size_mul (size_add (hidden_layers_count cfg) 2)
                   sizeof_agi_neural_layer_t)]) as Hh2'
    by (by rewrite Hh2, Hh1, <- app_assoc).
  assert (length (heap_of w2) = S (S (length (heap_of w)))) as Hl2
    by (rewrite Hh2', length_app; cbn; lia).
  rewrite Hl2 in Hcells.
  assert (length (heap_of w3) = S (S (length (heap_of w))) + length cells)
    as Hl3 by (rewrite Hh3, length_app; lia).
  assert (length (heap_of w4)
          = S (S (length (heap_of w))) + length cells + length ci)
    as Hl4 by (rewrite Hh4, length_app; lia).
  assert (length (heap_of w5)
          = S (S (length (heap_of w))) + length cells + length ci + length co)
    as Hl5 by (rewrite Hh5, length_app; lia).
  rewrite Hl3 in Hci. rewrite Hl4 in Hco. rewrite Hl5 in Hcg.
  exists cells, ci, co, cg. cbn [self layers_block config layer_count layers
    input_buffer output_buffer gradient_buffer].
  split; [by rewrite Hh6, Hh5, Hh4, Hh3, Hh2', <- !app_assoc|].
  split; [done|]. split; [by rewrite Hh1, length_app, Nat.add_1_r|].
  split; [done|]. split; [done|]. split; [done|].
  repeat (split; [done|]). congruence.
Qed.

(** The number of doubles in the buffer [p] points to. *)
Definition buffer_length (h : list cell) (p : option nat) : option nat :=
  b ← p; l ← block h b; Some (length l).

(** The largest width of the pipeline: over the input width, the output
    width and every layer's width. *)
Definition largest_width (net : agi_neural_network_t) : Z :=
  foldr Z.max (Z.max (input_size (config net)) (output_size (config net)))
    (layer_output_size <$> layers net).

Lemma foldr_max_ge (base : Z) (l : list Z) : (base <= foldr Z.max base l)%Z.
Proof. induction l as [|x l IH]; cbn; lia. Qed.

Lemma scratch_buffer_length (h pre post cells : list cell) p n :
  h = pre ++ cells ++ post →
  scratch p n (length pre) cells →
  p = None ∨ buffer_length h p = Some (Z.to_nat n).
Proof.
  intros -> [[-> ->] | (-> & -> & _)]; [by left|right].
  unfold buffer_length, block. cbn.
  rewrite lookup_app_r, Nat.sub_diag by done. cbn.
  by rewrite length_replicate.
Qed.

(** C2, as the code has it.  In the network a successful construction
    returns, the gradient scratch buffer (when its allocation succeeded)
    holds exactly [output_size] doubles, and none of the three scratch
    buffers is larger than the largest width of the pipeline. *)
Theorem scratch_buffer_sizes :
  ∀ cfg w net w',
    agi_create_neural_network (Some cfg) w = Some (Some net, w') →
    (gradient_buffer net = None ∨
     buffer_length (heap_of w') (gradient_buffer net)
     = Some (Z.to_nat (output_size cfg))) ∧
    (∀ p n,
        p ∈ [input_buffer net; output_buffer net; gradient_buffer net] →
        buffer_length (heap_of w') p = Some n →
        n ≤ Z.to_nat (largest_width net)).
Proof.
  intros cfg w net w' Hrun.
  apply create_spec in Hrun
    as (cells & ci & co & cg & Hh & _ & _ & Hcfg & _ & _ & _ & _ &
        Hi & Ho & Hg & _).
  set (pre := heap_of w ++ [Raw sizeof_agi_neural_network_t;
                Raw (size_mul (layer_count net) sizeof_agi_neural_layer_t)])
    in *.
  assert (length pre = S (S (length (heap_of w)))) as Hpre
    by (unfold pre; rewrite length_app; cbn; lia).
  assert (input_buffer net = None ∨
          buffer_length (heap_of w') (input_buffer net)
          = Some (Z.to_nat (input_size cfg))) as Hbi.
  { apply (scratch_buffer_length _ (pre ++ cells) (co ++ cg) ci).
    - unfold pre. by rewrite Hh, <- !app_assoc.
    - rewrite length_app, Hpre. exact Hi. }
  assert (output_buffer net = None ∨
          buffer_length (heap_of w') (output_buffer net)
          = Some (Z.to_nat (output_size cfg))) as Hbo.
  { apply (scratch_buffer_length _ (pre ++ cells ++ ci) cg co).
    - unfold pre. by rewrite Hh, <- !app_assoc.
    - rewrite !length_app, Hpre, Nat.add_assoc. exact Ho. }
  assert (gradient_buffer net = None ∨
          buffer_length (heap_of w') (gradient_buffer net)
          = Some (Z.to_nat (output_size cfg))) as Hbg.
  { apply (scratch_buffer_length _ (pre ++ cells ++ ci ++ co) [] cg).
    - unfold pre. by rewrite Hh, <- !app_assoc, app_nil_r.
    - rewrite !length_app, Hpre, !Nat.add_assoc. exact Hg. }
  split; [exact Hbg|].
  assert (input_size cfg <= largest_width net ∧
          output_size cfg <= largest_width net)%Z as [Hwi Hwo].
  { pose proof (foldr_max_ge
        (Z.max (input_size (config net)) (output_size (config net)))
        (layer_output_size <$> layers net)) as Hge.
    unfold largest_width. rewrite Hcfg in *. lia. }
  intros p n Hp Hn.
  rewrite !elem_of_cons, elem_of_nil in Hp.
  destruct Hp as [-> | [-> | [-> | []]]].
  - destruct Hbi as [Hnull | Hlen]; [by rewrite Hnull in Hn|].
    rewrite Hlen in Hn. injection Hn as <-. lia.
  - destruct Hbo as [Hnull | Hlen]; [by rewrite Hnull in Hn|].
    rewrite Hlen in Hn. injection Hn as <-. lia.
  - destruct Hbg as [Hnull | Hlen]; [by rewrite Hnull in Hn|].
    rewrite Hlen in Hn. injection Hn as <-. lia.
Qed.

Abbreviation built_3_4_4_2 :=
  (agi_create_neural_network (Some (config_3_4_2_then 4)) initial_world).

Lemma scratch_buffer_sizes_witness :
  ∃ net w',
    built_3_4_4_2 = Some (Some net, w') ∧
    buffer_length (heap_of w') (gradient_buffer net) = Some 2 ∧
    (∀ p n,
        p ∈ [input_buffer net; output_buffer net; gradient_buffer net] →
        buffer_length (heap_of w') p = Some n →
        n ≤ Z.to_nat (largest_width net)).
Proof.
  eexists _, _.
  match goal with
  | |- ?A ∧ _ => assert A as Hbuilt by (vm_compute; reflexivity)
  end.
  split; [exact Hbuilt|].
  destruct (scratch_buffer_sizes _ _ _ _ Hbuilt) as [Hg Hall].
  split; [|exact Hall].
  destruct Hg as [Hnull | Hlen]; [discriminate Hnull | exact Hlen].
Defined.

(** C2 as stated fails.  For {input = 3, hidden = [4, 4] (one declared),
    output = 2} the largest width is 4, while the input buffer holds 3
    doubles and the output and gradient buffers 2 each. *)
Lemma scratch_buffers_smaller_than_largest_width :
  ∃ net w',
    built_3_4_4_2 = Some (Some net, w') ∧
    largest_width net = 4%Z ∧
    buffer_length (heap_of w') (input_buffer net) = Some 3 ∧
    buffer_length (heap_of w') (output_buffer net) = Some 2 ∧
    buffer_length (heap_of w') (gradient_buffer net) = Some 2.
Proof.
  eexists _, _. split; [vm_compute; reflexivity|].
  repeat split.
Qed.

(** ** The network engine: teardown *)

(** The cells [free] leaves where [cells] were. *)
Definition freed (cells : list cell) : list cell :=
  replicate (length cells) Freed.

Lemma free_at (w : world) (pre post : list cell) (c : cell) :
  heap_of w = pre ++ [c] ++ post → live c = true →
  ∃ w', free (Some (length pre)) w = Some w' ∧
        heap_of w' = pre ++ [Freed] ++ post ∧
        g_memory_stats w' = g_memory_stats w.
Proof.
  intros Hh Hc. unfold free. rewrite Hh.
  rewrite lookup_app_r, Nat.sub_diag by done. cbn. rewrite Hc.
  eexists. split; [done|]. cbn.
  by rewrite insert_app_r_alt, Nat.sub_diag.
Qed.

Lemma free_scratch (w : world) (pre post cells : list cell) p n :
  heap_of w = pre ++ cells ++ post → scratch p n (length pre) cells →
  ∃ w', free p w = Some w' ∧
        heap_of w' = pre ++ freed cells ++ post ∧
        g_memory_stats w' = g_memory_stats w.
Proof.
  intros Hh [[-> ->] | (-> & -> & _)].
  - exists w. by rewrite Hh.
  - by apply (free_at w pre post (Doubles (replicate (Z.to_nat n) 0%float))).
Qed.

Lemma destroy_layers_loop_spec ls : ∀ done cells (pre post : list cell) w,
  layer_cells (length pre) ls cells →
  heap_of w = pre ++ cells ++ post →
  ∃ w', destroy_layers_loop (done ++ ls) (length done) (length ls) w = Some w' ∧
        heap_of w' = pre ++ freed cells ++ post ∧
        g_memory_stats w' = g_memory_stats w.
Proof.
  induction ls as [|l ls IH]; intros done cells pre post w Hcells Hh.
  { destruct cells; [|done]. exists w. by rewrite Hh. }
  destruct cells as [|[W| |] [|[B| |] cells]]; try done.
  destruct Hcells as (Hw & Hb & _ & _ & _ & Hcells).
  cbn [length destroy_layers_loop].
  rewrite lookup_app_r, Nat.sub_diag by done. cbn [lookup list_lookup mbind option_bind].
  rewrite Hw, Hb.
  destruct (free_at w pre (Doubles B :: cells ++ post) (Doubles W))
    as (w1 & -> & Hh1 & Hs1); [by rewrite Hh | done |].
  cbn [mbind option_bind].
  destruct (free_at w1 (pre ++ [Freed]) (cells ++ post) (Doubles B))
    as (w2 & Hf2 & Hh2 & Hs2); [by rewrite Hh1, <- app_assoc | done |].
  rewrite length_app, Nat.add_1_r in Hf2. rewrite Hf2. cbn [mbind option_bind].
  destruct (IH (done ++ [l]) cells (pre ++ [Freed; Freed]) post w2)
    as (w3 & Hrun & Hh3 & Hs3).
  - rewrite length_app. cbn [length].
    by replace (length pre + 2) with (S (S (length pre))) by lia.
  - by rewrite Hh2, <- !app_assoc.
  - rewrite <- app_assoc, length_app, Nat.add_1_r in Hrun.
    exists w3. split; [exact Hrun|]. split; [|congruence].
    rewrite Hh3, <- !app_assoc. done.
Qed.

(** Teardown after construction: it succeeds, and every block that
    construction appended to the heap is released. *)
Lemma destroy_after_create cfg w net w' :
  agi_create_neural_network (Some cfg) w = Some (Some net, w') →
  ∃ w'', agi_destroy_neural_network (Some net) w' = Some (AGI_SUCCESS, w'') ∧
         heap_of w'' = heap_of w ++ freed (drop (length (heap_of w)) (heap_of w')) ∧
         g_memory_stats w'' = g_memory_stats w'.
Proof.
  intros Hrun.
  apply create_spec in Hrun
    as (cells & ci & co & cg & Hh & Hself & Hlb & _ & _ & Hlen & Hcells & _ &
        Hi & Ho & Hg & _).
  set (h0 := heap_of w) in *.
  set (ra := Raw sizeof_agi_neural_network_t) in *.
  set (rb := Raw (size_mul (layer_count net) sizeof_agi_neural_layer_t)) in *.
  unfold agi_destroy_neural_network.
  destruct (destroy_layers_loop_spec (layers net) [] cells (h0 ++ [ra; rb])
              (ci ++ co ++ cg) w') as (w1 & Hrun1 & Hh1 & Hs1).
  { rewrite length_app. cbn [length].
    by replace (length h0 + 2) with (S (S (length h0))) by lia. }
  { by rewrite Hh, <- !app_assoc. }
  cbn [app length] in Hrun1. rewrite <- Hlen, Hrun1. cbn [mbind option_bind].
  destruct (free_at w1 (h0 ++ [ra]) (freed cells ++ ci ++ co ++ cg) rb)
    as (w2 & Hf2 & Hh2 & Hs2); [by rewrite Hh1, <- !app_assoc | done |].
  rewrite length_app, Nat.add_1_r in Hf2. rewrite Hlb, Hf2.
  cbn [mbind option_bind].
  destruct (free_scratch w2 (h0 ++ [ra; Freed] ++ freed cells) (co ++ cg) ci
              (input_buffer net) (input_size cfg))
    as (w3 & -> & Hh3 & Hs3).
  { by rewrite Hh2, <- !app_assoc. }
  { rewrite !length_app. unfold freed at 1. rewrite length_replicate.
    cbn [length]. by replace (length h0 + (2 + length cells))
                       with (S (S (length h0)) + length cells) by lia. }
  cbn [mbind option_bind].
  destruct (free_scratch w3 (h0 ++ [ra; Freed] ++ freed cells ++ freed ci) cg co
              (output_buffer net) (output_size cfg))
    as (w4 & -> & Hh4 & Hs4).
  { by rewrite Hh3, <- !app_assoc. }
  { rewrite !length_app. unfold freed at 1 2. rewrite !length_replicate.
    cbn [length]. by replace (length h0 + (2 + (length cells + length ci)))
                       with (S (S (length h0)) + length cells + length ci) by lia. }
  cbn [mbind option_bind].
  destruct (free_scratch w4
              (h0 ++ [ra; Freed] ++ freed cells ++ freed ci ++ freed co) [] cg
              (gradient_buffer net) (output_size cfg))
    as (w5 & -> & Hh5 & Hs5).
  { by rewrite Hh4, <- !app_assoc, app_nil_r. }
  { rewrite !length_app. unfold freed at 1 2 3. rewrite !length_replicate.
    cbn [length].
    by replace (length h0 + (2 + (length cells + (length ci + length co))))
         with (S (S (length h0)) + length cells + length ci + length co) by lia. }
  cbn [mbind option_bind].
  destruct (free_at w5 h0
              ([Freed] ++ freed cells ++ freed ci ++ freed co ++ freed cg) ra)
    as (w6 & Hf6 & Hh6 & Hs6); [by rewrite Hh5, <- !app_assoc, app_nil_r | done |].
  rewrite Hself, Hf6. cbn [mbind option_bind].
  exists w6. split; [done|]. split; [|congruence].
  rewrite Hh6, Hh, drop_app_length. unfold freed.
  rewrite !length_app, !replicate_add. cbn [length replicate app].
  done.
Qed.

(** C5, as the code has it.  Construction obtains the network record, the
    layer array, every layer's weight and bias buffer and the three
    scratch buffers from [malloc] and [calloc], and teardown releases them
    with [free]: neither goes through the allocator tracker.  A successful
    [agi_create_neural_network] leaves every counter of the tracker as it
    was; the [agi_destroy_neural_network] that follows succeeds, releases
    exactly the blocks construction added to the heap, and leaves the
    counters unchanged as well. *)
Theorem construction_bypasses_tracker :
  ∀ cfg w net w',
    agi_create_neural_network (Some cfg) w = Some (Some net, w') →
    g_memory_stats w' = g_memory_stats w ∧
    ∃ w'',
      agi_destroy_neural_network (Some net) w' = Some (AGI_SUCCESS, w'') ∧
      g_memory_stats w'' = g_memory_stats w ∧
      heap_of w'' = heap_of w ++ freed (drop (length (heap_of w)) (heap_of w')).
Proof.
  intros cfg w net w' Hrun.
  destruct (destroy_after_create cfg w net w' Hrun) as (w'' & Hd & Hh & Hs).
  apply create_spec in Hrun as (? & ? & ? & ? & Hrest).
  assert (g_memory_stats w' = g_memory_stats w) as Hs' by apply Hrest.
  split; [exact Hs'|]. exists w''. split; [exact Hd|]. split; [congruence|done].
Qed.

Lemma construction_bypasses_tracker_witness :
  ∃ net w' w'',
    built_3_4_4_2 = Some (Some net, w') ∧
    g_memory_stats w' = zero_stats ∧
    agi_destroy_neural_network (Some net) w' = Some (AGI_SUCCESS, w'') ∧
    g_memory_stats w'' = zero_stats ∧
    heap_of w'' = replicate 11 Freed.
Proof.
  eexists _, _.
  match goal with
  | |- ∃ w'', ?A ∧ _ => assert A as Hbuilt by (vm_compute; reflexivity)
  end.
  destruct (construction_bypasses_tracker _ _ _ _ Hbuilt)
    as (Hs & w'' & Hd & Hs' & Hh).
  exists w''. split; [exact Hbuilt|]. split; [exact Hs|].
  split; [exact Hd|]. split; [exact Hs'|]. exact Hh.
Defined.

(** C5 as stated fails: constructing the network of {3, [4, 4], 2} from
    the initial state succeeds and [allocation_count] is still 0. *)
Lemma create_leaves_allocation_count :
  ∃ net w',
    built_3_4_4_2 = Some (Some net, w') ∧
    allocations initial_world = 0%Z ∧ allocations w' = 0%Z ∧
    ¬ (allocations initial_world < allocations w')%Z.
Proof.
  eexists _, _. split; [vm_compute; reflexivity|].
  split; [reflexivity|]. split; [reflexivity|]. cbn. lia.
Qed.

(** ** The network engine: the batch size *)

(** C10.  [batch_size] is ignored: [agi_forward_pass], [agi_backward_pass]
    and [agi_train_batch] return the same status or loss and leave the
    same memory -- the caller's buffers and the network's -- for any two
    batch sizes. *)
Theorem batch_size_is_ignored :
  ∀ (network : option agi_neural_network_t)
    (input output target gradients : option nat) (b1 b2 : Z) (h : list cell),
    agi_forward_pass network input output b1 h
    = agi_forward_pass network input output b2 h ∧
    agi_backward_pass network input target gradients b1 h
    = agi_backward_pass network input target gradients b2 h ∧
    agi_train_batch network input target b1 h
    = agi_train_batch network input target b2 h.
Proof.
  intros network input output target gradients b1 b2 h.
  split; [|split].
  - destruct network as [net|]; reflexivity.
  - destruct network as [net|]; reflexivity.
  - destruct network as [net|]; [|reflexivity].
    unfold agi_train_batch.
    destruct (is_null input || is_null target); reflexivity.
Qed.

(** ** Binary64 facts used by the engine *)

Section Binary64.

#[local] Open Scope Z_scope.

Lemma digits2_pos_lower (p : positive) :
  2 ^ (Z.pos (digits2_pos p) - 1) <= Z.pos p.
Proof.
  induction p as [p IH | p IH |]; cbn [digits2_pos]; [| |cbn; lia].
  - rewrite Pos2Z.inj_succ.
    replace (Z.succ (Z.pos (digits2_pos p)) - 1)
      with (1 + (Z.pos (digits2_pos p) - 1)) by lia.
    rewrite Z.pow_add_r by lia. lia.
  - rewrite Pos2Z.inj_succ.
    replace (Z.succ (Z.pos (digits2_pos p)) - 1)
      with (1 + (Z.pos (digits2_pos p) - 1)) by lia.
    rewrite Z.pow_add_r by lia. lia.
Qed.

Lemma shr_m_shr_1 (mrs : shr_record) :
  0 <= shr_m mrs → shr_m (shr_1 mrs) = shr_m mrs / 2.
Proof.
  destruct mrs as [m r s]. cbn [shr_m]. intros Hm.
  destruct m as [|[p|p|]|p]; cbn [shr_1 shr_m]; try lia.
  - reflexivity.
  - rewrite Pos2Z.inj_xI. apply Z.div_unique with 1; lia.
  - rewrite Pos2Z.inj_xO. apply Z.div_unique with 0; lia.
  - reflexivity.
Qed.

Lemma shr_m_iter_pos (n : positive) : ∀ mrs : shr_record,
  0 <= shr_m mrs →
  shr_m (SpecFloat.iter_pos shr_1 n mrs) = shr_m mrs / 2 ^ Z.pos n.
Proof.
  assert (Hstep : ∀ mrs, 0 <= shr_m mrs → 0 <= shr_m (shr_1 mrs)).
  { intros mrs H. rewrite shr_m_shr_1 by done. apply Z.div_pos; lia. }
  induction n as [n IH | n IH |]; intros mrs Hm; cbn [SpecFloat.iter_pos].
  - rewrite !IH, shr_m_shr_1; try done.
    + rewrite !Z.div_div by lia. f_equal.
      rewrite Pos2Z.inj_xI, <- Z.pow_add_r, <- (Z.pow_add_r 2 1) by lia.
      f_equal. lia.
    + by apply Hstep.
    + rewrite IH by (by apply Hstep). apply Z.div_pos; [by apply Hstep | lia].
  - rewrite !IH; try done.
    + rewrite Z.div_div by lia. f_equal.
      rewrite Pos2Z.inj_xO, <- Z.pow_add_r by lia. f_equal. lia.
    + rewrite IH by done. apply Z.div_pos; [done | lia].
  - rewrite shr_m_shr_1 by done. reflexivity.
Qed.

(** Rounding a positive mantissa whose exponent is not below [emin]
    never yields zero or a NaN. *)
Definition positive_class (x : spec_float) : Prop :=
  match x with
  | S754_finite false _ _ | S754_infinity false => True
  | _ => False
  end.

Lemma shr_fexp_positive (m : positive) (e : Z) (l : location) :
  emin <= e →
  0 < shr_m (shr_fexp prec emax (Z.pos m) e l).1 ∧
  emin <= (shr_fexp prec emax (Z.pos m) e l).2.
Proof.
  intros He. unfold shr_fexp, shr. cbn [Zdigits2].
  assert (shr_m (shr_record_of_loc (Z.pos m) l) = Z.pos m) as Hm
    by (destruct l as [|[]]; reflexivity).
  pose proof (digits2_pos_lower m) as Hd.
  set (d := Z.pos (digits2_pos m)) in *.
  assert (0 < d) by (unfold d; lia).
  destruct (fexp prec emax (d + e) - e) as [|n|n] eqn:Hn; cbn [fst snd].
  - rewrite Hm. lia.
  - rewrite shr_m_iter_pos, Hm by (rewrite Hm; lia).
    assert (Z.pos n <= d - 1) as Hle.
    { unfold fexp, SpecFloat.emin, prec, emax in *. lia. }
    split; [|lia]. apply Z.div_str_pos. split; [lia|].
    etrans; [|exact Hd]. apply Z.pow_le_mono_r; lia.
  - rewrite Hm. lia.
Qed.

Lemma round_nearest_even_positive (m : Z) (l : location) :
  0 < m → 0 < round_nearest_even m l.
Proof.
  intros Hm. destruct l as [|[]]; cbn; try lia.
  destruct (Z.even m); lia.
Qed.

Lemma binary_round_aux_positive (m : positive) (e : Z) (l : location) :
  emin <= e → positive_class (binary_round_aux prec emax false (Z.pos m) e l).
Proof.
  intros He. unfold binary_round_aux.
  pose proof (shr_fexp_positive m e l He) as [Hm1 He1].
  destruct (shr_fexp prec emax (Z.pos m) e l) as [mrs1 e1]. cbn [fst snd] in *.
  pose proof (round_nearest_even_positive _ (loc_of_shr_record mrs1) Hm1) as Hm2.
  destruct (round_nearest_even (shr_m mrs1) (loc_of_shr_record mrs1))
    as [|m2|m2]; try lia.
  pose proof (shr_fexp_positive m2 e1 loc_Exact He1) as [Hm3 _].
  destruct (shr_fexp prec emax (Z.pos m2) e1 loc_Exact) as [mrs3 e3].
  cbn [fst snd] in *.
  destruct (shr_m mrs3) as [|m3|m3]; try lia.
  destruct (e3 <=? emax - prec); exact I.
Qed.

Lemma binary_normalize_positive (n : Z) :
  0 < n → positive_class (binary_normalize prec emax n 0 false).
Proof.
  intros Hn. destruct n as [|p|p]; try lia.
  cbn [binary_normalize]. unfold binary_round.
  destruct (shl_align p 0 _) as [mz ez] eqn:Halign.
  apply binary_round_aux_positive.
  unfold shl_align in Halign.
  destruct (fexp prec emax (Z.pos (digits2_pos p) + 0) - 0) eqn:Hf;
    injection Halign as <- <-;
    unfold fexp, SpecFloat.emin, prec, emax in *; lia.
Qed.

(** [(double) n] of an integer below 2^63 is the primitive conversion. *)
Lemma double_of_Z_spec (n : Z) :
  0 <= n < 2 ^ 63 →
  Prim2SF (double_of_Z n) = binary_normalize prec emax n 0 false.
Proof.
  intros Hn. unfold double_of_Z.
  rewrite <- (Z.mod_small n Uint63.wB) by (change Uint63.wB with (2 ^ 63); lia).
  rewrite <- Uint63.of_Z_spec, <- of_uint63_spec.
  by rewrite SF2Prim_Prim2SF.
Qed.

Lemma zero_div_positive (y : float) :
  positive_class (Prim2SF y) → (0 / y)%float = 0%float.
Proof.
  intros Hy. apply Prim2SF_inj. rewrite FloatAxioms.div_spec.
  change (Prim2SF 0) with (S754_zero false).
  destruct (Prim2SF y) as [s|[]| |[] m e]; try done.
Qed.

(** A double that is neither an infinity nor a NaN. *)
Definition finite_double (x : float) : bool :=
  match Prim2SF x with
  | S754_zero _ | S754_finite _ _ _ => true
  | _ => false
  end.

Lemma sub_diag_finite (x : float) :
  finite_double x = true → (x - x)%float = 0%float.
Proof.
  unfold finite_double. intros Hx. apply Prim2SF_inj. rewrite FloatAxioms.sub_spec.
  change (Prim2SF 0) with (S754_zero false).
  destruct (Prim2SF x) as [[]| | |s m e]; try done.
  unfold SF64sub, SFsub. rewrite Z.sub_diag. reflexivity.
Qed.

End Binary64.

(** ** The forward pass as a function of the weights and the input *)

(** [Σ_t W[base + t]·x[t]] for [t] from [j], [n] terms, added to [acc]
    from the left. *)
Fixpoint dot_from (W x : list float) (base j n : nat) (acc : float) : float :=
  match n with
  | O => acc
  | S n' =>
      dot_from W x base (S j) n' (acc + nth (base + j) W 0 * nth j x 0)%float
  end.

(** The pre-activation sums of a layer, before the bias. *)
Definition matvec (W x : list float) (n_in n_out : nat) : list float :=
  (λ i, dot_from W x (i * n_in) 0 n_in 0%float) <$> seq 0 n_out.

(** What a layer with weights [W] (row-major, [n_out] rows of [n_in]) and
    biases [B] computes from [x]. *)
Definition layer_out (W B x : list float) (n_in n_out : nat) : list float :=
  relu <$> zip_with PrimFloat.add (matvec W x n_in n_out) (take n_out B).

Lemma length_matvec W x n_in n_out : length (matvec W x n_in n_out) = n_out.
Proof. unfold matvec. by rewrite length_fmap, length_seq. Qed.

Lemma length_layer_out W B x n_in n_out :
  n_out ≤ length B → length (layer_out W B x n_in n_out) = n_out.
Proof.
  intros HB. unfold layer_out.
  rewrite length_fmap, length_zip_with, length_matvec, length_take. lia.
Qed.

Lemma dot_from_prefix W v r base n : ∀ j acc,
  j + n ≤ length v →
  dot_from W (v ++ r) base j n acc = dot_from W v base j n acc.
Proof.
  induction n as [|n IH]; intros j acc Hj; cbn [dot_from]; [done|].
  rewrite IH by lia. by rewrite app_nth1 by lia.
Qed.

Lemma layer_out_prefix W B v r n_in n_out :
  n_in ≤ length v →
  layer_out W B (v ++ r) n_in n_out = layer_out W B v n_in n_out.
Proof.
  intros Hv. unfold layer_out, matvec. do 2 f_equal.
  apply list_fmap_ext. intros _ i _. by apply dot_from_prefix.
Qed.

(** The index [i * input_size + j] does not wrap inside the matrix. *)
Lemma weight_index (in_size : Z) (out_n i j : nat) :
  (0 <= in_size)%Z → (Z.of_nat out_n * in_size < SIZE_MODULUS)%Z →
  i < out_n → j < Z.to_nat in_size →
  Z.to_nat (size_add (size_mul (Z.of_nat i) in_size) (Z.of_nat j))
  = i * Z.to_nat in_size + j.
Proof.
  intros Hin Hfit Hi Hj. unfold size_add, size_mul, size_wrap.
  assert (0 <= Z.of_nat i * in_size + Z.of_nat j < SIZE_MODULUS)%Z as Hrange
    by nia.
  rewrite (Z.mod_small (Z.of_nat i * in_size)) by nia.
  rewrite Z.mod_small by done. nia.
Qed.

Lemma lookup_nth (l : list float) (i : nat) :
  i < length l → l !! i = Some (nth i l 0%float).
Proof.
  intros Hi. destruct (lookup_lt_is_Some_2 l i Hi) as [x Hx].
  by rewrite Hx, (nth_lookup_Some _ _ _ _ Hx).
Qed.

Section Layer.
  Context (h : list cell) (pw pb pin pout : nat) (W B X : list float).
  Context (in_size : Z) (n_out : nat).
  Context (HW : block h pw = Some W) (HB : block h pb = Some B)
          (HX : block h pin = Some X).
  Context (Hpw : pout ≠ pw) (Hpb : pout ≠ pb) (Hpin : pout ≠ pin)
          (Hpout : pout < length h).
  Context (Hin : (0 <= in_size)%Z)
          (Hfit : (Z.of_nat n_out * in_size < SIZE_MODULUS)%Z)
          (HlW : n_out * Z.to_nat in_size ≤ length W)
          (HlB : n_out ≤ length B)
          (HlX : Z.to_nat in_size ≤ length X).

Lemma accumulate_loop_spec (Y : list float) (i : nat) :
  i < n_out → i < length Y →
  ∀ n j acc,
    j + n ≤ Z.to_nat in_size →
    accumulate_loop (Some pw) (Some pin) (Some pout) in_size i j n
      (set_block h pout (<[i := acc]> Y))
    = Some (set_block h pout
              (<[i := dot_from W X (i * Z.to_nat in_size) j n acc]> Y)).
Proof.
  intros Hi HiY. induction n as [|n IH]; intros j acc Hj;
    cbn [accumulate_loop dot_from]; [done|].
  assert (block (set_block h pout (<[i := acc]> Y)) pout
          = Some (<[i := acc]> Y)) as Hcur by (by apply block_set_block_eq).
  rewrite (load_block _ _ _ _ Hcur), list_lookup_insert_eq by done.
  cbn [mbind option_bind].
  rewrite weight_index with (out_n := n_out) by (done || lia).
  rewrite (load_block _ pw W) by (by rewrite block_set_block_ne).
  rewrite lookup_nth by nia. cbn [mbind option_bind].
  rewrite (load_block _ pin X) by (by rewrite block_set_block_ne).
  rewrite lookup_nth by lia. cbn [mbind option_bind].
  rewrite (store_block _ _ _ _ _ Hcur) by (by rewrite length_insert).
  cbn [mbind option_bind].
  rewrite set_block_twice, list_insert_insert_eq. apply IH. lia.
Qed.

Lemma matvec_S (k : nat) :
  matvec W X (Z.to_nat in_size) (S k)
  = matvec W X (Z.to_nat in_size) k
    ++ [dot_from W X (k * Z.to_nat in_size) 0 (Z.to_nat in_size) 0%float].
Proof. unfold matvec. by rewrite seq_S, fmap_app. Qed.

Lemma insert_after_prefix (P Y : list float) (i : nat) (v : float) :
  length P = i → i < length Y →
  <[i := v]> (P ++ drop i Y) = (P ++ [v]) ++ drop (S i) Y.
Proof.
  intros <- Hlt. rewrite insert_app_r_alt, Nat.sub_diag by done.
  destruct (lookup_lt_is_Some_2 Y (length P) Hlt) as [y Hy].
  rewrite (drop_S _ _ _ Hy). cbn. by rewrite <- app_assoc.
Qed.

Lemma matvec_loop_spec (Y : list float) :
  ∀ n i,
    i + n ≤ n_out → i + n ≤ length Y →
    matvec_loop (Some pw) (Some pin) (Some pout) in_size i n
      (set_block h pout (matvec W X (Z.to_nat in_size) i ++ drop i Y))
    = Some (set_block h pout
              (matvec W X (Z.to_nat in_size) (i + n) ++ drop (i + n) Y)).
Proof.
  induction n as [|n IH]; intros i Hi HiY; cbn [matvec_loop].
  { by rewrite Nat.add_0_r. }
  set (P := matvec W X (Z.to_nat in_size) i).
  assert (length P = i) as HP by apply length_matvec.
  assert (length (P ++ drop i Y) = length Y) as Hlen
    by (rewrite length_app, length_drop; lia).
  assert (block (set_block h pout (P ++ drop i Y)) pout
          = Some (P ++ drop i Y)) as Hcur by (by apply block_set_block_eq).
  rewrite (store_block _ _ _ _ _ Hcur) by lia. cbn [mbind option_bind].
  rewrite set_block_twice.
  rewrite (accumulate_loop_spec (P ++ drop i Y) i) by lia.
  cbn [mbind option_bind].
  rewrite insert_after_prefix by (done || lia).
  unfold P. rewrite <- matvec_S.
  rewrite IH by lia. by replace (i + S n) with (S i + n) by lia.
Qed.

Lemma bias_loop_elementwise (bs out : option nat) n : ∀ i (g : list cell),
  bias_loop bs out i n g = elementwise_loop PrimFloat.add out bs out i n g.
Proof.
  induction n as [|n IH]; intros i g; cbn [bias_loop elementwise_loop]; [done|].
  destruct (load g out i) as [v|]; cbn [mbind option_bind]; [|done].
  destruct (load g bs i) as [b|]; cbn [mbind option_bind]; [|done].
  destruct (store g out i (v + b)%float) as [g'|]; cbn [mbind option_bind];
    [|done].
  apply IH.
Qed.

Lemma relu_loop_elementwise (out : option nat) n : ∀ i (g : list cell),
  relu_loop out i n g = elementwise_loop (λ x _, relu x) out out out i n g.
Proof.
  induction n as [|n IH]; intros i g; cbn [relu_loop elementwise_loop]; [done|].
  destruct (load g out i) as [v|]; cbn [mbind option_bind]; [|done].
  destruct (store g out i (relu v)) as [g'|]; cbn [mbind option_bind]; [|done].
  apply IH.
Qed.

(** One layer: the output buffer receives the layer's values in its
    first [n_out] elements and keeps the rest. *)
Lemma forward_layer_spec (l : agi_neural_layer_t) (Y : list float) :
  weights l = Some pw → biases l = Some pb →
  layer_input_size l = in_size → Z.to_nat (layer_output_size l) = n_out →
  block h pout = Some Y → n_out ≤ length Y →
  forward_layer l (Some pin) (Some pout) h
  = Some (set_block h pout
            (layer_out W B X (Z.to_nat in_size) n_out ++ drop n_out Y)).
Proof.
  intros Hw Hb Hi Ho HY HlY. unfold forward_layer. rewrite Hw, Hb, Hi, Ho.
  pose proof (matvec_loop_spec Y n_out 0) as Hmv.
  rewrite drop_0 in Hmv. change (matvec W X (Z.to_nat in_size) 0) with (@nil float) in Hmv.
  rewrite app_nil_l, (set_block_same _ _ _ HY) in Hmv.
  rewrite Hmv by lia. cbn [mbind option_bind]. cbn [Nat.add].
  set (M := matvec W X (Z.to_nat in_size) n_out).
  assert (length M = n_out) as HM by apply length_matvec.
  set (Y1 := M ++ drop n_out Y).
  assert (length Y1 = length Y) as HY1
    by (unfold Y1; rewrite length_app, length_drop; lia).
  assert (block (set_block h pout Y1) pout = Some Y1) as Hcur1
    by (by apply block_set_block_eq).
  rewrite bias_loop_elementwise.
  rewrite (elementwise_loop_correct _ pout pb pout _ Y1 B Y1)
    by (done || lia || by rewrite block_set_block_ne).
  cbn [mbind option_bind]. rewrite set_block_twice.
  set (Y2 := written PrimFloat.add Y1 B Y1 n_out).
  assert (Y2 = zip_with PrimFloat.add M (take n_out B) ++ drop n_out Y) as HY2.
  { unfold Y2, written, Y1.
    by rewrite take_app_length', drop_app_length' by done. }
  assert (length Y2 = length Y) as HlY2
    by (unfold Y2; rewrite length_written; lia).
  assert (block (set_block h pout Y2) pout = Some Y2) as Hcur2
    by (by apply block_set_block_eq).
  rewrite relu_loop_elementwise.
  rewrite (elementwise_loop_correct _ pout pout pout _ Y2 Y2 Y2) by (done || lia).
  rewrite set_block_twice, written_unary. do 2 f_equal.
  assert (length (zip_with PrimFloat.add M (take n_out B)) = n_out) as HZ
    by (rewrite length_zip_with, length_take; lia).
  rewrite HY2, take_app_length', drop_app_length' by done.
  reflexivity.
Qed.

End Layer.

(** What layer [l], with its weights and biases read from the heap,
    computes from [x]. *)
Definition layer_values (h : list cell) (l : agi_neural_layer_t)
    (x : list float) : list float :=
  match weights l, biases l with
  | Some pw, Some pb =>
      match block h pw, block h pb with
      | Some W, Some B =>
          layer_out W B x (Z.to_nat (layer_input_size l))
            (Z.to_nat (layer_output_size l))
      | _, _ => []
      end
  | _, _ => []
  end.

(** The layers in sequence. *)
Definition network_values (h : list cell) (ls : list agi_neural_layer_t)
    (x : list float) : list float :=
  foldl (λ v l, layer_values h l v) x ls.

(** Layer [l] can run between the scratch blocks [a] and [b]: its weight
    and bias buffers are live blocks apart from them, a weight matrix of
    [output_size] rows of [input_size] and a bias vector of [output_size],
    and the matrix has fewer than 2^64 entries. *)
Definition layer_ready (h : list cell) (a b : nat) (l : agi_neural_layer_t)
  : Prop :=
  ∃ pw pb W B,
    weights l = Some pw ∧ biases l = Some pb ∧
    block h pw = Some W ∧ block h pb = Some B ∧
    pw ≠ a ∧ pw ≠ b ∧ pb ≠ a ∧ pb ≠ b ∧
    (0 <= layer_input_size l)%Z ∧ (0 <= layer_output_size l)%Z ∧
    (layer_output_size l * layer_input_size l < SIZE_MODULUS)%Z ∧
    Z.to_nat (layer_output_size l) * Z.to_nat (layer_input_size l) ≤ length W ∧
    Z.to_nat (layer_output_size l) ≤ length B.

(** The layers can run in sequence from a buffer of [len_a] doubles
    holding [width] values to a buffer of [len_b] doubles, swapping the
    two after each layer: every layer reads no more than the previous one
    wrote and writes no more than the buffer it writes to holds. *)
Fixpoint layers_ready (h : list cell) (a b : nat)
    (ls : list agi_neural_layer_t) (width len_a len_b : nat) : Prop :=
  match ls with
  | [] => True
  | l :: ls' =>
      layer_ready h a b l ∧
      Z.to_nat (layer_input_size l) ≤ width ∧
      Z.to_nat (layer_output_size l) ≤ len_b ∧
      layers_ready h b a ls' (Z.to_nat (layer_output_size l)) len_b len_a
  end.

(** The width the last layer leaves (the input's, without layers). *)
Definition final_width (ls : list agi_neural_layer_t) (width : nat) : nat :=
  foldl (λ _ l, Z.to_nat (layer_output_size l)) width ls.

Lemma length_layer_values h a b l x :
  layer_ready h a b l →
  length (layer_values h l x) = Z.to_nat (layer_output_size l).
Proof.
  intros (pw & pb & W & B & Hw & Hb & HW & HB & _ & _ & _ & _ & _ & _ & _ & _ & HlB).
  unfold layer_values. rewrite Hw, Hb, HW, HB. by apply length_layer_out.
Qed.

Lemma length_network_values h ls : ∀ a b x width len_a len_b,
  layers_ready h a b ls width len_a len_b → length x = width →
  length (network_values h ls x) = final_width ls width.
Proof.
  induction ls as [|l ls IH]; intros a b x width len_a len_b Hready Hx; [done|].
  destruct Hready as (Hl & _ & _ & Hrest). cbn [network_values final_width foldl].
  apply (IH b a _ _ len_b len_a Hrest). by apply (length_layer_values h a b).
Qed.

(** Blocks that two heaps share. *)
Lemma block_agree (h h' : list cell) p :
  h' !! p = h !! p → block h' p = block h p.
Proof. unfold block. by intros ->. Qed.

Lemma layer_ready_agree h h' a b l :
  (∀ p, p ≠ a → p ≠ b → h' !! p = h !! p) →
  layer_ready h a b l → layer_ready h' a b l.
Proof.
  intros Hagree (pw & pb & W & B & Hw & Hb & HW & HB & ? & ? & ? & ? & Hrest).
  exists pw, pb, W, B.
  rewrite !(block_agree h h') by (by apply Hagree). done.
Qed.

Lemma layer_values_agree h h' a b l x :
  (∀ p, p ≠ a → p ≠ b → h' !! p = h !! p) →
  layer_ready h a b l → layer_values h' l x = layer_values h l x.
Proof.
  intros Hagree (pw & pb & W & B & Hw & Hb & HW & HB & ? & ? & ? & ? & Hrest).
  unfold layer_values. rewrite Hw, Hb.
  by rewrite !(block_agree h h') by (by apply Hagree).
Qed.

(** The layer loop.  [h0] is the heap the weights are read from; the
    current heap [h] differs from it in the two scratch blocks only,
    and block [a] starts with the current values [v]. *)
Lemma layers_loop_spec (h0 : list cell) : ∀ ls pre a b v ra Bb (h : list cell),
  a ≠ b →
  block h a = Some (v ++ ra) → block h b = Some Bb →
  (∀ p, p ≠ a → p ≠ b → h !! p = h0 !! p) → length h = length h0 →
  layers_ready h0 a b ls (length v) (length (v ++ ra)) (length Bb) →
  ∃ (h' : list cell) r A' B',
    layers_loop (pre ++ ls) (length pre) (length ls) (Some a) (Some b) h
    = Some (Some (if Nat.even (length ls) then a else b), h') ∧
    block h' (if Nat.even (length ls) then a else b)
    = Some (network_values h0 ls v ++ r) ∧
    (∀ p, p ≠ a → p ≠ b → h' !! p = h0 !! p) ∧ length h' = length h0 ∧
    block h' a = Some A' ∧ length A' = length (v ++ ra) ∧
    block h' b = Some B' ∧ length B' = length Bb.
Proof.
  induction ls as [|l ls IH]; intros pre a b v ra Bb h Hab Ha Hb Hagree Hlen Hready.
  { exists h, ra, (v ++ ra), Bb. cbn. done. }
  destruct Hready as (Hl & Hin & Hout & Hrest).
  pose proof Hl as (pw & pb & W & B & Hw & Hbi & HW & HB & Hwa & Hwb & Hba & Hbb &
                    Hi0 & Ho0 & Hfit & HlW & HlB).
  cbn [length layers_loop].
  rewrite lookup_app_r, Nat.sub_diag by done.
  cbn [lookup list_lookup mbind option_bind].
  rewrite (forward_layer_spec h pw pb a b W B (v ++ ra) (layer_input_size l)
             (Z.to_nat (layer_output_size l))) with (Y := Bb); try done.
  2,3: by rewrite (block_agree h0 h) by (by apply Hagree).
  2: by apply (block_lt _ _ _ Hb).
  2: by rewrite Z2Nat.id.
  2: rewrite length_app; lia.
  cbn [mbind option_bind].
  rewrite layer_out_prefix by done.
  set (v' := layer_out W B v (Z.to_nat (layer_input_size l))
               (Z.to_nat (layer_output_size l))).
  assert (v' = layer_values h0 l v) as Hv'
    by (unfold layer_values; by rewrite Hw, Hbi, HW, HB).
  assert (length v' = Z.to_nat (layer_output_size l)) as Hlv'
    by (by apply length_layer_out).
  set (h1 := set_block h b (v' ++ drop (Z.to_nat (layer_output_size l)) Bb)).
  assert (length (v' ++ drop (Z.to_nat (layer_output_size l)) Bb) = length Bb)
    as Hlb' by (rewrite length_app, length_drop; lia).
  pose proof (block_lt _ _ _ Hb) as Hblt.
  destruct (IH (pre ++ [l]) b a v' (drop (Z.to_nat (layer_output_size l)) Bb)
              (v ++ ra) h1) as (h' & r & A' & B' & Hrun & Hcur & Hagree' & Hlen' &
                                HA' & HlA' & HB' & HlB').
  - done.
  - by apply block_set_block_eq.
  - unfold h1. by rewrite block_set_block_ne.
  - intros p Hpb Hpa. unfold h1, set_block.
    rewrite list_lookup_insert_ne by done. by apply Hagree.
  - unfold h1. by rewrite length_set_block.
  - by rewrite Hlv', Hlb'.
  - rewrite <- app_assoc, length_app, Nat.add_1_r in Hrun. cbn [app] in Hrun.
    exists h', r, B', A'. rewrite Hrun.
    rewrite Nat.even_succ, <- Nat.negb_even.
    cbn [network_values foldl]. rewrite <- Hv'.
    destruct (Nat.even (length ls)); cbn [negb];
      (split; [done|]); (split; [exact Hcur|]);
      (split; [intros p ? ?; by apply Hagree'|]);
      (split; [done|]); rewrite <- ?Hlb'; done.
Qed.

Lemma memcpy_spec (h : list cell) d s ls ld (size : Z) :
  block h s = Some ls → block h d = Some ld →
  (0 <= size)%Z → (size * sizeof_double < SIZE_MODULUS)%Z →
  Z.to_nat size ≤ length ls → Z.to_nat size ≤ length ld →
  memcpy (Some d) (Some s) (size_mul size sizeof_double) h
  = Some (set_block h d (take (Z.to_nat size) ls ++ drop (Z.to_nat size) ld)).
Proof.
  intros Hs Hd H0 Hfit Hls Hld. unfold memcpy.
  assert (size_mul size sizeof_double / sizeof_double = size)%Z as ->.
  { unfold size_mul, size_wrap, sizeof_double in *.
    rewrite Z.mod_small by lia. by apply Z.div_mul. }
  case_decide as Hn.
  - rewrite Hn, take_0, drop_0, app_nil_l. by rewrite set_block_same.
  - cbn [mbind option_bind]. rewrite Hs, Hd. cbn [mbind option_bind].
    by rewrite decide_True.
Qed.

(** The network can run its forward pass on heap [h]: the layer array
    holds [layer_count] entries, the two scratch buffers are distinct
    live blocks, the byte counts of the two copies fit in a [size_t], the
    layers can run between the scratch buffers, the last of them yields
    at least [output_size] values, and the output buffer and the gradient
    buffer (when there is one) hold [output_size] doubles. *)
Definition network_ready (net : agi_neural_network_t) (h : list cell) : Prop :=
  ∃ a b A B,
    input_buffer net = Some a ∧ output_buffer net = Some b ∧ a ≠ b ∧
    block h a = Some A ∧ block h b = Some B ∧
    length (layers net) = Z.to_nat (layer_count net) ∧
    (0 <= input_size (config net))%Z ∧
    (input_size (config net) * sizeof_double < SIZE_MODULUS)%Z ∧
    (0 <= output_size (config net))%Z ∧
    (output_size (config net) * sizeof_double < SIZE_MODULUS)%Z ∧
    Z.to_nat (input_size (config net)) ≤ length A ∧
    layers_ready h a b (layers net) (Z.to_nat (input_size (config net)))
      (length A) (length B) ∧
    Z.to_nat (output_size (config net))
    ≤ final_width (layers net) (Z.to_nat (input_size (config net))) ∧
    Z.to_nat (output_size (config net)) ≤ length B ∧
    (gradient_buffer net = None ∨
     ∃ g G, gradient_buffer net = Some g ∧ block h g = Some G ∧
            Z.to_nat (output_size (config net)) ≤ length G).

(** The values the forward pass yields for the input [x]. *)
Definition forward_values (net : agi_neural_network_t) (h : list cell)
    (x : list float) : list float :=
  take (Z.to_nat (output_size (config net)))
    (network_values h (layers net)
       (take (Z.to_nat (input_size (config net))) x)).

(** The forward pass on a ready network: it succeeds, the caller's
    output buffer receives [forward_values], and apart from that buffer
    and the two scratch buffers the heap is as before. *)
Lemma agi_forward_pass_spec net (h : list cell) pin po X O batch_size :
  network_ready net h →
  block h pin = Some X → Z.to_nat (input_size (config net)) ≤ length X →
  block h po = Some O → Z.to_nat (output_size (config net)) ≤ length O →
  ∃ (h' : list cell) r,
    agi_forward_pass (Some net) (Some pin) (Some po) batch_size h
    = Some (AGI_SUCCESS, h') ∧
    block h' po = Some (forward_values net h X ++ r) ∧
    length h' = length h ∧
    (∀ p, input_buffer net ≠ Some p → output_buffer net ≠ Some p → p ≠ po →
          h' !! p = h !! p) ∧
    (∀ p l, block h p = Some l →
            ∃ l', block h' p = Some l' ∧ length l' = length l).
Proof.
  intros (a & b & A & B & Ha & Hb & Hab & HA & HB & Hcount & Hi0 & Hifit &
          Ho0 & Hofit & HlA & Hready & Hfinal & _ & _) HX HlX HO HlO.
  unfold agi_forward_pass, forward_values. cbn [is_null orb]. rewrite Ha, Hb.
  set (n_in := Z.to_nat (input_size (config net))) in *.
  set (n_out := Z.to_nat (output_size (config net))) in *.
  rewrite (memcpy_spec h a pin X A) by done. cbn [mbind option_bind].
  fold n_in.
  set (v := take n_in X).
  assert (length v = n_in) as Hv by (unfold v; rewrite length_take; lia).
  pose proof (block_lt _ _ _ HA) as Halt.
  set (h1 := set_block h a (v ++ drop n_in A)).
  assert (length (v ++ drop n_in A) = length A) as HlA1
    by (rewrite length_app, length_drop; lia).
  destruct (layers_loop_spec h (layers net) [] a b v (drop n_in A) B h1)
    as (h2 & r0 & A' & B' & Hrun & Hcur & Hagree & Hlen2 & HA' & HlA' & HB' & HlB');
    try done.
  { by apply block_set_block_eq. }
  { unfold h1. by rewrite block_set_block_ne. }
  { intros p Hpa Hpb. unfold h1, set_block. by rewrite list_lookup_insert_ne. }
  { unfold h1. by rewrite length_set_block. }
  { by rewrite Hv, HlA1. }
  cbn [app length] in Hrun. rewrite <- Hcount, Hrun. cbn [mbind option_bind fst snd].
  set (cur := if Nat.even (length (layers net)) then a else b) in *.
  set (V := network_values h (layers net) v) in *.
  assert (length V = final_width (layers net) n_in) as HlV.
  { unfold V. eapply length_network_values; [exact Hready | exact Hv]. }
  assert (∃ O2, block h2 po = Some O2 ∧ length O2 = length O) as (O2 & HO2 & HlO2).
  { destruct (decide (po = a)) as [->|Hpoa].
    - exists A'. split; [done|]. rewrite HlA', HlA1. congruence.
    - destruct (decide (po = b)) as [->|Hpob].
      + exists B'. split; [done|]. congruence.
      + exists O. split; [|done].
        rewrite (block_agree h h2) by (by apply Hagree). done. }
  rewrite (memcpy_spec h2 po cur (V ++ r0) O2); try done.
  2: { rewrite length_app. fold n_out. lia. }
  2: { fold n_out. lia. }
  fold n_out. rewrite take_app_le by lia.
  pose proof (block_lt _ _ _ HO2) as Hpolt.
  exists (set_block h2 po (take n_out V ++ drop n_out O2)), (drop n_out O2).
  split; [done|]. split; [by apply block_set_block_eq|].
  split; [by rewrite length_set_block|].
  split.
  - intros p Hpa Hpb Hpo. unfold set_block.
    rewrite list_lookup_insert_ne by done. apply Hagree; congruence.
  - intros p l Hl. destruct (decide (p = po)) as [->|Hpo].
    + eexists. split; [by apply block_set_block_eq|].
      rewrite length_app, length_take, length_drop.
      assert (l = O) as -> by congruence. lia.
    + rewrite block_set_block_ne by done.
      destruct (decide (p = a)) as [->|Hpa].
      * exists A'. split; [done|]. rewrite HlA', HlA1. congruence.
      * destruct (decide (p = b)) as [->|Hpb].
        -- exists B'. split; [done|]. congruence.
        -- exists l. split; [|done].
           rewrite (block_agree h h2) by (by apply Hagree). done.
Qed.

(** A block that is no weight or bias buffer of the layers. *)
Definition apart_from_parameters (ls : list agi_neural_layer_t) (p : nat) : Prop :=
  Forall (λ l, weights l ≠ Some p ∧ biases l ≠ Some p) ls.

Lemma layers_ready_agree (h h' : list cell) po : ∀ ls a b width len_a len_b,
  (∀ p, p ≠ a → p ≠ b → p ≠ po → h' !! p = h !! p) →
  apart_from_parameters ls po →
  layers_ready h a b ls width len_a len_b →
  layers_ready h' a b ls width len_a len_b.
Proof.
  induction ls as [|l ls IH]; intros a b width len_a len_b Hagree Hapart Hready;
    [done|].
  apply Forall_cons in Hapart as [[Hwpo Hbpo] Hapart].
  destruct Hready as (Hl & Hin & Hout & Hrest).
  split; [|split; [done|split; [done|]]].
  - destruct Hl as (pw & pb & W & B & Hw & Hb & HW & HB & ? & ? & ? & ? & Hrest').
    exists pw, pb, W, B.
    rewrite !(block_agree h h') by (apply Hagree; congruence). done.
  - apply IH; [|done..]. intros p ? ? ?. by apply Hagree.
Qed.

Lemma network_values_agree (h h' : list cell) po : ∀ ls a b width len_a len_b x,
  (∀ p, p ≠ a → p ≠ b → p ≠ po → h' !! p = h !! p) →
  apart_from_parameters ls po →
  layers_ready h a b ls width len_a len_b →
  network_values h' ls x = network_values h ls x.
Proof.
  induction ls as [|l ls IH]; intros a b width len_a len_b x Hagree Hapart Hready;
    [done|].
  apply Forall_cons in Hapart as [[Hwpo Hbpo] Hapart].
  destruct Hready as (Hl & Hin & Hout & Hrest).
  cbn [network_values foldl].
  assert (layer_values h' l x = layer_values h l x) as ->.
  { destruct Hl as (pw & pb & W & B & Hw & Hb & HW & HB & ? & ? & ? & ? & Hrest').
    unfold layer_values. rewrite Hw, Hb.
    by rewrite !(block_agree h h') by (apply Hagree; congruence). }
  apply (IH b a (Z.to_nat (layer_output_size l)) len_b len_a); [|done..].
  intros p ? ? ?. by apply Hagree.
Qed.

Lemma residual_loop_elementwise (input target gradients : option nat) n :
  ∀ i (g : list cell),
    residual_loop input target gradients i n g
    = elementwise_loop PrimFloat.sub target input gradients i n g.
Proof.
  induction n as [|n IH]; intros i g; cbn [residual_loop elementwise_loop];
    [done|].
  destruct (load g target i) as [t|]; cbn [mbind option_bind]; [|done].
  destruct (load g input i) as [x|]; cbn [mbind option_bind]; [|done].
  destruct (store g gradients i (t - x)%float) as [g'|];
    cbn [mbind option_bind]; [|done].
  apply IH.
Qed.

(** The loss of a finite vector against itself is +0. *)
Lemma loss_loop_same (h : list cell) pt po (T Ob : list float) n : ∀ i,
  block h pt = Some T → block h po = Some Ob →
  i + n ≤ length T → i + n ≤ length Ob →
  (∀ k, i ≤ k < i + n →
        T !! k = Ob !! k ∧ finite_double (nth k T 0%float) = true) →
  loss_loop (Some pt) (Some po) i n 0%float h = Some 0%float.
Proof.
  intros i HT HO. revert i.
  induction n as [|n IH]; intros i HlT HlO Hsame; cbn [loss_loop]; [done|].
  destruct (Hsame i) as [Heq Hfin]; [lia|].
  rewrite (load_block _ _ _ _ HT), (load_block _ _ _ _ HO), <- Heq.
  rewrite lookup_nth by lia. cbn [mbind option_bind].
  rewrite (sub_diag_finite _ Hfin).
  change (0 + 0 * 0)%float with 0%float.
  apply IH; [lia..|]. intros k Hk. apply Hsame. lia.
Qed.

Lemma double_of_size_positive (n : Z) :
  (0 < n)%Z → (n * sizeof_double < SIZE_MODULUS)%Z →
  positive_class (Prim2SF (double_of_Z n)).
Proof.
  intros Hpos Hfit. rewrite double_of_Z_spec.
  - by apply binary_normalize_positive.
  - unfold sizeof_double, SIZE_MODULUS in Hfit. lia.
Qed.

Lemma length_forward_values net (h : list cell) X :
  network_ready net h → Z.to_nat (input_size (config net)) ≤ length X →
  length (forward_values net h X) = Z.to_nat (output_size (config net)).
Proof.
  intros (a & b & A & B & _ & _ & _ & _ & _ & _ & _ & _ & _ & _ & _ & Hready &
          Hfinal & _) HlX.
  unfold forward_values. rewrite length_take.
  erewrite length_network_values; [|exact Hready|]; [lia|].
  rewrite length_take. lia.
Qed.

Lemma network_ready_after net (h h1 : list cell) pout :
  network_ready net h →
  input_buffer net ≠ Some pout → output_buffer net ≠ Some pout →
  apart_from_parameters (layers net) pout →
  (∀ p, input_buffer net ≠ Some p → output_buffer net ≠ Some p → p ≠ pout →
        h1 !! p = h !! p) →
  (∀ p l, block h p = Some l →
          ∃ l', block h1 p = Some l' ∧ length l' = length l) →
  network_ready net h1 ∧
  ∀ x, forward_values net h1 x = forward_values net h x.
Proof.
  intros (a & b & A & B & Ha & Hb & Hab & HA & HB & Hcount & Hi0 & Hifit &
          Ho0 & Hofit & HlA & Hready & Hfinal & HlB & Hgrad)
         Hpa Hpb Hapart Hframe Hlens.
  destruct (Hlens a A HA) as (A1 & HA1 & HlA1).
  destruct (Hlens b B HB) as (B1 & HB1 & HlB1).
  assert (∀ p, p ≠ a → p ≠ b → p ≠ pout → h1 !! p = h !! p) as Hagree.
  { intros p ? ? ?. apply Hframe; congruence. }
  split.
  - exists a, b, A1, B1. rewrite HlA1, HlB1.
    repeat (split; [done|]).
    split; [by apply (layers_ready_agree h h1 pout)|].
    split; [done|]. split; [done|].
    destruct Hgrad as [Hnone | (g & G & Hg & HG & HlG)]; [by left|right].
    destruct (Hlens g G HG) as (G1 & HG1 & HlG1).
    exists g, G1. rewrite HlG1. done.
  - intros x. unfold forward_values. f_equal.
    by apply (network_values_agree h h1 pout _ a b
                (Z.to_nat (input_size (config net))) (length A) (length B)).
Qed.

(** C9, as the code has it.  Let the network be ready to run, with an
    output width that is not zero, and let the caller's input and output
    buffers be blocks of their own.  The forward pass succeeds and writes
    its output to the caller's buffer; if every component of that output
    is finite, [agi_train_batch] on the same input with that buffer as the
    target returns exactly [0.0]. *)
Theorem train_batch_on_forward_output :
  ∀ (net : agi_neural_network_t) (h : list cell) (pin pout : nat)
    (X O : list float) (b1 b2 : Z),
    network_ready net h →
    block h pin = Some X → Z.to_nat (input_size (config net)) ≤ length X →
    block h pout = Some O → Z.to_nat (output_size (config net)) ≤ length O →
    input_buffer net ≠ Some pin → output_buffer net ≠ Some pin →
    input_buffer net ≠ Some pout → output_buffer net ≠ Some pout →
    pin ≠ pout →
    apart_from_parameters (layers net) pout →
    (0 < output_size (config net))%Z →
    ∃ (h1 : list cell) r,
      agi_forward_pass (Some net) (Some pin) (Some pout) b1 h
      = Some (AGI_SUCCESS, h1) ∧
      block h1 pout = Some (forward_values net h X ++ r) ∧
      (Forall (λ v, finite_double v = true) (forward_values net h X) →
       ∃ h2, agi_train_batch (Some net) (Some pin) (Some pout) b2 h1
             = Some (0%float, h2)).
Proof.
  intros net h pin pout X O b1 b2 Hready HX HlX HO HlO
         Hina Hinb Houta Houtb Hio Hapart Hpos.
  destruct (agi_forward_pass_spec net h pin pout X O b1 Hready HX HlX HO HlO)
    as (h1 & r & Hfp & Hout & Hlen1 & Hframe1 & Hlens1).
  exists h1, r. split; [exact Hfp|]. split; [exact Hout|]. intros Hfin.
  destruct (network_ready_after net h h1 pout Hready Houta Houtb Hapart
              Hframe1 Hlens1) as [Hready1 Hvalues].
  pose proof (length_forward_values net h X Hready HlX) as HlFV.
  set (FV := forward_values net h X) in *.
  set (n_out := Z.to_nat (output_size (config net))) in *.
  pose proof Hready1 as (a & b & A1 & B1 & Ha & Hb & Hab & HA1 & HB1 & _ & _ & _ &
                         _ & Hofit & _ & _ & _ & HlB1 & Hgrad).
  assert (block h1 pin = Some X) as HX1.
  { rewrite (block_agree h h1); [done|]. by apply Hframe1. }
  destruct (agi_forward_pass_spec net h1 pin b X B1 b2 Hready1 HX1 HlX HB1 HlB1)
    as (h2 & r2 & Hfp2 & Hout2 & Hlen2 & Hframe2 & Hlens2).
  rewrite Hvalues in Hout2. fold FV in Hout2.
  assert (block h2 pout = Some (FV ++ r)) as Hout1.
  { rewrite (block_agree h1 h2); [done|]. apply Hframe2; congruence. }
  unfold agi_train_batch. cbn [is_null orb]. rewrite Hb, Hfp2.
  cbn [mbind option_bind fst snd]. fold n_out.
  rewrite (loss_loop_same h2 pout b (FV ++ r) (FV ++ r2) n_out 0 Hout1 Hout2).
  2,3: rewrite length_app; lia.
  2: { intros k Hk. rewrite !lookup_app_l by lia. split; [done|].
       rewrite app_nth1 by lia.
       rewrite Forall_forall in Hfin. apply Hfin.
       apply list_elem_of_lookup. exists k. apply lookup_nth. lia. }
  cbn [mbind option_bind].
  rewrite zero_div_positive by (by apply double_of_size_positive).
  unfold agi_backward_pass.
  destruct Hgrad as [-> | (g & G1 & -> & HG1 & HlG1)]; cbn [is_null orb].
  { eexists. reflexivity. }
  destruct (Hlens2 g G1 HG1) as (G2 & HG2 & HlG2).
  rewrite residual_loop_elementwise. fold n_out.
  rewrite (elementwise_loop_correct _ pout b g h2 (FV ++ r) (FV ++ r2) G2 n_out
             Hout1 Hout2 HG2).
  2,3: rewrite length_app; lia.
  2: lia.
  cbn [mbind option_bind fst snd]. eexists. reflexivity.
Qed.

(** ** Constructed networks are ready to run *)

(** The widths of the layers suit the scratch buffers of [len_a] and
    [len_b] doubles between which they alternate: every width is a
    non-negative [size_t], every weight matrix has fewer than 2^64
    entries, and every layer writes no more than its output buffer holds. *)
Fixpoint widths_fit (ls : list agi_neural_layer_t) (len_a len_b : nat) : Prop :=
  match ls with
  | [] => True
  | l :: ls' =>
      (0 <= layer_input_size l)%Z ∧ (0 <= layer_output_size l)%Z ∧
      (layer_output_size l * layer_input_size l < SIZE_MODULUS)%Z ∧
      Z.to_nat (layer_output_size l) ≤ len_b ∧
      widths_fit ls' len_b len_a
  end.

Lemma layer_cells_ready : ∀ ls base cells (pre post : list cell) cur a b len_a len_b,
  layer_cells base ls cells → chained cur ls → widths_fit ls len_a len_b →
  length pre = base → base + length cells ≤ a → base + length cells ≤ b →
  layers_ready (pre ++ cells ++ post) a b ls (Z.to_nat cur) len_a len_b.
Proof.
  induction ls as [|l ls IH];
    intros base cells pre post cur a b len_a len_b Hcells Hchain Hfit Hpre Ha Hb;
    [done|].
  destruct cells as [|[W| |] [|[B| |] cells]]; try done.
  destruct Hcells as (Hw & Hbi & HlW & HB & _ & Hcells).
  destruct Hchain as [Hin Hchain].
  destruct Hfit as (Hi0 & Ho0 & Hprod & Hout & Hfit).
  cbn [length] in Ha, Hb.
  split; [|split; [by rewrite Hin|split; [done|]]].
  - exists base, (S base), W, B.
    split; [done|]. split; [done|].
    split. { apply block_Some. rewrite lookup_app_r by lia.
             rewrite Hpre, Nat.sub_diag. reflexivity. }
    split. { apply block_Some. rewrite lookup_app_r by lia.
             replace (S base - length pre) with 1 by lia. reflexivity. }
    repeat (split; [lia|]).
    split; [|by rewrite HB, length_replicate].
    rewrite HlW. unfold size_mul, size_wrap. rewrite Z.mod_small by lia.
    rewrite Z2Nat.inj_mul by done. lia.
  - assert (pre ++ (Doubles W :: Doubles B :: cells) ++ post
            = (pre ++ [Doubles W; Doubles B]) ++ cells ++ post) as ->
      by (by rewrite <- app_assoc).
    apply (IH (S (S base)) cells (pre ++ [Doubles W; Doubles B]) post
             (layer_output_size l) b a len_b len_a Hcells Hchain Hfit);
      [rewrite length_app; cbn [length]; lia | lia | lia].
Qed.

(** A network that construction returned with its input and output
    scratch buffers allocated is ready to run on any heap that extends
    the one construction left, provided its widths suit the two scratch
    buffers and its last layer yields [output_size] values. *)
Lemma create_network_ready cfg w net w' (extra : list cell) :
  agi_create_neural_network (Some cfg) w = Some (Some net, w') →
  input_buffer net ≠ None → output_buffer net ≠ None →
  (0 <= input_size cfg)%Z → (0 <= output_size cfg)%Z →
  widths_fit (layers net) (Z.to_nat (input_size cfg)) (Z.to_nat (output_size cfg)) →
  Z.to_nat (output_size cfg)
  ≤ final_width (layers net) (Z.to_nat (input_size cfg)) →
  network_ready net (heap_of w' ++ extra).
Proof.
  intros Hrun Hib Hob Hi0 Ho0 Hfit Hfinal.
  apply create_spec in Hrun
    as (cells & ci & co & cg & Hh & _ & _ & Hcfg & _ & Hcount & Hcells & Hchain &
        Hi & Ho & Hg & _).
  set (base := S (S (length (heap_of w)))) in *.
  set (pre := heap_of w ++ [Raw sizeof_agi_neural_network_t;
                Raw (size_mul (layer_count net) sizeof_agi_neural_layer_t)]).
  assert (length pre = base) as Hpre
    by (unfold pre, base; rewrite length_app; cbn; lia).
  destruct Hi as [[Hnull _] | (Ha & -> & Hifit)]; [done|].
  destruct Ho as [[Hnull _] | (Hb & -> & Hofit)]; [done|].
  cbn [length] in Hb, Hg.
  set (a := base + length cells) in *.
  set (A := replicate (Z.to_nat (input_size cfg)) 0%float) in *.
  set (B := replicate (Z.to_nat (output_size cfg)) 0%float) in *.
  assert (heap_of w' ++ extra
          = pre ++ cells ++ ([Doubles A; Doubles B] ++ cg ++ extra)) as Hheap.
  { rewrite Hh. unfold pre. by rewrite <- !app_assoc. }
  assert (heap_of w' ++ extra
          = (pre ++ cells) ++ [Doubles A] ++ [Doubles B] ++ cg ++ extra)
    as Hheap'.
  { rewrite Hheap. by rewrite <- !app_assoc. }
  assert (length (pre ++ cells) = a) as Hla
    by (rewrite length_app; unfold a; lia).
  exists a, (a + 1), A, B. rewrite Hcfg.
  split; [done|]. split; [done|]. split; [lia|].
  split. { apply block_Some. rewrite Hheap', lookup_app_r by lia.
           by rewrite Hla, Nat.sub_diag. }
  split. { apply block_Some. rewrite Hheap', lookup_app_r by lia.
           by replace (a + 1 - length (pre ++ cells)) with 1 by lia. }
  split; [done|]. split; [done|]. split; [done|]. split; [done|].
  split; [done|].
  unfold A at 1 2, B at 1 2. rewrite !length_replicate.
  split; [done|].
  split. { rewrite Hheap. apply (layer_cells_ready _ base); try done; lia. }
  split; [done|]. split; [done|].
  destruct Hg as [[-> _] | (-> & -> & _)]; [by left|right].
  eexists _, _. split; [done|]. split.
  - apply block_Some. rewrite Hheap', lookup_app_r by lia.
    by replace (a + 1 + 1 - length (pre ++ cells)) with 2 by lia.
  - by rewrite length_replicate.
Qed.

(** ** Training on the forward output: instances *)

(** {input = 2, one declared hidden layer of 2 followed in its array by
    another 2, output = 2}: three layers of shape (2 → 2). *)
Definition config_2_2_2 : agi_neural_config_t :=
  {| input_size := 2; hidden_layers_count := 1;
     hidden_layer_sizes := Some [2%Z; 2%Z]; output_size := 2;
     learning_rate := 0x1.47ae147ae147bp-7%float; momentum := 0%float;
     use_batch_normalization := false; use_dropout := false;
     dropout_rate := 0%float |}.

(** A fresh process in which [rand] yields [draws] in turn. *)
Definition world_drawing (draws : list Z) : world :=
  {| heap_of := []; g_memory_stats := zero_stats;
     alloc_script := []; rand_script := draws |}.

Definition modest_draws : list Z :=
  [1804289383; 846930886; 1681692777; 1714636915; 1957747793; 424238335;
   719885386; 1649760492; 596516649; 1189641421; 1025202362; 1350490027]%Z.

Definition high_draws : list Z := replicate 12 2000000000%Z.

(** The caller's input vector and a zeroed output vector of two doubles. *)
Definition caller_buffers (x0 x1 : float) : list cell :=
  [Doubles [x0; x1]; Doubles [0%float; 0%float]].

Abbreviation built_2_2_2 draws :=
  (agi_create_neural_network (Some config_2_2_2) (world_drawing draws)).

(** The network built from the draws above, run on the input (1, 2):
    its forward output is finite, and training on that output returns a
    loss of exactly 0.0. *)
Lemma train_batch_on_forward_output_witness :
  ∃ net w',
    built_2_2_2 modest_draws = Some (Some net, w') ∧
    ∃ h1,
      agi_forward_pass (Some net) (Some 11) (Some 12) 1
        (heap_of w' ++ caller_buffers 1 2) = Some (AGI_SUCCESS, h1) ∧
      ∃ h2,
        agi_train_batch (Some net) (Some 11) (Some 12) 1 h1 = Some (0%float, h2).
Proof.
  eexists _, _.
  match goal with
  | |- ?A ∧ _ => assert A as Hbuilt by (vm_compute; reflexivity)
  end.
  split; [exact Hbuilt|].
  match type of Hbuilt with
  | _ = Some (Some ?net, ?w') =>
      assert (network_ready net (heap_of w' ++ caller_buffers 1 2)) as Hready;
      [apply (create_network_ready _ _ _ _ _ Hbuilt);
       [discriminate | discriminate | cbn; lia | cbn; lia
       | cbn; unfold SIZE_MODULUS; lia | cbn; lia]
      |destruct (train_batch_on_forward_output net
                   (heap_of w' ++ caller_buffers 1 2) 11 12
                   [1%float; 2%float] [0%float; 0%float] 1 1 Hready)
         as (h1 & r & Hforward & _ & Htrain)]
  end.
  - reflexivity.
  - cbn. lia.
  - reflexivity.
  - cbn. lia.
  - discriminate.
  - discriminate.
  - discriminate.
  - discriminate.
  - lia.
  - repeat constructor; discriminate.
  - cbn. lia.
  - exists h1. split; [exact Hforward|].
    apply Htrain.
    match goal with
    | |- Forall _ ?l =>
        let v := eval vm_compute in l in
        replace l with v by (vm_compute; reflexivity)
    end.
    repeat (constructor; [vm_compute; reflexivity|]). constructor.
Defined.

(** C9 as stated fails.  With every weight at about 0.61 and the finite
    input (1.7e308, 1.7e308) the first layer overflows: the forward output
    is (+inf, +inf), the difference from the equal target is
    [inf - inf = NaN], and the loss returned is NaN. *)
Lemma train_batch_overflow_loss_is_nan :
  ∃ net w' h1 h2,
    built_2_2_2 high_draws = Some (Some net, w') ∧
    finite_double 0x1.e42d130773b76p+1023 = true ∧
    agi_forward_pass (Some net) (Some 11) (Some 12) 1
      (heap_of w'
       ++ caller_buffers 0x1.e42d130773b76p+1023 0x1.e42d130773b76p+1023)
    = Some (AGI_SUCCESS, h1) ∧
    block h1 12 = Some [infinity; infinity] ∧
    agi_train_batch (Some net) (Some 11) (Some 12) 1 h1 = Some (nan, h2) ∧
    nan ≠ 0%float.
Proof.
  eexists _, _, _, _.
  split; [vm_compute; reflexivity|].
  split; [reflexivity|].
  split; [vm_compute; reflexivity|].
  split; [reflexivity|].
  split; [vm_compute; reflexivity|].
  intros Hnan. apply (f_equal Prim2SF) in Hnan. vm_compute in Hnan.
  discriminate Hnan.
Qed.

(* ================================================================== *)
(** * Further properties of the kernels                                *)
(* ================================================================== *)

(** ** Binary64 addition and multiplication commute *)

Lemma SFmul_comm (x y : spec_float) : SFmul prec emax x y = SFmul prec emax y x.
Proof.
  destruct x as [sx|sx| |sx mx ex], y as [sy|sy| |sy my ey]; cbn [SFmul];
    rewrite ?(xorb_comm sx sy); try reflexivity.
  by rewrite Pos.mul_comm, Z.add_comm.
Qed.

Lemma SFadd_comm (x y : spec_float) : SFadd prec emax x y = SFadd prec emax y x.
Proof.
  destruct x as [[]|[]| |sx mx ex], y as [[]|[]| |sy my ey]; cbn [SFadd];
    try reflexivity.
  by rewrite Z.min_comm, Z.add_comm.
Qed.

Lemma float_mul_comm (x y : float) : (x * y = y * x)%float.
Proof.
  apply Prim2SF_inj. rewrite !FloatAxioms.mul_spec. apply SFmul_comm.
Qed.

Lemma float_add_comm (x y : float) : (x + y = y + x)%float.
Proof.
  apply Prim2SF_inj. rewrite !FloatAxioms.add_spec. apply SFadd_comm.
Qed.

(** ** The dot product *)

(** What [sum += a[i] * b[i]] accumulates over two vectors, left to right
    from [acc]. *)
Definition dot_sum (la lb : list float) (acc : float) : float :=
  fold_left (λ s p, (s + p.1 * p.2)%float) (zip la lb) acc.

Lemma dot_product_loop_spec pa pb (h : list cell) la lb n : ∀ i acc,
  block h pa = Some la → block h pb = Some lb →
  i + n ≤ length la → i + n ≤ length lb →
  dot_product_loop (Some pa) (Some pb) i n acc h
  = Some (dot_sum (take n (drop i la)) (take n (drop i lb)) acc).
Proof.
  induction n as [|n IH]; intros i acc Ha Hb Hla Hlb; [done|].
  cbn [dot_product_loop].
  rewrite (load_block h pa la), (load_block h pb lb) by done.
  destruct (lookup_lt_is_Some_2 la i) as [x Hx]; [lia|].
  destruct (lookup_lt_is_Some_2 lb i) as [y Hy]; [lia|].
  rewrite Hx, Hy. cbn [mbind option_bind].
  rewrite IH by (done || lia).
  rewrite (drop_S la x i), (drop_S lb y i) by done.
  reflexivity.
Qed.

Lemma dot_product_loop_swap a b n (h : list cell) : ∀ i acc,
  dot_product_loop a b i n acc h = dot_product_loop b a i n acc h.
Proof.
  induction n as [|n IH]; intros i acc; [done|].
  cbn [dot_product_loop].
  destruct (load h a i) as [x|], (load h b i) as [y|]; cbn [mbind option_bind];
    try reflexivity.
  by rewrite (float_mul_comm x y), IH.
Qed.

(** X1.  On two arrays that hold at least [size] doubles,
    [agi_vector_dot_product_simd] returns the products [a[i] * b[i]] of
    the first [size] elements, summed left to right from [0.0]. *)
Theorem dot_product_is_left_fold :
  ∀ (pa pb : nat) (size : Z) (h : list cell) (la lb : list float),
    block h pa = Some la → block h pb = Some lb →
    Z.to_nat size ≤ length la → Z.to_nat size ≤ length lb →
    agi_vector_dot_product_simd (Some pa) (Some pb) size h
    = Some (dot_sum (take (Z.to_nat size) la) (take (Z.to_nat size) lb) 0%float).
Proof.
  intros pa pb size h la lb Ha Hb Hla Hlb.
  unfold agi_vector_dot_product_simd. cbn [is_null orb].
  rewrite (dot_product_loop_spec pa pb h la lb) by (done || lia).
  by rewrite !drop_0.
Qed.

Definition dot_sample_heap : list cell :=
  [Doubles [1; 2; 3; 100]%float; Doubles [4; 5; 6]%float].

Lemma dot_product_is_left_fold_witness :
  agi_vector_dot_product_simd (Some 0) (Some 1) 3 dot_sample_heap
  = Some 32%float.
Proof.
  rewrite (dot_product_is_left_fold 0 1 3 dot_sample_heap
             [1; 2; 3; 100]%float [4; 5; 6]%float).
  - reflexivity.
  - reflexivity.
  - reflexivity.
  - simpl. lia.
  - simpl. lia.
Defined.

(** X2.  The dot product does not depend on the order of its two
    arguments, whatever they are: binary64 multiplication commutes, the
    null check is symmetric, and the two loads of an iteration fail
    together. *)
Theorem dot_product_symmetric :
  ∀ (a b : option nat) (size : Z) (h : list cell),
    agi_vector_dot_product_simd a b size h
    = agi_vector_dot_product_simd b a size h.
Proof.
  intros a b size h. unfold agi_vector_dot_product_simd.
  rewrite (orb_comm (is_null a)).
  destruct (is_null b || is_null a); [done|].
  apply dot_product_loop_swap.
Qed.

(** ** The element-wise kernels *)

Lemma elementwise_loop_swap op a b r n :
  (∀ x y, op x y = op y x) →
  ∀ i (h : list cell),
    elementwise_loop op a b r i n h = elementwise_loop op b a r i n h.
Proof.
  intros Hop. induction n as [|n IH]; intros i h; [done|].
  cbn [elementwise_loop].
  destruct (load h a i) as [x|], (load h b i) as [y|]; cbn [mbind option_bind];
    try reflexivity.
  rewrite (Hop x y).
  destruct (store h r i (op y x)) as [h'|]; cbn [mbind option_bind]; [|done].
  apply IH.
Qed.

(** X3.  [agi_matrix_add] and [agi_matrix_element_multiply] do not depend
    on the order of their two inputs: status and resulting heap are the
    same for [(a, b)] and [(b, a)], aliased or not, defined or not. *)
Theorem add_and_multiply_symmetric :
  ∀ (a b result : option nat) (size : Z) (h : list cell),
    agi_matrix_add a b result size h = agi_matrix_add b a result size h ∧
    agi_matrix_element_multiply a b result size h
    = agi_matrix_element_multiply b a result size h.
Proof.
  intros a b result size h.
  unfold agi_matrix_add, agi_matrix_element_multiply.
  rewrite (orb_comm (is_null a)).
  destruct (is_null b || is_null a || is_null result); [done|].
  by rewrite (elementwise_loop_swap PrimFloat.add a b) by apply float_add_comm;
     rewrite (elementwise_loop_swap PrimFloat.mul a b) by apply float_mul_comm.
Qed.

(* ================================================================== *)
(** * Further properties of the activation library                     *)
(* ================================================================== *)

(** The activation loop on two live buffers, softmax apart. *)
Lemma agi_apply_activation_pointwise m tag size (h : list cell) pi po li lo :
  tag ≠ AGI_ACTIVATION_SOFTMAX →
  block h pi = Some li → block h po = Some lo →
  Z.to_nat size ≤ length li → Z.to_nat size ≤ length lo →
  agi_apply_activation m (Some pi) (Some po) size tag h
  = Some (AGI_SUCCESS,
          set_block h po ((activation_value m tag <$> take (Z.to_nat size) li)
                          ++ drop (Z.to_nat size) lo)).
Proof.
  intros Ht Hi Ho Hli Hlo.
  unfold agi_apply_activation. cbn [is_null orb].
  rewrite (pointwise_loop_correct _ pi po h li lo) by done.
  cbn [mbind option_bind].
  apply Z.eqb_neq in Ht. by rewrite Ht.
Qed.

(** The derivative loop on two live buffers. *)
Lemma agi_apply_activation_derivative_pointwise m tag size (h : list cell)
    pi po li lo :
  block h pi = Some li → block h po = Some lo →
  Z.to_nat size ≤ length li → Z.to_nat size ≤ length lo →
  agi_apply_activation_derivative m (Some pi) (Some po) size tag h
  = Some (AGI_SUCCESS,
          set_block h po
            ((activation_derivative_value m tag <$> take (Z.to_nat size) li)
             ++ drop (Z.to_nat size) lo)).
Proof.
  intros Hi Ho Hli Hlo.
  unfold agi_apply_activation_derivative. cbn [is_null orb].
  by rewrite (pointwise_loop_correct _ pi po h li lo) by done.
Qed.

(** X4.  For every tag but softmax, [agi_apply_activation] is
    element-wise: element [i < size] of the output is the [switch] applied
    to element [i] of the input, and the output past [size] is untouched;
    [agi_apply_activation_derivative] is element-wise for every tag.  The
    two buffers may be the same block. *)
Theorem activation_is_elementwise :
  ∀ (m : libm) (tag size : Z) (h : list cell) (pi po : nat)
    (li lo : list float),
    tag ≠ AGI_ACTIVATION_SOFTMAX →
    block h pi = Some li → block h po = Some lo →
    Z.to_nat size ≤ length li → Z.to_nat size ≤ length lo →
    agi_apply_activation m (Some pi) (Some po) size tag h
    = Some (AGI_SUCCESS,
            set_block h po ((activation_value m tag <$> take (Z.to_nat size) li)
                            ++ drop (Z.to_nat size) lo))
    ∧
    agi_apply_activation_derivative m (Some pi) (Some po) size tag h
    = Some (AGI_SUCCESS,
            set_block h po
              ((activation_derivative_value m tag <$> take (Z.to_nat size) li)
               ++ drop (Z.to_nat size) lo)).
Proof.
  intros m tag size h pi po li lo Ht Hi Ho Hli Hlo. split.
  - by apply agi_apply_activation_pointwise.
  - by apply agi_apply_activation_derivative_pointwise.
Qed.

Definition leaky_sample_heap : list cell := [Doubles [2; -3; 5]%float].

Lemma activation_is_elementwise_witness :
  agi_apply_activation sample_libm (Some 0) (Some 0) 2
    AGI_ACTIVATION_LEAKY_RELU leaky_sample_heap
  = Some (AGI_SUCCESS, [Doubles [2; -0x1.eb851eb851eb8p-6; 5]%float]) ∧
  agi_apply_activation_derivative sample_libm (Some 0) (Some 0) 2
    AGI_ACTIVATION_LEAKY_RELU leaky_sample_heap
  = Some (AGI_SUCCESS, [Doubles [1; 0x1.47ae147ae147bp-7; 5]%float]).
Proof.
  apply (activation_is_elementwise sample_libm AGI_ACTIVATION_LEAKY_RELU 2
           leaky_sample_heap 0 0 [2; -3; 5]%float [2; -3; 5]%float).
  - discriminate.
  - reflexivity.
  - reflexivity.
  - simpl. lia.
  - simpl. lia.
Defined.

(** X5.  The [switch] of [agi_apply_activation_derivative] has no case for
    softmax: with the softmax tag it writes [1.0] in each of the first
    [size] output elements, whatever the input holds. *)
Theorem softmax_derivative_is_one :
  ∀ (m : libm) (size : Z) (h : list cell) (pi po : nat) (li lo : list float),
    block h pi = Some li → block h po = Some lo →
    Z.to_nat size ≤ length li → Z.to_nat size ≤ length lo →
    agi_apply_activation_derivative m (Some pi) (Some po) size
      AGI_ACTIVATION_SOFTMAX h
    = Some (AGI_SUCCESS,
            set_block h po (replicate (Z.to_nat size) 1%float
                            ++ drop (Z.to_nat size) lo)).
Proof.
  intros m size h pi po li lo Hi Ho Hli Hlo.
  unfold agi_apply_activation_derivative. cbn [is_null orb].
  rewrite (pointwise_loop_ext _ (λ _, 1%float)) by reflexivity.
  rewrite (pointwise_loop_correct _ pi po h li lo) by done.
  cbn [mbind option_bind]. rewrite fmap_constant, length_take.
  by rewrite Nat.min_l.
Qed.

Lemma softmax_derivative_is_one_witness :
  agi_apply_activation_derivative sample_libm (Some 0) (Some 1) 2
    AGI_ACTIVATION_SOFTMAX activation_sample_heap
  = Some (AGI_SUCCESS, [Doubles [2; -3]%float; Doubles [1; 1]%float]).
Proof.
  apply (softmax_derivative_is_one sample_libm 2 activation_sample_heap 0 1
           [2; -3]%float [0; 0]%float).
  - reflexivity.
  - reflexivity.
  - simpl. lia.
  - simpl. lia.
Defined.

(** ** ReLU *)

Lemma activation_value_relu m x : activation_value m AGI_ACTIVATION_RELU x = relu x.
Proof. reflexivity. Qed.

Lemma relu_idempotent (x : float) : relu (relu x) = relu x.
Proof.
  unfold relu. destruct (0 <? x)%float eqn:Hx; [by rewrite Hx|reflexivity].
Qed.

Lemma ltb_leb (x y : float) : (x <? y)%float = true → (x <=? y)%float = true.
Proof.
  rewrite FloatAxioms.ltb_spec, FloatAxioms.leb_spec. unfold SFltb, SFleb.
  by destruct (SFcompare (Prim2SF x) (Prim2SF y)) as [[]|].
Qed.

Lemma relu_nonneg (x : float) : (0 <=? relu x)%float = true.
Proof.
  unfold relu. destruct (0 <? x)%float eqn:Hx; [by apply ltb_leb|reflexivity].
Qed.

(** X6.  ReLU applied in place ([output = input]) leaves every one of the
    first [size] elements [>= 0.0] (so none is a NaN), and applying it a
    second time changes nothing. *)
Theorem relu_in_place_idempotent :
  ∀ (m : libm) (size : Z) (h : list cell) (p : nat) (l : list float),
    block h p = Some l → Z.to_nat size ≤ length l →
    ∃ (h1 : list cell) (l1 : list float),
      agi_apply_activation m (Some p) (Some p) size AGI_ACTIVATION_RELU h
      = Some (AGI_SUCCESS, h1) ∧
      block h1 p = Some l1 ∧
      Forall (λ v, (0 <=? v)%float = true) (take (Z.to_nat size) l1) ∧
      agi_apply_activation m (Some p) (Some p) size AGI_ACTIVATION_RELU h1
      = Some (AGI_SUCCESS, h1).
Proof.
  intros m size h p l Hp Hl.
  set (n := Z.to_nat size) in *.
  pose proof (block_lt _ _ _ Hp) as Hlt.
  assert (length (relu <$> take n l) = n) as Hlen
    by (rewrite length_fmap, length_take; lia).
  assert (∀ (g : list cell) (k : list float),
            block g p = Some k → n ≤ length k →
            agi_apply_activation m (Some p) (Some p) size AGI_ACTIVATION_RELU g
            = Some (AGI_SUCCESS,
                    set_block g p ((relu <$> take n k) ++ drop n k))) as Hrun.
  { intros g k Hg Hk.
    by rewrite (agi_apply_activation_pointwise m AGI_ACTIVATION_RELU size g p p
                  k k). }
  exists (set_block h p ((relu <$> take n l) ++ drop n l)),
         ((relu <$> take n l) ++ drop n l).
  split; [by apply Hrun|].
  split; [by apply block_set_block_eq|].
  split.
  - rewrite take_app_length' by done.
    apply Forall_fmap, Forall_forall. intros x _. apply relu_nonneg.
  - rewrite (Hrun _ ((relu <$> take n l) ++ drop n l)).
    + rewrite set_block_twice, take_app_length', drop_app_length' by done.
      rewrite <- list_fmap_compose.
      do 4 f_equal. apply list_fmap_ext. intros; apply relu_idempotent.
    + by apply block_set_block_eq.
    + rewrite length_app, length_drop. lia.
Qed.

Lemma relu_in_place_idempotent_witness :
  ∃ (h1 : list cell) (l1 : list float),
    agi_apply_activation sample_libm (Some 0) (Some 0) 3 AGI_ACTIVATION_RELU
      leaky_sample_heap = Some (AGI_SUCCESS, h1) ∧
    block h1 0 = Some l1 ∧
    Forall (λ v, (0 <=? v)%float = true) (take 3 l1) ∧
    agi_apply_activation sample_libm (Some 0) (Some 0) 3 AGI_ACTIVATION_RELU h1
    = Some (AGI_SUCCESS, h1).
Proof.
  apply (relu_in_place_idempotent sample_libm 3 leaky_sample_heap 0
           [2; -3; 5]%float).
  - reflexivity.
  - simpl. lia.
Defined.

(** ** Sigmoid and tanh: the derivative from the activation *)

(** X7.  For the sigmoid and tanh tags the derivative the library writes
    is a function of the activation it writes: [y * (1 - y)] of the
    sigmoid output [y], and [1 - y * y] of the tanh output. *)
Theorem derivative_from_activation_output :
  ∀ (m : libm) (size : Z) (h : list cell) (pi po : nat) (li lo : list float),
    block h pi = Some li → block h po = Some lo →
    Z.to_nat size ≤ length li → Z.to_nat size ≤ length lo →
    (∃ Y : list float,
        agi_apply_activation m (Some pi) (Some po) size AGI_ACTIVATION_SIGMOID h
        = Some (AGI_SUCCESS, set_block h po (Y ++ drop (Z.to_nat size) lo)) ∧
        agi_apply_activation_derivative m (Some pi) (Some po) size
          AGI_ACTIVATION_SIGMOID h
        = Some (AGI_SUCCESS,
                set_block h po (((λ y, y * (1 - y))%float <$> Y)
                                ++ drop (Z.to_nat size) lo))) ∧
    (∃ Y : list float,
        agi_apply_activation m (Some pi) (Some po) size AGI_ACTIVATION_TANH h
        = Some (AGI_SUCCESS, set_block h po (Y ++ drop (Z.to_nat size) lo)) ∧
        agi_apply_activation_derivative m (Some pi) (Some po) size
          AGI_ACTIVATION_TANH h
        = Some (AGI_SUCCESS,
                set_block h po (((λ y, 1 - y * y)%float <$> Y)
                                ++ drop (Z.to_nat size) lo))).
Proof.
  intros m size h pi po li lo Hi Ho Hli Hlo. split.
  - eexists. split; [by apply agi_apply_activation_pointwise|].
    rewrite (agi_apply_activation_derivative_pointwise _ _ _ _ pi po li lo)
      by done.
    rewrite <- list_fmap_compose. reflexivity.
  - eexists. split; [by apply agi_apply_activation_pointwise|].
    rewrite (agi_apply_activation_derivative_pointwise _ _ _ _ pi po li lo)
      by done.
    rewrite <- list_fmap_compose. reflexivity.
Qed.

Lemma derivative_from_activation_output_witness :
  (∃ Y : list float,
      agi_apply_activation sample_libm (Some 0) (Some 1) 2
        AGI_ACTIVATION_SIGMOID activation_sample_heap
      = Some (AGI_SUCCESS, set_block activation_sample_heap 1 (Y ++ [])) ∧
      agi_apply_activation_derivative sample_libm (Some 0) (Some 1) 2
        AGI_ACTIVATION_SIGMOID activation_sample_heap
      = Some (AGI_SUCCESS,
              set_block activation_sample_heap 1
                (((λ y, y * (1 - y))%float <$> Y) ++ []))) ∧
  (∃ Y : list float,
      agi_apply_activation sample_libm (Some 0) (Some 1) 2
        AGI_ACTIVATION_TANH activation_sample_heap
      = Some (AGI_SUCCESS, set_block activation_sample_heap 1 (Y ++ [])) ∧
      agi_apply_activation_derivative sample_libm (Some 0) (Some 1) 2
        AGI_ACTIVATION_TANH activation_sample_heap
      = Some (AGI_SUCCESS,
              set_block activation_sample_heap 1
                (((λ y, 1 - y * y)%float <$> Y) ++ []))).
Proof.
  apply (derivative_from_activation_output sample_libm 2 activation_sample_heap
           0 1 [2; -3]%float [0; 0]%float).
  - reflexivity.
  - reflexivity.
  - simpl. lia.
  - simpl. lia.
Defined.

(** ** Softmax without a guard on the sum *)

(** X8.  Softmax divides by the sum of the exponentials without looking
    at it.  When [exp] underflows to [0.0] on every one of the first
    [size] inputs, the sum is [0.0] and every one of the [size] outputs is
    [0.0 / 0.0], a NaN. *)
Theorem softmax_underflow_gives_nan :
  ∀ (m : libm) (size : Z) (h : list cell) (pi po : nat) (li lo : list float),
    block h pi = Some li → block h po = Some lo →
    Z.to_nat size ≤ length li → Z.to_nat size ≤ length lo →
    (∀ x, x ∈ take (Z.to_nat size) li → c_exp m x = 0%float) →
    agi_apply_activation m (Some pi) (Some po) size AGI_ACTIVATION_SOFTMAX h
    = Some (AGI_SUCCESS,
            set_block h po (replicate (Z.to_nat size) nan
                            ++ drop (Z.to_nat size) lo)).
Proof.
  intros m size h pi po li lo Hi Ho Hli Hlo Hexp.
  rewrite (agi_apply_activation_softmax m pi po size h li lo) by done.
  do 3 f_equal. unfold softmax_two_pass.
  assert (c_exp m <$> take (Z.to_nat size) li
          = replicate (Z.to_nat size) 0%float) as ->.
  { rewrite <- (length_take_le li (Z.to_nat size)) at 2 by done.
    rewrite <- fmap_constant. apply Forall_fmap_ext_1, Forall_forall.
    intros x Hx. by apply Hexp. }
  rewrite fold_left_add_zeros, fmap_replicate. reflexivity.
Qed.

(** A libm whose [exp] has underflowed. *)
Definition underflowing_libm : libm :=
  {| c_exp := λ _, 0%float; c_tanh := λ x, x; c_pow := λ x _, x |}.

Lemma softmax_underflow_gives_nan_witness :
  agi_apply_activation underflowing_libm (Some 0) (Some 1) 2
    AGI_ACTIVATION_SOFTMAX activation_sample_heap
  = Some (AGI_SUCCESS, [Doubles [2; -3]%float; Doubles [nan; nan]]).
Proof.
  apply (softmax_underflow_gives_nan underflowing_libm 2 activation_sample_heap
           0 1 [2; -3]%float [0; 0]%float).
  - reflexivity.
  - reflexivity.
  - simpl. lia.
  - simpl. lia.
  - intros x _. reflexivity.
Defined.

(* ================================================================== *)
(** * Further properties of the allocator tracker                      *)
(* ================================================================== *)

(** ** [(double) n] for every [size_t] *)

Section Conversion.

#[local] Open Scope Z_scope.

Lemma digits2_pos_upper (p : positive) : Z.pos p < 2 ^ Z.pos (digits2_pos p).
Proof.
  induction p as [p IH | p IH |]; cbn [digits2_pos]; [| |cbn; lia];
    rewrite Pos2Z.inj_succ, Z.pow_succ_r by lia; lia.
Qed.

Lemma digits2_pos_unique (p : positive) (d : Z) :
  2 ^ (d - 1) <= Z.pos p < 2 ^ d → Z.pos (digits2_pos p) = d.
Proof.
  intros [Hl Hu].
  pose proof (digits2_pos_lower p) as HL.
  pose proof (digits2_pos_upper p) as HU.
  set (D := Z.pos (digits2_pos p)) in *.
  assert (0 < D) by (unfold D; lia).
  assert (0 < d).
  { destruct (Z.lt_ge_cases 0 d) as [|Hd]; [done|].
    destruct (Z.eq_dec d 0) as [->|]; [cbn in Hu; lia|].
    rewrite Z.pow_neg_r in Hu by lia. lia. }
  destruct (Z.lt_trichotomy D d) as [Hlt|[Heq|Hgt]]; [|done|]; exfalso.
  - assert (2 ^ D <= 2 ^ (d - 1)) by (apply Z.pow_le_mono_r; lia). lia.
  - assert (2 ^ d <= 2 ^ (D - 1)) by (apply Z.pow_le_mono_r; lia). lia.
Qed.

(** The conversion of an integer of 64 significant bits: eleven bits are
    shifted out, and the rounded mantissa has 53 bits at exponent 11 or
    is [2^52] at exponent 12. *)
Lemma binary_round_64_valid (p : positive) :
  2 ^ 63 <= Z.pos p < 2 ^ 64 →
  valid_binary (binary_round prec emax false p 0) = true.
Proof.
  intros Hp.
  pose proof (digits2_pos_unique p 64 Hp) as Hd.
  unfold binary_round. rewrite Hd.
  change (fexp prec emax (64 + 0)) with 11.
  change (shl_align p 0 11) with (p, 0). cbv beta iota.
  unfold binary_round_aux. unfold shr_fexp at 1. cbn [Zdigits2]. rewrite Hd.
  change (fexp prec emax (64 + 0) - 0) with 11.
  cbn [shr shr_record_of_loc].
  set (mrs := SpecFloat.iter_pos shr_1 11 _).
  assert (shr_m mrs = Z.pos p / 2 ^ 11) as Hm
    by (unfold mrs; by rewrite shr_m_iter_pos).
  assert (2 ^ 52 <= shr_m mrs < 2 ^ 53) as Hq.
  { rewrite Hm. split.
    - apply Z.div_le_lower_bound; [lia|].
      rewrite <- Z.pow_add_r by lia. apply Hp.
    - apply Z.div_lt_upper_bound; [lia|].
      rewrite <- Z.pow_add_r by lia. apply Hp. }
  assert (2 ^ 52 <= round_nearest_even (shr_m mrs) (loc_of_shr_record mrs)
          <= 2 ^ 53) as Hr.
  { destruct (loc_of_shr_record mrs) as [|[]]; cbn [round_nearest_even];
      try destruct (Z.even _); lia. }
  destruct (round_nearest_even (shr_m mrs) (loc_of_shr_record mrs))
    as [|m1|m1]; try lia.
  change (0 + 11) with 11.
  destruct (Z.eq_dec (Z.pos m1) (2 ^ 53)) as [Heq|Hne].
  - injection Heq as ->. reflexivity.
  - assert (Z.pos (digits2_pos m1) = 53) as Hd1
      by (apply digits2_pos_unique; lia).
    unfold shr_fexp. cbn [Zdigits2]. rewrite Hd1.
    change (fexp prec emax (53 + 11) - 11) with 0.
    cbn [shr shr_record_of_loc shr_m].
    change (11 <=? emax - prec) with true. cbn [valid_binary].
    unfold SpecFloat.bounded, SpecFloat.canonical_mantissa. rewrite Hd1. reflexivity.
Qed.

(** [(double) n] is the correctly rounded [n] for every [size_t] value. *)
Lemma double_of_size_spec (n : Z) :
  0 <= n < 2 ^ 64 →
  Prim2SF (double_of_Z n) = binary_normalize prec emax n 0 false.
Proof.
  intros Hn. destruct (Z.lt_ge_cases n (2 ^ 63)) as [Hs|Hb].
  - apply double_of_Z_spec. lia.
  - unfold double_of_Z. apply Prim2SF_SF2Prim.
    destruct n as [|p|p]; try lia.
    apply binary_round_64_valid. lia.
Qed.

Lemma double_of_size_is_positive (n : Z) :
  0 < n < 2 ^ 64 → positive_class (Prim2SF (double_of_Z n)).
Proof.
  intros Hn. rewrite double_of_size_spec by lia.
  apply binary_normalize_positive. lia.
Qed.

End Conversion.

(** ** Counters that coincide *)

Lemma tracker_step_peak c w w' :
  call_ok c → stats_ok w → total w = used w → peak w = used w →
  (used w + step_bytes c w < SIZE_MODULUS)%Z →
  tracker_step c w = Some w' →
  total w' = used w' ∧ peak w' = used w' ∧
  used w' = (used w + step_bytes c w)%Z.
Proof.
  intros Hc Hok Ht Hp Hfit Hstep.
  pose proof Hok as (_ & Hu & _).
  destruct c as [size alignment | p]; cbn in *.
  - destruct (agi_aligned_alloc size alignment w) as [[b|] w1] eqn:Halloc;
      cbn in *; injection Hstep as <-.
    + apply agi_aligned_alloc_granted in Halloc as (Et & Eu & _ & Ep & _).
      rewrite Ep, Et, Eu, Ht, Hp. unfold size_add.
      unfold is_size_t in *.
      rewrite size_wrap_small by (unfold is_size_t; lia).
      destruct (Z.ltb_spec (used w) (used w + size)); repeat split; lia.
    + apply agi_aligned_alloc_refused in Halloc.
      unfold used, peak, total in *. rewrite Halloc. lia.
  - destruct (agi_aligned_free p w) as [[e w1]|] eqn:Hfree; cbn in *; [|done].
    injection Hstep as <-.
    apply agi_aligned_free_counters in Hfree as (Et & Eu & Ep & _).
    lia.
Qed.

Lemma tracker_run_peak cs : ∀ w w',
  Forall call_ok cs → stats_ok w → total w = used w → peak w = used w →
  (used w + granted_bytes cs w < SIZE_MODULUS)%Z →
  tracker_run cs w = Some w' →
  total w' = used w' ∧ peak w' = used w' ∧
  used w' = (used w + granted_bytes cs w)%Z.
Proof.
  induction cs as [|c cs IH]; intros w w' Hcs Hok Ht Hp Hfit Hrun.
  - injection Hrun as <-. cbn. lia.
  - apply Forall_cons in Hcs as [Hc Hcs]. cbn [tracker_run] in Hrun.
    destruct (tracker_step c w) as [w1|] eqn:Hstep; cbn in Hrun; [|done].
    cbn [granted_bytes] in *. rewrite Hstep in *.
    destruct (tracker_step_counters c w w1 Hc Hok Hstep)
      as (Hok1 & _ & _ & _ & _ & Hg1).
    destruct (tracker_run_counters cs w1 w' Hcs Hok1 Hrun)
      as (_ & _ & _ & _ & _ & Hg').
    destruct (tracker_step_peak c w w1 Hc Hok Ht Hp ltac:(lia) Hstep)
      as (Ht1 & Hp1 & Hu1).
    destruct (IH w1 w' Hcs Hok1 Ht1 Hp1 ltac:(lia) Hrun) as (Ht' & Hp' & Hu').
    repeat split; try done. lia.
Qed.

(** X9.  [total_memory] and [used_memory] receive the same additions and
    nothing else, so from a state in which they are equal they stay equal
    across every sequence of tracker calls, wrap-around included.  While
    the bytes granted fit in a [size_t], [peak_memory] equals them too:
    the three counters all hold the number of bytes ever granted, whatever
    has been freed. *)
Theorem tracker_totals_coincide :
  ∀ (cs : list tracker_call) (w w' : world),
    Forall call_ok cs → stats_ok w →
    total w = used w → peak w = used w →
    tracker_run cs w = Some w' →
    total w' = used w' ∧
    ((used w + granted_bytes cs w < SIZE_MODULUS)%Z →
     peak w' = used w' ∧ used w' = (used w + granted_bytes cs w)%Z).
Proof.
  intros cs w w' Hcs Hok Ht Hp Hrun. split.
  - destruct (tracker_run_counters cs w w' Hcs Hok Hrun)
      as (_ & _ & Hu & Htot & _).
    by rewrite Hu, Htot, Ht.
  - intros Hfit.
    by destruct (tracker_run_peak cs w w' Hcs Hok Ht Hp Hfit Hrun) as (_ & ? & ?).
Qed.

Definition sample_calls : list tracker_call :=
  [CallAlloc 24 8; CallAlloc 40 8; CallFree (Some 0)].

Lemma tracker_totals_coincide_witness :
  ∃ w' : world,
    tracker_run sample_calls initial_world = Some w' ∧
    total w' = used w' ∧ peak w' = used w' ∧ used w' = 64%Z.
Proof.
  eexists. split; [reflexivity|].
  match goal with
  | |- total ?w = _ ∧ _ =>
      destruct (tracker_totals_coincide sample_calls initial_world w)
        as [Htotal Hpeak]
  end.
  - repeat constructor; unfold is_size_t, SIZE_MODULUS; lia.
  - apply stats_ok_initial.
  - reflexivity.
  - reflexivity.
  - reflexivity.
  - split; [exact Htotal|]. apply Hpeak. vm_compute. reflexivity.
Defined.

(** ** The snapshot *)

(** X10.  After any sequence of tracker calls from the initial statistics
    that granted fewer than 2^64 bytes in all, [agi_get_memory_stats]
    copies the counters into the caller's struct and reports
    [fragmentation_ratio = 0.0]: [used_memory] is never decremented, so it
    equals [peak_memory] however many blocks were freed. *)
Theorem fragmentation_ratio_is_zero :
  ∀ (cs : list tracker_call) (w' : world) (s0 : agi_memory_stats_t),
    Forall call_ok cs →
    tracker_run cs initial_world = Some w' →
    (granted_bytes cs initial_world < SIZE_MODULUS)%Z →
    ∃ s : agi_memory_stats_t,
      agi_get_memory_stats (Some s0) w' = (AGI_SUCCESS, Some s) ∧
      fragmentation_ratio s = 0%float ∧
      total_memory s = granted_bytes cs initial_world ∧
      used_memory s = granted_bytes cs initial_world ∧
      peak_memory s = granted_bytes cs initial_world ∧
      allocation_count s = allocations w' ∧
      deallocation_count s = deallocations w'.
Proof.
  intros cs w' s0 Hcs Hrun Hfit.
  destruct (tracker_run_peak cs initial_world w' Hcs stats_ok_initial
              eq_refl eq_refl Hfit Hrun) as (Ht & Hp & Hu).
  destruct (tracker_run_counters cs initial_world w' Hcs stats_ok_initial Hrun)
    as ((_ & _ & Hpk & _) & _).
  change (used initial_world) with 0%Z in Hu. rewrite Z.add_0_l in Hu.
  unfold total, used, peak in *.
  eexists. split; [reflexivity|]. cbn.
  repeat split; try lia.
  rewrite Hp, Hu. unfold size_sub. rewrite Z.sub_diag.
  destruct (Z.ltb_spec 0 (granted_bytes cs initial_world)) as [Hpos|]; [|done].
  apply zero_div_positive, double_of_size_is_positive.
  unfold is_size_t, SIZE_MODULUS in *. lia.
Qed.

Lemma fragmentation_ratio_is_zero_witness :
  ∃ (w' : world) (s : agi_memory_stats_t),
    tracker_run sample_calls initial_world = Some w' ∧
    agi_get_memory_stats (Some zero_stats) w' = (AGI_SUCCESS, Some s) ∧
    fragmentation_ratio s = 0%float ∧
    used_memory s = 64%Z ∧ peak_memory s = 64%Z ∧
    deallocation_count s = 1%Z.
Proof.
  eexists.
  match goal with
  | |- ∃ s, ?R = Some ?w ∧ _ =>
      destruct (fragmentation_ratio_is_zero sample_calls w zero_stats)
        as (s & Hget & Hratio & _ & Hused & Hpeak & _ & Hdealloc)
  end.
  - repeat constructor; unfold is_size_t, SIZE_MODULUS; lia.
  - reflexivity.
  - vm_compute. reflexivity.
  - exists s. split; [reflexivity|]. split; [exact Hget|].
    split; [exact Hratio|]. split; [exact Hused|]. split; [exact Hpeak|].
    exact Hdealloc.
Defined.

(* ================================================================== *)
(** * Further properties of construction and teardown                  *)
(* ================================================================== *)

(** ** One iteration of the layer loop *)

Lemma layer_cells_snoc : ∀ done base cells l W,
  layer_cells base done cells →
  weights l = Some (base + length cells) →
  biases l = Some (S (base + length cells)) →
  length W = Z.to_nat (size_mul (layer_input_size l) (layer_output_size l)) →
  is_training l = true →
  layer_cells base (done ++ [l])
    (cells ++ [Doubles W;
               Doubles (replicate (Z.to_nat (layer_output_size l)) 0%float)]).
Proof.
  induction done as [|l0 done IH]; intros base cells l W Hc Hw Hb HW Ht.
  - destruct cells; [|done]. cbn [length] in *. rewrite Nat.add_0_r in *.
    cbn. done.
  - destruct cells as [|[W0| |] [|[B0| |] cells]]; try done.
    destruct Hc as (? & ? & ? & ? & ? & Hc). cbn [app layer_cells].
    repeat (split; [done|]).
    apply IH; try done; cbn [length] in *.
    + by replace (S (S base) + length cells) with (base + S (S (length cells)))
        by lia.
    + by replace (S (S base) + length cells) with (base + S (S (length cells)))
        by lia.
Qed.

(** The two [calloc]s and the initialisation loop of a layer whose
    buffers were granted: two fresh blocks, the weights of the requested
    length and the biases zeroed. *)
Lemma layer_buffers_initialised cur out scale w pw w1 pb w2 w3 :
  calloc (size_mul cur out) sizeof_double w = (Some pw, w1) →
  calloc out sizeof_double w1 = (Some pb, w2) →
  init_weights_loop (Some pw) scale 0 (Z.to_nat (size_mul cur out)) w2 = Some w3 →
  pw = length (heap_of w) ∧ pb = S (length (heap_of w)) ∧
  g_memory_stats w3 = g_memory_stats w ∧
  ∃ W, length W = Z.to_nat (size_mul cur out) ∧
       heap_of w3
       = heap_of w ++ [Doubles W; Doubles (replicate (Z.to_nat out) 0%float)].
Proof.
  intros Hw Hb Hinit.
  apply calloc_Some in Hw as (-> & Hh1 & Hs1 & _).
  apply calloc_Some in Hb as (-> & Hh2 & Hs2 & _).
  apply init_weights_loop_spec in Hinit as (Hs3 & _ & Hzero & Hpos).
  split; [done|]. split; [by rewrite Hh1, length_app, Nat.add_1_r|].
  split; [congruence|].
  destruct (decide (Z.to_nat (size_mul cur out) = 0)) as [Hk|Hk].
  - exists []. split; [done|]. rewrite Hzero, Hh2, Hh1, Hk by done.
    by rewrite <- app_assoc.
  - destruct Hpos as (b & l & l' & [= <-] & Hbl & Hlen & ->); [lia|].
    exists l'. rewrite Hh2, Hh1, <- app_assoc in Hbl |- *.
    apply block_Some in Hbl. rewrite lookup_app_r, Nat.sub_diag in Hbl by done.
    injection Hbl as <-. rewrite length_replicate in Hlen. split; [done|].
    unfold set_block. rewrite insert_app_r_alt, Nat.sub_diag by done. done.
Qed.

(** ** The error path releases what was obtained *)

Lemma free_layers_app ls1 ls2 w :
  free_layers (ls1 ++ ls2) w = w1 ← free_layers ls1 w; free_layers ls2 w1.
Proof.
  revert w. induction ls1 as [|l ls1 IH]; intros w; [done|].
  cbn [app free_layers].
  destruct (free (weights l) w) as [w1|]; cbn [mbind option_bind]; [|done].
  destruct (free (biases l) w1) as [w2|]; cbn [mbind option_bind]; [|done].
  apply IH.
Qed.

Lemma free_layers_spec ls : ∀ cells (pre post : list cell) w,
  layer_cells (length pre) ls cells →
  heap_of w = pre ++ cells ++ post →
  ∃ w', free_layers ls w = Some w' ∧
        heap_of w' = pre ++ freed cells ++ post ∧
        g_memory_stats w' = g_memory_stats w.
Proof.
  induction ls as [|l ls IH]; intros cells pre post w Hcells Hh.
  { destruct cells; [|done]. exists w. by rewrite Hh. }
  destruct cells as [|[W| |] [|[B| |] cells]]; try done.
  destruct Hcells as (Hw & Hb & _ & _ & _ & Hcells).
  cbn [free_layers]. rewrite Hw, Hb.
  destruct (free_at w pre (Doubles B :: cells ++ post) (Doubles W))
    as (w1 & -> & Hh1 & Hs1); [by rewrite Hh | done |].
  cbn [mbind option_bind].
  destruct (free_at w1 (pre ++ [Freed]) (cells ++ post) (Doubles B))
    as (w2 & Hf2 & Hh2 & Hs2); [by rewrite Hh1, <- app_assoc | done |].
  rewrite length_app, Nat.add_1_r in Hf2. rewrite Hf2. cbn [mbind option_bind].
  destruct (IH cells (pre ++ [Freed; Freed]) post w2) as (w3 & Hrun & Hh3 & Hs3).
  - rewrite length_app. cbn [length].
    by replace (length pre + 2) with (S (S (length pre))) by lia.
  - by rewrite Hh2, <- !app_assoc.
  - exists w3. split; [exact Hrun|]. split; [|congruence].
    rewrite Hh3, <- !app_assoc. done.
Qed.

(** The buffers of the layer at which an allocation was refused: none, or
    one fresh block. *)
Definition partial_layer (wts bs : option nat) (base : nat) (new : list cell)
  : Prop :=
  (wts = None ∧ bs = None ∧ new = []) ∨
  (∃ c, live c = true ∧ new = [c] ∧
        ((wts = Some base ∧ bs = None) ∨ (wts = None ∧ bs = Some base))).

Lemma free_partial_layer (w : world) (pre new : list cell) wts bs :
  heap_of w = pre ++ new → partial_layer wts bs (length pre) new →
  ∃ w', (w1 ← free wts w; free bs w1) = Some w' ∧
        heap_of w' = pre ++ freed new ∧
        g_memory_stats w' = g_memory_stats w.
Proof.
  intros Hh [(-> & -> & ->) | (c & Hc & -> & [[-> ->] | [-> ->]])].
  - exists w. by rewrite Hh.
  - destruct (free_at w pre [] c) as (w1 & -> & Hh1 & Hs1); [done..|].
    by exists w1.
  - change (free None w) with (Some w). cbn [mbind option_bind].
    destruct (free_at w pre [] c) as (w1 & -> & Hh1 & Hs1); [done..|].
    by exists w1.
Qed.

Lemma refused_layer cur out w wts w1 bs w2 :
  calloc (size_mul cur out) sizeof_double w = (wts, w1) →
  calloc out sizeof_double w1 = (bs, w2) →
  is_null wts || is_null bs = true →
  ∃ new, heap_of w2 = heap_of w ++ new ∧
         partial_layer wts bs (length (heap_of w)) new ∧
         g_memory_stats w2 = g_memory_stats w.
Proof.
  intros Hw Hb Hnull.
  destruct wts as [pw|], bs as [pb|]; try done.
  - apply calloc_Some in Hw as (-> & Hh1 & Hs1 & _).
    apply calloc_None in Hb as (Hh2 & Hs2 & _).
    eexists. split; [by rewrite Hh2, Hh1|]. split; [|congruence].
    right. eexists. split; [|split; [done|by left]]. done.
  - apply calloc_None in Hw as (Hh1 & Hs1 & _).
    apply calloc_Some in Hb as (-> & Hh2 & Hs2 & _).
    eexists. split; [by rewrite Hh2, Hh1|]. split; [|congruence].
    right. eexists. rewrite Hh1. split; [|split; [done|by right]]. done.
  - apply calloc_None in Hw as (Hh1 & Hs1 & _).
    apply calloc_None in Hb as (Hh2 & Hs2 & _).
    exists []. rewrite app_nil_r. split; [congruence|]. split; [by left|congruence].
Qed.

(** The cleanup of the error path, from a heap that holds the network
    record, the layer array, the buffers of the layers built so far and
    what the failing layer obtained. *)
Lemma cleanup_on_error (h0 : list cell) ra rb done cells new layer w :
  live ra = true → live rb = true →
  heap_of w = (h0 ++ [ra; rb]) ++ cells ++ new →
  layer_cells (S (S (length h0))) done cells →
  partial_layer (weights layer) (biases layer)
    (S (S (length h0)) + length cells) new →
  ∃ w', (w3 ← free_layers (done ++ [layer]) w;
         w4 ← free (Some (S (length h0))) w3;
         free (Some (length h0)) w4) = Some w' ∧
        heap_of w' = h0 ++ replicate (2 + length cells + length new) Freed ∧
        g_memory_stats w' = g_memory_stats w.
Proof.
  intros Hra Hrb Hh Hcells Hnew.
  assert (length (h0 ++ [ra; rb]) = S (S (length h0))) as Hpre
    by (rewrite length_app; cbn [length]; lia).
  rewrite free_layers_app.
  destruct (free_layers_spec done cells (h0 ++ [ra; rb]) new w)
    as (w1 & -> & Hh1 & Hs1); [by rewrite Hpre|done|].
  cbn [mbind option_bind free_layers].
  destruct (free_partial_layer w1 ((h0 ++ [ra; rb]) ++ freed cells) new
              (weights layer) (biases layer))
    as (w2 & Hf2 & Hh2 & Hs2).
  { by rewrite Hh1, <- !app_assoc. }
  { rewrite length_app, Hpre. unfold freed. by rewrite length_replicate. }
  destruct (free (weights layer) w1) as [wa|]; cbn [mbind option_bind] in Hf2 |- *;
    [|done].
  rewrite Hf2. cbn [mbind option_bind].
  destruct (free_at w2 (h0 ++ [ra]) (freed cells ++ freed new) rb)
    as (w3 & Hf3 & Hh3 & Hs3); [by rewrite Hh2, <- !app_assoc | done |].
  rewrite length_app, Nat.add_1_r in Hf3. rewrite Hf3. cbn [mbind option_bind].
  destruct (free_at w3 h0 ([Freed] ++ freed cells ++ freed new) ra)
    as (w4 & Hf4 & Hh4 & Hs4); [by rewrite Hh3, <- !app_assoc | done |].
  rewrite Hf4. exists w4. split; [done|]. split; [|congruence].
  rewrite Hh4. unfold freed. rewrite !replicate_add. cbn [replicate app]. done.
Qed.

Lemma create_layers_failure cfg lc (h0 : list cell) ra rb bytes n :
  live ra = true → live rb = true →
  ∀ i cur built w w' cells,
    create_layers cfg lc (length h0) (S (length h0)) bytes i n cur built w
    = Some (None, w') →
    heap_of w = (h0 ++ [ra; rb]) ++ cells →
    layer_cells (S (S (length h0))) built cells →
    ∃ k, heap_of w' = h0 ++ replicate k Freed ∧
         g_memory_stats w' = g_memory_stats w.
Proof.
  intros Hra Hrb.
  induction n as [|n IH]; intros i cur built w w' cells Hrun Hh Hcells;
    cbn [create_layers] in Hrun; [done|].
  assert (length (heap_of w) = S (S (length h0)) + length cells) as Hlen
    by (rewrite Hh, !length_app; cbn [length]; lia).
  destruct (layer_output_size_at cfg lc i) as [out|];
    cbn [mbind option_bind] in Hrun; [|done].
  case_decide; [|done].
  destruct (calloc (size_mul cur out) sizeof_double w) as [wts w1] eqn:Hw.
  destruct (calloc out sizeof_double w1) as [bs w2] eqn:Hb.
  destruct (is_null wts || is_null bs) eqn:Hnull.
  - destruct (refused_layer _ _ _ _ _ _ _ Hw Hb Hnull) as (new & Hh2 & Hnew & Hs2).
    set (layer := {| weights := wts; biases := bs; layer_input_size := cur;
                     layer_output_size := out; is_training := true |}) in *.
    destruct (cleanup_on_error h0 ra rb built cells new layer w2 Hra Hrb)
      as (w5 & Hclean & Hh5 & Hs5).
    { by rewrite Hh2, Hh, <- !app_assoc. }
    { done. }
    { by rewrite <- Hlen. }
    destruct (free_layers (built ++ [layer]) w2) as [w3|];
      cbn [mbind option_bind] in Hrun, Hclean; [|done].
    destruct (free (Some (S (length h0))) w3) as [w4|];
      cbn [mbind option_bind] in Hrun, Hclean; [|done].
    rewrite Hclean in Hrun. injection Hrun as <-.
    eexists. split; [exact Hh5|congruence].
  - destruct wts as [pw|], bs as [pb|]; try done.
    destruct (init_weights_loop _ _ _ _ w2) as [w3|] eqn:Hinit;
      cbn [mbind option_bind] in Hrun; [|done].
    destruct (layer_buffers_initialised _ _ _ _ _ _ _ _ _ Hw Hb Hinit)
      as (-> & -> & Hs3 & W & HW & Hh3).
    apply (IH _ _ _ _ _ (cells ++ [Doubles W;
                           Doubles (replicate (Z.to_nat out) 0%float)]))
      in Hrun as (k & Hk & Hs).
    + exists k. split; [done|congruence].
    + by rewrite Hh3, Hh, <- !app_assoc.
    + match goal with
      | |- layer_cells _ (_ ++ [?l]) _ =>
          apply (layer_cells_snoc built _ cells l W); try done; cbn;
            by rewrite Hlen
      end.
Qed.

(** X11.  Whenever [agi_create_neural_network] returns [NULL] - for a
    null config or because [malloc] or [calloc] refused the network
    record, the layer array, or a layer's weights or biases - it has
    released every block it obtained: the heap is the one it started from
    followed by freed blocks only, and the tracker's statistics are
    unchanged. *)
Theorem create_failure_releases_everything :
  ∀ (config : option agi_neural_config_t) (w w' : world),
    agi_create_neural_network config w = Some (None, w') →
    ∃ k : nat,
      heap_of w' = heap_of w ++ replicate k Freed ∧
      g_memory_stats w' = g_memory_stats w.
Proof.
  intros [cfg|] w w' Hrun; cbn [agi_create_neural_network] in Hrun.
  2: { injection Hrun as <-. exists 0. by rewrite app_nil_r. }
  destruct (malloc sizeof_agi_neural_network_t w) as [[pn|] w1] eqn:Hn.
  2: { injection Hrun as <-. apply malloc_None in Hn as [Hh Hs].
       exists 0. by rewrite app_nil_r. }
  apply malloc_Some in Hn as (-> & Hh1 & Hs1 & _).
  destruct (malloc _ w1) as [[pl|] w2] eqn:Hl.
  - apply malloc_Some in Hl as (-> & Hh2 & Hs2 & _).
    destruct (create_layers _ _ _ _ _ _ _ _ _ w2) as [[[ls|] w3]|] eqn:Hls;
      cbn [mbind option_bind] in Hrun; [| |done].
    { destruct (calloc (input_size cfg) _ w3) as [ib w4].
      destruct (calloc (output_size cfg) _ w4) as [ob w5].
      destruct (calloc (output_size cfg) _ w5) as [gb w6]. done. }
    injection Hrun as <-.
    rewrite Hh1, length_app, Nat.add_1_r in Hls.
    destruct (create_layers_failure _ _ (heap_of w)
                (Raw sizeof_agi_neural_network_t)
                (Raw (size_mul (size_add (hidden_layers_count cfg) 2)
                        sizeof_agi_neural_layer_t))
                _ _ eq_refl eq_refl _ _ _ _ _ [] Hls) as (k & Hk & Hs).
    + by rewrite app_nil_r, Hh2, Hh1, <- app_assoc.
    + done.
    + exists k. split; [done|congruence].
  - apply malloc_None in Hl as [Hh2 Hs2].
    destruct (free_at w2 (heap_of w) [] (Raw sizeof_agi_neural_network_t))
      as (w3 & Hf & Hh3 & Hs3); [by rewrite Hh2, Hh1 | done |].
    rewrite Hf in Hrun. cbn [mbind option_bind] in Hrun. injection Hrun as <-.
    exists 1. split; [done|congruence].
Qed.

(** A fresh process in which the allocator answers [grants] in turn. *)
Definition world_granting (grants : list bool) : world :=
  {| heap_of := []; g_memory_stats := zero_stats;
     alloc_script := grants; rand_script := [] |}.

Lemma create_failure_releases_everything_witness :
  ∃ w' : world,
    agi_create_neural_network (Some config_2_2_2)
      (world_granting [true; true; true; true; true; false])
    = Some (None, w') ∧
    ∃ k : nat,
      heap_of w' = replicate k Freed ∧ g_memory_stats w' = zero_stats.
Proof.
  eexists.
  match goal with
  | |- ?A ∧ _ => assert A as Hrun by (vm_compute; reflexivity)
  end.
  split; [exact Hrun|].
  destruct (create_failure_releases_everything _ _ _ Hrun) as (k & Hk & Hs).
  exists k. split; [exact Hk | exact Hs].
Defined.

(** ** The widths construction gives the layers *)

Lemma create_layers_widths cfg lc net_b lay_b bytes n : ∀ i cur built w ls w',
  create_layers cfg lc net_b lay_b bytes i n cur built w = Some (Some ls, w') →
  ∃ new, ls = built ++ new ∧ length new = n ∧
         ∀ j l, new !! j = Some l →
                layer_output_size_at cfg lc (i + j) = Some (layer_output_size l).
Proof.
  induction n as [|n IH]; intros i cur built w ls w' Hrun;
    cbn [create_layers] in Hrun.
  { injection Hrun as <- <-. exists []. by rewrite app_nil_r. }
  destruct (layer_output_size_at cfg lc i) as [out|] eqn:Hout;
    cbn [mbind option_bind] in Hrun; [|done].
  case_decide; [|done].
  destruct (calloc (size_mul cur out) sizeof_double w) as [wts w1].
  destruct (calloc out sizeof_double w1) as [bs w2].
  destruct (is_null wts || is_null bs); [by simplify_option_eq|].
  destruct (init_weights_loop _ _ _ _ w2) as [w3|];
    cbn [mbind option_bind] in Hrun; [|done].
  apply IH in Hrun as (new & -> & Hlen & Hall).
  eexists (_ :: new). rewrite <- app_assoc. split; [done|].
  split; [cbn [length]; lia|].
  intros [|j] l Hl.
  - injection Hl as <-. by rewrite Nat.add_0_r.
  - replace (i + S j) with (S i + j) by lia. by apply Hall.
Qed.

Lemma chained_inputs : ∀ ls cur,
  chained cur ls →
  layer_input_size <$> ls
  = take (length ls) (cur :: (layer_output_size <$> ls)).
Proof.
  induction ls as [|l ls IH]; intros cur Hc; [done|].
  destruct Hc as [<- Hc]. rewrite !fmap_cons. cbn [length take].
  f_equal. by apply IH.
Qed.

(** X12.  A network that [agi_create_neural_network] returns has
    [hidden_layers_count + 2] layers.  Their output widths are the first
    [hidden_layers_count + 1] entries of [hidden_layer_sizes] followed by
    [output_size], so the array the config points to holds at least one
    entry more than [hidden_layers_count]; their input widths are
    [input_size] followed by the same entries. *)
Theorem created_layer_widths :
  ∀ (cfg : agi_neural_config_t) (w : world) (net : agi_neural_network_t)
    (w' : world),
    agi_create_neural_network (Some cfg) w = Some (Some net, w') →
    (0 <= hidden_layers_count cfg)%Z →
    (hidden_layers_count cfg + 2 < SIZE_MODULUS)%Z →
    ∃ hs : list Z,
      hidden_layer_sizes cfg = Some hs ∧
      S (Z.to_nat (hidden_layers_count cfg)) ≤ length hs ∧
      length (layers net) = S (S (Z.to_nat (hidden_layers_count cfg))) ∧
      layer_output_size <$> layers net
      = take (S (Z.to_nat (hidden_layers_count cfg))) hs ++ [output_size cfg] ∧
      layer_input_size <$> layers net
      = input_size cfg :: take (S (Z.to_nat (hidden_layers_count cfg))) hs.
Proof.
  intros cfg w net w' Hrun Hc0 Hc1.
  destruct (create_spec _ _ _ _ Hrun)
    as (cells & ci & co & cg & _ & _ & _ & _ & _ & Hlen & _ & Hchain & _).
  unfold agi_create_neural_network in Hrun.
  destruct (malloc sizeof_agi_neural_network_t w) as [[pn|] w1]; [|done].
  destruct (malloc _ w1) as [[pl|] w2]; [|by simplify_option_eq].
  destruct (create_layers _ _ _ _ _ _ _ _ _ w2) as [[[ls|] w3]|] eqn:Hls;
    cbn [mbind option_bind] in Hrun; [|done..].
  apply create_layers_widths in Hls as (new & Hnew & Hn & Hall).
  rewrite app_nil_l in Hnew. subst new.
  destruct (calloc (input_size cfg) _ w3) as [ib w4].
  destruct (calloc (output_size cfg) _ w4) as [ob w5].
  destruct (calloc (output_size cfg) _ w5) as [gb w6].
  injection Hrun as Hnet _. subst net.
  cbn [layers layer_count config] in *.
  set (k := Z.to_nat (hidden_layers_count cfg)) in *.
  assert (size_add (hidden_layers_count cfg) 2 = Z.of_nat (S (S k))) as Hlc.
  { unfold size_add, size_wrap, k. rewrite Z.mod_small by lia. lia. }
  rewrite Hlc in *. rewrite Nat2Z.id in Hn. clear Hlen.
  assert (size_sub (Z.of_nat (S (S k))) 1 = Z.of_nat (S k)) as Hlast.
  { unfold size_sub, size_wrap. rewrite Z.mod_small; [lia|].
    unfold SIZE_MODULUS, k in *. lia. }
  set (outs := layer_output_size <$> ls).
  assert (length outs = S (S k)) as Houts by (unfold outs; by rewrite length_fmap).
  assert (∀ j, j < S (S k) →
               ∃ l, ls !! j = Some l ∧
                    layer_output_size_at cfg (Z.of_nat (S (S k))) j
                    = Some (layer_output_size l)) as Hat.
  { intros j Hj. destruct (lookup_lt_is_Some_2 ls j) as [l Hl]; [lia|].
    exists l. split; [done|]. by apply (Hall j l). }
  destruct (Hat 0) as (l0 & Hl0 & H0); [lia|].
  unfold layer_output_size_at in H0. cbn [decide_rel] in H0.
  rewrite decide_True in H0 by done. unfold hidden_layer_size in H0.
  destruct (hidden_layer_sizes cfg) as [hs|] eqn:Hhs; [|done].
  exists hs. split; [done|].
  assert (∀ j, j < S k → hs !! j = outs !! j ∧ is_Some (hs !! j)) as Hhid.
  { intros j Hj. destruct (Hat j) as (l & Hl & Hw); [lia|].
    unfold outs. rewrite list_lookup_fmap, Hl. cbn.
    unfold layer_output_size_at, hidden_layer_size in Hw. rewrite Hhs in Hw.
    cbn [mbind option_bind] in Hw.
    destruct (decide (j = 0)) as [->|Hj0]; [by rewrite Hw|].
    rewrite Hlast in Hw.
    destruct (Z.eqb_spec (Z.of_nat j) (Z.of_nat (S k))); [lia|].
    by rewrite Hw. }
  assert (outs !! S k = Some (output_size cfg)) as Hout.
  { destruct (Hat (S k)) as (l & Hl & Hw); [lia|].
    unfold outs. rewrite list_lookup_fmap, Hl. cbn.
    unfold layer_output_size_at in Hw. rewrite decide_False in Hw by done.
    rewrite Hlast, Z.eqb_refl in Hw. congruence. }
  assert (S k ≤ length hs) as Hlen.
  { destruct (Hhid k) as [_ Hk]; [lia|]. apply lookup_lt_is_Some_1 in Hk. lia. }
  assert (outs = take (S k) hs ++ [output_size cfg]) as Heq.
  { rewrite <- (take_drop (S k) outs). f_equal.
    - apply list_eq. intros j.
      destruct (decide (j < S k)) as [Hj|Hj].
      + rewrite !lookup_take_lt by done. symmetry. by apply Hhid.
      + by rewrite !lookup_take_ge by lia.
    - rewrite (drop_S outs (output_size cfg) (S k)) by done.
      by rewrite drop_ge by lia. }
  split; [done|]. split; [done|]. split; [done|].
  rewrite (chained_inputs ls (input_size cfg) Hchain), Hn.
  fold outs. rewrite Heq. cbn [take]. f_equal.
  rewrite take_app_length'; [done|]. rewrite length_take. lia.
Qed.

Lemma created_layer_widths_witness :
  ∃ (net : agi_neural_network_t) (w' : world),
    agi_create_neural_network (Some (config_3_4_2_then 7)) initial_world
    = Some (Some net, w') ∧
    layer_output_size <$> layers net = [4; 7; 2]%Z ∧
    layer_input_size <$> layers net = [3; 4; 7]%Z.
Proof.
  eexists _, _.
  match goal with
  | |- ?A ∧ _ => assert A as Hrun by (vm_compute; reflexivity)
  end.
  split; [exact Hrun|].
  destruct (created_layer_widths _ _ _ _ Hrun) as (hs & Hhs & _ & _ & Ho & Hi).
  - cbn. lia.
  - cbn. unfold SIZE_MODULUS. lia.
  - injection Hhs as <-. split; [exact Ho | exact Hi].
Defined.

(** ** Construction is defined on a well-formed config *)

Lemma init_weights_loop_total pw scale n : ∀ j w l,
  block (heap_of w) pw = Some l → j + n ≤ length l →
  ∃ w', init_weights_loop (Some pw) scale j n w = Some w'.
Proof.
  induction n as [|n IH]; intros j w l Hb Hj; cbn [init_weights_loop];
    [by eexists|].
  destruct (rand w) as [r w1] eqn:Hrand.
  assert (heap_of w1 = heap_of w) as Hh1
    by (unfold rand in Hrand; by injection Hrand as <- <-).
  rewrite Hh1, (store_block _ pw l) by (done || lia).
  cbn [mbind option_bind].
  match goal with
  | |- context [set_block _ _ ?l'] => apply (IH _ _ l')
  end.
  - cbn. apply block_set_block_eq. by eapply block_lt.
  - rewrite length_insert. lia.
Qed.

Lemma create_layers_defined cfg lc (h0 : list cell) ra rb bytes n :
  live ra = true → live rb = true →
  ∀ i cur built w cells,
    heap_of w = (h0 ++ [ra; rb]) ++ cells →
    layer_cells (S (S (length h0))) built cells →
    (∀ j, i ≤ j < i + n → is_Some (layer_output_size_at cfg lc j)) →
    (Z.of_nat (i + n) * sizeof_agi_neural_layer_t <= bytes)%Z →
    ∃ r w',
      create_layers cfg lc (length h0) (S (length h0)) bytes i n cur built w
      = Some (r, w').
Proof.
  intros Hra Hrb.
  induction n as [|n IH]; intros i cur built w cells Hh Hcells Hout Hbytes;
    cbn [create_layers]; [by eexists _, _|].
  assert (length (heap_of w) = S (S (length h0)) + length cells) as Hlen
    by (rewrite Hh, !length_app; cbn [length]; lia).
  destruct (Hout i) as [out ->]; [lia|]. cbn [mbind option_bind].
  rewrite decide_True by (unfold sizeof_agi_neural_layer_t in *; lia).
  destruct (calloc (size_mul cur out) sizeof_double w) as [wts w1] eqn:Hw.
  destruct (calloc out sizeof_double w1) as [bs w2] eqn:Hb.
  destruct (is_null wts || is_null bs) eqn:Hnull.
  - destruct (refused_layer _ _ _ _ _ _ _ Hw Hb Hnull) as (new & Hh2 & Hnew & Hs2).
    set (layer := {| weights := wts; biases := bs; layer_input_size := cur;
                     layer_output_size := out; is_training := true |}) in *.
    destruct (cleanup_on_error h0 ra rb built cells new layer w2 Hra Hrb)
      as (w5 & Hclean & _).
    { by rewrite Hh2, Hh, <- !app_assoc. }
    { done. }
    { by rewrite <- Hlen. }
    destruct (free_layers (built ++ [layer]) w2) as [w3|];
      cbn [mbind option_bind] in Hclean |- *; [|done].
    destruct (free (Some (S (length h0))) w3) as [w4|];
      cbn [mbind option_bind] in Hclean |- *; [|done].
    rewrite Hclean. cbn [mbind option_bind]. by eexists _, _.
  - destruct wts as [pw|], bs as [pb|]; try done.
    pose proof Hw as Hw'. pose proof Hb as Hb'.
    apply calloc_Some in Hw' as (-> & Hh1 & _).
    apply calloc_Some in Hb' as (-> & Hh2 & _).
    destruct (init_weights_loop_total (length (heap_of w))
                (PrimFloat.sqrt (2 / double_of_Z (size_add cur out)))
                (Z.to_nat (size_mul cur out)) 0 w2
                (replicate (Z.to_nat (size_mul cur out)) 0%float))
      as [w3 Hinit].
    { apply block_Some. rewrite Hh2, Hh1, <- app_assoc.
      by rewrite lookup_app_r, Nat.sub_diag. }
    { by rewrite length_replicate. }
    rewrite Hinit. cbn [mbind option_bind].
    destruct (layer_buffers_initialised _ _ _ _ _ _ _ _ _ Hw Hb Hinit)
      as (_ & _ & _ & W & HW & Hh3).
    apply (IH _ _ _ _ (cells ++ [Doubles W;
                         Doubles (replicate (Z.to_nat out) 0%float)])).
    + by rewrite Hh3, Hh, <- !app_assoc.
    + match goal with
      | |- layer_cells _ (_ ++ [?l]) _ =>
          apply (layer_cells_snoc built _ cells l W); try done; cbn;
            by rewrite ?Hh1, ?length_app, ?Nat.add_1_r, Hlen
      end.
    + intros j Hj. apply Hout. lia.
    + lia.
Qed.

(** X13.  When [hidden_layer_sizes] points to at least
    [hidden_layers_count + 1] entries and the layer array of
    [hidden_layers_count + 2] structs fits in a [size_t],
    [agi_create_neural_network] is defined whatever the allocator and
    [rand] answer: it returns a network or [NULL], and never reads or
    writes outside a block it owns. *)
Theorem create_is_defined :
  ∀ (cfg : agi_neural_config_t) (hs : list Z) (w : world),
    hidden_layer_sizes cfg = Some hs →
    (0 <= hidden_layers_count cfg)%Z →
    ((hidden_layers_count cfg + 2) * sizeof_agi_neural_layer_t < SIZE_MODULUS)%Z →
    S (Z.to_nat (hidden_layers_count cfg)) ≤ length hs →
    ∃ (r : option agi_neural_network_t) (w' : world),
      agi_create_neural_network (Some cfg) w = Some (r, w').
Proof.
  intros cfg hs w Hhs Hc0 Hfit Hlen.
  unfold agi_create_neural_network.
  destruct (malloc sizeof_agi_neural_network_t w) as [[pn|] w1] eqn:Hn;
    [|by eexists _, _].
  apply malloc_Some in Hn as (-> & Hh1 & _).
  destruct (malloc _ w1) as [[pl|] w2] eqn:Hl.
  - apply malloc_Some in Hl as (-> & Hh2 & _).
    set (k := Z.to_nat (hidden_layers_count cfg)) in *.
    assert (size_add (hidden_layers_count cfg) 2 = Z.of_nat (S (S k))) as Hlc.
    { unfold size_add, size_wrap, k, sizeof_agi_neural_layer_t in *.
      rewrite Z.mod_small by lia. lia. }
    assert (size_sub (Z.of_nat (S (S k))) 1 = Z.of_nat (S k)) as Hlast.
    { unfold size_sub, size_wrap. rewrite Z.mod_small; [lia|].
      unfold SIZE_MODULUS, k, sizeof_agi_neural_layer_t in *. lia. }
    rewrite Hlc, Nat2Z.id, Hh1, length_app, Nat.add_1_r.
    destruct (create_layers_defined cfg (Z.of_nat (S (S k))) (heap_of w)
                (Raw sizeof_agi_neural_network_t)
                (Raw (size_mul (Z.of_nat (S (S k))) sizeof_agi_neural_layer_t))
                (size_mul (Z.of_nat (S (S k))) sizeof_agi_neural_layer_t)
                (S (S k)) eq_refl eq_refl 0 (input_size cfg) [] w2 [])
      as (r & w3 & ->).
    + by rewrite app_nil_r, Hh2, Hh1, Hlc, <- app_assoc.
    + done.
    + intros j Hj. unfold layer_output_size_at, hidden_layer_size.
      rewrite Hhs, Hlast. cbn [mbind option_bind].
      destruct (decide (j = 0)) as [->|Hj0].
      * apply lookup_lt_is_Some_2. lia.
      * destruct (Z.eqb_spec (Z.of_nat j) (Z.of_nat (S k))); [done|].
        apply lookup_lt_is_Some_2. lia.
    + unfold size_mul, size_wrap. rewrite Z.mod_small; [lia|].
      unfold k, sizeof_agi_neural_layer_t in *. lia.
    + cbn [mbind option_bind]. destruct r as [ls|]; [|by eexists _, _].
      destruct (calloc (input_size cfg) _ w3) as [ib w4].
      destruct (calloc (output_size cfg) _ w4) as [ob w5].
      destruct (calloc (output_size cfg) _ w5) as [gb w6].
      by eexists _, _.
  - apply malloc_None in Hl as [Hh2 _].
    destruct (free_at w2 (heap_of w) [] (Raw sizeof_agi_neural_network_t))
      as (w3 & -> & _); [by rewrite Hh2, Hh1 | done |].
    by eexists _, _.
Qed.

Lemma create_is_defined_witness :
  ∃ (r : option agi_neural_network_t) (w' : world),
    agi_create_neural_network (Some (config_3_4_2_then 7))
      (world_granting [true; true; false]) = Some (r, w').
Proof.
  apply (create_is_defined (config_3_4_2_then 7) [4; 7]%Z).
  - reflexivity.
  - cbn. lia.
  - reflexivity.
  - cbn. lia.
Defined.

(** ** Scratch buffers that were refused *)

Lemma memcpy_null_destination src (size : Z) (h : list cell) :
  (0 < size)%Z → (size * sizeof_double < SIZE_MODULUS)%Z →
  memcpy None src (size_mul size sizeof_double) h = None.
Proof.
  intros H0 Hfit. unfold memcpy, size_mul, size_wrap.
  rewrite Z.mod_small by (unfold sizeof_double in *; lia).
  rewrite Z.div_mul by done.
  rewrite decide_False by lia. done.
Qed.

(** X14.  Construction does not look at what the three scratch [calloc]s
    return.  A network it returned with [input_buffer = NULL] cannot be
    run: for an [input_size] that is not zero, [agi_forward_pass] on any
    input and output hands the null pointer to [memcpy] as its
    destination. *)
Theorem forward_pass_without_input_buffer :
  ∀ (cfg : agi_neural_config_t) (w : world) (net : agi_neural_network_t)
    (w' : world) (pin pout : nat) (batch_size : Z) (h : list cell),
    agi_create_neural_network (Some cfg) w = Some (Some net, w') →
    input_buffer net = None →
    (0 < input_size cfg)%Z → (input_size cfg * sizeof_double < SIZE_MODULUS)%Z →
    agi_forward_pass (Some net) (Some pin) (Some pout) batch_size h = None.
Proof.
  intros cfg w net w' pin pout batch_size h Hrun Hnull H0 Hfit.
  destruct (create_spec _ _ _ _ Hrun)
    as (cells & ci & co & cg & _ & _ & _ & Hcfg & _).
  unfold agi_forward_pass. cbn [is_null orb].
  by rewrite Hnull, Hcfg, memcpy_null_destination.
Qed.

Lemma forward_pass_without_input_buffer_witness :
  ∃ (net : agi_neural_network_t) (w' : world),
    agi_create_neural_network (Some config_2_2_2)
      (world_granting [true; true; true; true; true; true; true; true; false])
    = Some (Some net, w') ∧
    input_buffer net = None ∧
    agi_forward_pass (Some net) (Some 10) (Some 11) 1
      (heap_of w' ++ caller_buffers 1 2) = None.
Proof.
  eexists _, _.
  match goal with
  | |- ?A ∧ _ => assert A as Hrun by (vm_compute; reflexivity)
  end.
  split; [exact Hrun|]. split; [reflexivity|].
  apply (forward_pass_without_input_buffer _ _ _ _ _ _ _ _ Hrun).
  - reflexivity.
  - reflexivity.
  - reflexivity.
Defined.

(** ** Use after teardown *)

Lemma lookup_freed (h0 cells : list cell) (i : nat) :
  i < length cells → (h0 ++ freed cells) !! (length h0 + i) = Some Freed.
Proof.
  intros Hi. rewrite lookup_app_r by lia.
  replace (length h0 + i - length h0) with i by lia.
  unfold freed. by apply lookup_replicate_2.
Qed.

Lemma free_freed (w : world) (b : nat) :
  heap_of w !! b = Some Freed → free (Some b) w = None.
Proof. intros Hb. unfold free. by rewrite Hb. Qed.

Lemma memcpy_freed_destination (h : list cell) d src (size : Z) :
  h !! d = Some Freed →
  (0 < size)%Z → (size * sizeof_double < SIZE_MODULUS)%Z →
  memcpy (Some d) src (size_mul size sizeof_double) h = None.
Proof.
  intros Hd H0 Hfit. unfold memcpy, size_mul, size_wrap.
  rewrite Z.mod_small by (unfold sizeof_double in *; lia).
  rewrite Z.div_mul by done.
  rewrite decide_False by lia.
  destruct src as [s|]; cbn [mbind option_bind]; [|done].
  destruct (block h s); cbn [mbind option_bind]; [|done].
  unfold block. by rewrite Hd.
Qed.

(** X15.  [agi_destroy_neural_network] frees the blocks of a constructed
    network and leaves every pointer in it as it was.  Destroying the
    network a second time frees a freed block, and a forward pass after
    the teardown (for an [input_size] that is not zero) copies the input
    into freed memory: both are undefined. *)
Theorem use_after_destroy_is_undefined :
  ∀ (cfg : agi_neural_config_t) (w : world) (net : agi_neural_network_t)
    (w' w'' : world) (e : agi_error_t) (pin pout : nat) (batch_size : Z),
    agi_create_neural_network (Some cfg) w = Some (Some net, w') →
    agi_destroy_neural_network (Some net) w' = Some (e, w'') →
    agi_destroy_neural_network (Some net) w'' = None ∧
    ((0 < input_size cfg)%Z → (input_size cfg * sizeof_double < SIZE_MODULUS)%Z →
     agi_forward_pass (Some net) (Some pin) (Some pout) batch_size (heap_of w'')
     = None).
Proof.
  intros cfg w net w' w'' e pin pout batch_size Hrun Hdestroy.
  destruct (destroy_after_create _ _ _ _ Hrun) as (w2 & Hd & Hh'' & _).
  rewrite Hd in Hdestroy. injection Hdestroy as _ <-.
  destruct (create_spec _ _ _ _ Hrun)
    as (cells & ci & co & cg & Hh & Hself & Hlb & Hcfg & _ & Hlen & Hcells & _ &
        Hi & _).
  set (h0 := heap_of w) in *.
  rewrite Hh, drop_app_length in Hh''.
  match type of Hh'' with _ = _ ++ freed ?n => set (new := n) in * end.
  assert (length new = 2 + length cells + length ci + length co + length cg)
    as Hnew by (unfold new; rewrite !length_app; cbn [length]; lia).
  split.
  - unfold agi_destroy_neural_network.
    destruct (layers net) as [|l ls] eqn:Hls.
    + rewrite <- Hlen. cbn [length destroy_layers_loop mbind option_bind].
      rewrite Hlb, (free_freed w2); [done|].
      rewrite Hh''. replace (S (length h0)) with (length h0 + 1) by lia.
      apply lookup_freed. lia.
    + rewrite <- Hlen. cbn [length destroy_layers_loop lookup list_lookup].
      cbn [mbind option_bind].
      destruct cells as [|[W| |] [|[B| |] cells]]; try done.
      destruct Hcells as (-> & _).
      rewrite (free_freed w2); [done|].
      rewrite Hh''. replace (S (S (length h0))) with (length h0 + 2) by lia.
      apply lookup_freed. cbn [length] in Hnew. lia.
  - intros H0 Hfit. unfold agi_forward_pass. cbn [is_null orb]. rewrite Hcfg.
    destruct Hi as [[-> _] | (-> & -> & _)].
    + by rewrite memcpy_null_destination.
    + rewrite (memcpy_freed_destination (heap_of w2)); [done| |done..].
      rewrite Hh''.
      replace (S (S (length h0)) + length cells)
        with (length h0 + (2 + length cells)) by lia.
      apply lookup_freed. cbn [length] in Hnew. lia.
Qed.

Lemma use_after_destroy_is_undefined_witness :
  ∃ (net : agi_neural_network_t) (w' w'' : world),
    built_2_2_2 modest_draws = Some (Some net, w') ∧
    agi_destroy_neural_network (Some net) w' = Some (AGI_SUCCESS, w'') ∧
    agi_destroy_neural_network (Some net) w'' = None ∧
    agi_forward_pass (Some net) (Some 0) (Some 1) 1 (heap_of w'') = None.
Proof.
  eexists _, _, _.
  match goal with
  | |- ?A ∧ _ => assert A as Hrun by (vm_compute; reflexivity)
  end.
  split; [exact Hrun|].
  match goal with
  | |- ?A ∧ _ => assert A as Hdestroy by (vm_compute; reflexivity)
  end.
  split; [exact Hdestroy|].
  destruct (use_after_destroy_is_undefined _ _ _ _ _ _ 0 1 1 Hrun Hdestroy)
    as [Htwice Hforward].
  split; [exact Htwice|]. apply Hforward; reflexivity.
Defined.

(* ================================================================== *)
(** * Further properties of the forward and backward passes            *)
(* ================================================================== *)

(** X16.  On a network that is ready to run, [agi_forward_pass] returns
    [AGI_SUCCESS] and the first [output_size] elements of the caller's
    output are the values of the layers applied in turn to the first
    [input_size] elements of the input, each layer being
    [relu (W x + b)] with the sums accumulated left to right.  The output
    keeps its length, and outside the two scratch buffers and the output
    the heap is as before: no weight and no bias is written. *)
Theorem forward_pass_computes_the_layers :
  ∀ (net : agi_neural_network_t) (h : list cell) (pin pout : nat)
    (X O : list float) (batch_size : Z),
    network_ready net h →
    block h pin = Some X → Z.to_nat (input_size (config net)) ≤ length X →
    block h pout = Some O → Z.to_nat (output_size (config net)) ≤ length O →
    ∃ (h' : list cell) (out : list float),
      agi_forward_pass (Some net) (Some pin) (Some pout) batch_size h
      = Some (AGI_SUCCESS, h') ∧
      block h' pout = Some out ∧ length out = length O ∧
      take (Z.to_nat (output_size (config net))) out
      = take (Z.to_nat (output_size (config net)))
          (foldl (λ v l, layer_values h l v)
             (take (Z.to_nat (input_size (config net))) X) (layers net)) ∧
      (∀ p, input_buffer net ≠ Some p → output_buffer net ≠ Some p → p ≠ pout →
            h' !! p = h !! p).
Proof.
  intros net h pin pout X O batch_size Hready HX HlX HO HlO.
  destruct (agi_forward_pass_spec net h pin pout X O batch_size Hready HX HlX HO HlO)
    as (h' & r & Hrun & Hout & _ & Hframe & Hlens).
  pose proof (length_forward_values net h X Hready HlX) as HlFV.
  exists h', (forward_values net h X ++ r).
  split; [done|]. split; [done|]. split; [|split; [|done]].
  - destruct (Hlens pout O HO) as (O' & HO' & <-). congruence.
  - by rewrite take_app_length'.
Qed.

Lemma forward_pass_computes_the_layers_witness :
  ∃ (net : agi_neural_network_t) (w' : world) (h' : list cell)
    (out : list float),
    built_2_2_2 modest_draws = Some (Some net, w') ∧
    agi_forward_pass (Some net) (Some 11) (Some 12) 1
      (heap_of w' ++ caller_buffers 1 2) = Some (AGI_SUCCESS, h') ∧
    block h' 12 = Some out ∧
    take 2 out
    = take 2 (foldl (λ v l, layer_values (heap_of w' ++ caller_buffers 1 2) l v)
                (take 2 [1; 2]%float) (layers net)).
Proof.
  eexists _, _.
  match goal with
  | |- ∃ h' out, ?A ∧ _ => assert A as Hbuilt by (vm_compute; reflexivity)
  end.
  match type of Hbuilt with
  | _ = Some (Some ?net, ?w') =>
      assert (network_ready net (heap_of w' ++ caller_buffers 1 2)) as Hready;
      [apply (create_network_ready _ _ _ _ _ Hbuilt);
       [discriminate | discriminate | cbn; lia | cbn; lia
       | cbn; unfold SIZE_MODULUS; lia | cbn; lia]
      |destruct (forward_pass_computes_the_layers net
                   (heap_of w' ++ caller_buffers 1 2) 11 12
                   [1%float; 2%float] [0%float; 0%float] 1 Hready)
         as (h' & out & Hrun & Hout & _ & Hvalues & _)]
  end.
  - reflexivity.
  - cbn. lia.
  - reflexivity.
  - cbn. lia.
  - exists h', out. split; [exact Hbuilt|]. split; [exact Hrun|].
    split; [exact Hout | exact Hvalues].
Defined.

(** ** The output layer is rectified too *)

Lemma layer_values_nonneg (h : list cell) l x :
  Forall (λ v, (0 <=? v)%float = true) (layer_values h l x).
Proof.
  unfold layer_values.
  destruct (weights l) as [pw|], (biases l) as [pb|]; try by constructor.
  destruct (block h pw) as [W|], (block h pb) as [B|]; try by constructor.
  unfold layer_out. apply Forall_fmap, Forall_forall. intros v _.
  apply relu_nonneg.
Qed.

Lemma network_values_nonneg (h : list cell) ls x :
  ls ≠ [] → Forall (λ v, (0 <=? v)%float = true) (network_values h ls x).
Proof.
  destruct ls as [|l ls _] using rev_ind; [done|]. intros _.
  unfold network_values. rewrite foldl_app. cbn [foldl].
  apply layer_values_nonneg.
Qed.

(** X17.  The ReLU of the layer loop is applied to every layer, the last
    one included: each of the [output_size] values that
    [agi_forward_pass] hands to the caller satisfies [v >= 0.0], so none
    is negative and none is a NaN. *)
Theorem forward_output_is_never_negative :
  ∀ (net : agi_neural_network_t) (h : list cell) (pin pout : nat)
    (X O : list float) (batch_size : Z),
    network_ready net h → layers net ≠ [] →
    block h pin = Some X → Z.to_nat (input_size (config net)) ≤ length X →
    block h pout = Some O → Z.to_nat (output_size (config net)) ≤ length O →
    ∃ (h' : list cell) (out : list float),
      agi_forward_pass (Some net) (Some pin) (Some pout) batch_size h
      = Some (AGI_SUCCESS, h') ∧
      block h' pout = Some out ∧
      Forall (λ v, (0 <=? v)%float = true)
        (take (Z.to_nat (output_size (config net))) out).
Proof.
  intros net h pin pout X O batch_size Hready Hls HX HlX HO HlO.
  destruct (agi_forward_pass_spec net h pin pout X O batch_size Hready HX HlX HO HlO)
    as (h' & r & Hrun & Hout & _).
  pose proof (length_forward_values net h X Hready HlX) as HlFV.
  exists h', (forward_values net h X ++ r).
  split; [done|]. split; [done|].
  rewrite take_app_length' by done.
  unfold forward_values. apply Forall_take. by apply network_values_nonneg.
Qed.

Lemma forward_output_is_never_negative_witness :
  ∃ (net : agi_neural_network_t) (w' : world) (h' : list cell)
    (out : list float),
    built_2_2_2 modest_draws = Some (Some net, w') ∧
    agi_forward_pass (Some net) (Some 11) (Some 12) 1
      (heap_of w' ++ caller_buffers (-1) (-2)) = Some (AGI_SUCCESS, h') ∧
    block h' 12 = Some out ∧
    Forall (λ v, (0 <=? v)%float = true) (take 2 out).
Proof.
  eexists _, _.
  match goal with
  | |- ∃ h' out, ?A ∧ _ => assert A as Hbuilt by (vm_compute; reflexivity)
  end.
  match type of Hbuilt with
  | _ = Some (Some ?net, ?w') =>
      assert (network_ready net (heap_of w' ++ caller_buffers (-1) (-2)))
        as Hready;
      [apply (create_network_ready _ _ _ _ _ Hbuilt);
       [discriminate | discriminate | cbn; lia | cbn; lia
       | cbn; unfold SIZE_MODULUS; lia | cbn; lia]
      |destruct (forward_output_is_never_negative net
                   (heap_of w' ++ caller_buffers (-1) (-2)) 11 12
                   [(-1)%float; (-2)%float] [0%float; 0%float] 1 Hready)
         as (h' & out & Hrun & Hout & Hpos)]
  end.
  - discriminate.
  - reflexivity.
  - cbn. lia.
  - reflexivity.
  - cbn. lia.
  - exists h', out. split; [exact Hbuilt|]. split; [exact Hrun|].
    split; [exact Hout | exact Hpos].
Defined.

(** ** The pass keeps no state *)

(** X18.  What the scratch buffers and the output hold before the call
    does not matter: a second forward pass on the same input, run on the
    heap the first one left, hands the caller the same [output_size]
    values. *)
Theorem forward_pass_is_repeatable :
  ∀ (net : agi_neural_network_t) (h : list cell) (pin pout : nat)
    (X O : list float) (b1 b2 : Z),
    network_ready net h →
    block h pin = Some X → Z.to_nat (input_size (config net)) ≤ length X →
    block h pout = Some O → Z.to_nat (output_size (config net)) ≤ length O →
    input_buffer net ≠ Some pin → output_buffer net ≠ Some pin →
    input_buffer net ≠ Some pout → output_buffer net ≠ Some pout →
    pin ≠ pout →
    apart_from_parameters (layers net) pout →
    ∃ (h1 h2 : list cell) (out1 out2 : list float),
      agi_forward_pass (Some net) (Some pin) (Some pout) b1 h
      = Some (AGI_SUCCESS, h1) ∧
      agi_forward_pass (Some net) (Some pin) (Some pout) b2 h1
      = Some (AGI_SUCCESS, h2) ∧
      block h1 pout = Some out1 ∧ block h2 pout = Some out2 ∧
      take (Z.to_nat (output_size (config net))) out2
      = take (Z.to_nat (output_size (config net))) out1.
Proof.
  intros net h pin pout X O b1 b2 Hready HX HlX HO HlO
         Hina Hinb Houta Houtb Hio Hapart.
  destruct (agi_forward_pass_spec net h pin pout X O b1 Hready HX HlX HO HlO)
    as (h1 & r1 & Hrun1 & Hout1 & _ & Hframe1 & Hlens1).
  destruct (network_ready_after net h h1 pout Hready Houta Houtb Hapart
              Hframe1 Hlens1) as [Hready1 Hvalues].
  assert (block h1 pin = Some X) as HX1.
  { rewrite (block_agree h h1); [done|]. by apply Hframe1. }
  pose proof (length_forward_values net h X Hready HlX) as HlFV.
  assert (Z.to_nat (output_size (config net))
          ≤ length (forward_values net h X ++ r1)) as HlO1
    by (rewrite length_app; lia).
  destruct (agi_forward_pass_spec net h1 pin pout X _ b2 Hready1 HX1 HlX
              Hout1 HlO1) as (h2 & r2 & Hrun2 & Hout2 & _).
  rewrite Hvalues in Hout2.
  exists h1, h2, (forward_values net h X ++ r1), (forward_values net h X ++ r2).
  repeat (split; [done|]).
  by rewrite !take_app_length'.
Qed.

Lemma forward_pass_is_repeatable_witness :
  ∃ (net : agi_neural_network_t) (w' : world) (h1 h2 : list cell)
    (out1 out2 : list float),
    built_2_2_2 modest_draws = Some (Some net, w') ∧
    agi_forward_pass (Some net) (Some 11) (Some 12) 1
      (heap_of w' ++ caller_buffers 1 2) = Some (AGI_SUCCESS, h1) ∧
    agi_forward_pass (Some net) (Some 11) (Some 12) 1 h1
    = Some (AGI_SUCCESS, h2) ∧
    block h1 12 = Some out1 ∧ block h2 12 = Some out2 ∧
    take 2 out2 = take 2 out1.
Proof.
  eexists _, _.
  match goal with
  | |- ∃ h1 h2 out1 out2, ?A ∧ _ =>
      assert A as Hbuilt by (vm_compute; reflexivity)
  end.
  match type of Hbuilt with
  | _ = Some (Some ?net, ?w') =>
      assert (network_ready net (heap_of w' ++ caller_buffers 1 2)) as Hready;
      [apply (create_network_ready _ _ _ _ _ Hbuilt);
       [discriminate | discriminate | cbn; lia | cbn; lia
       | cbn; unfold SIZE_MODULUS; lia | cbn; lia]
      |destruct (forward_pass_is_repeatable net
                   (heap_of w' ++ caller_buffers 1 2) 11 12
                   [1%float; 2%float] [0%float; 0%float] 1 1 Hready)
         as (h1 & h2 & out1 & out2 & Hrun1 & Hrun2 & Hout1 & Hout2 & Hsame)]
  end.
  - reflexivity.
  - cbn. lia.
  - reflexivity.
  - cbn. lia.
  - discriminate.
  - discriminate.
  - discriminate.
  - discriminate.
  - lia.
  - repeat constructor; discriminate.
  - exists h1, h2, out1, out2. split; [exact Hbuilt|].
    split; [exact Hrun1|]. split; [exact Hrun2|]. split; [exact Hout1|].
    split; [exact Hout2 | exact Hsame].
Defined.

(** ** The backward pass *)

(** X19.  [agi_backward_pass] writes [target[i] - input[i]] into the
    first [output_size] elements of [gradients] and nothing else: the
    rest of the gradient buffer and every other block, the weights and
    biases of every layer among them, are as before. *)
Theorem backward_pass_writes_the_residual :
  ∀ (net : agi_neural_network_t) (h : list cell) (pin pt pg : nat)
    (I T G : list float) (batch_size : Z),
    block h pin = Some I → block h pt = Some T → block h pg = Some G →
    Z.to_nat (output_size (config net)) ≤ length I →
    Z.to_nat (output_size (config net)) ≤ length T →
    Z.to_nat (output_size (config net)) ≤ length G →
    agi_backward_pass (Some net) (Some pin) (Some pt) (Some pg) batch_size h
    = Some (AGI_SUCCESS,
            set_block h pg
              (zip_with PrimFloat.sub
                 (take (Z.to_nat (output_size (config net))) T)
                 (take (Z.to_nat (output_size (config net))) I)
               ++ drop (Z.to_nat (output_size (config net))) G)).
Proof.
  intros net h pin pt pg I T G batch_size HI HT HG HlI HlT HlG.
  unfold agi_backward_pass. cbn [is_null orb].
  rewrite residual_loop_elementwise.
  by rewrite (elementwise_loop_correct _ pt pin pg h T I G) by done.
Qed.

Definition residual_sample_heap : list cell :=
  [Doubles [1; 2]%float; Doubles [5; 3]%float; Doubles [9; 9; 9]%float].

Lemma backward_pass_writes_the_residual_witness :
  ∃ (net : agi_neural_network_t) (w' : world),
    built_2_2_2 modest_draws = Some (Some net, w') ∧
    agi_backward_pass (Some net) (Some 0) (Some 1) (Some 2) 1
      residual_sample_heap
    = Some (AGI_SUCCESS,
            [Doubles [1; 2]%float; Doubles [5; 3]%float;
             Doubles [4; 1; 9]%float]).
Proof.
  eexists _, _.
  match goal with
  | |- ?A ∧ _ => assert A as Hbuilt by (vm_compute; reflexivity)
  end.
  split; [exact Hbuilt|].
  match type of Hbuilt with
  | _ = Some (Some ?net, _) =>
      apply (backward_pass_writes_the_residual net residual_sample_heap 0 1 2
               [1; 2]%float [5; 3]%float [9; 9; 9]%float 1)
  end.
  - reflexivity.
  - reflexivity.
  - reflexivity.
  - cbn. lia.
  - cbn. lia.
  - cbn. lia.
Defined.

(* ================================================================== *)
(** * Further properties of training                                   *)
(* ================================================================== *)

(** ** The value of the loss *)

(** What [total_loss += diff * diff] accumulates over a target and an
    output, left to right from [acc]. *)
Definition squared_error (T O : list float) (acc : float) : float :=
  fold_left (λ s p, (s + (p.1 - p.2) * (p.1 - p.2))%float) (zip T O) acc.

Lemma loss_loop_spec (h : list cell) pt po (T Ob : list float) n : ∀ i acc,
  block h pt = Some T → block h po = Some Ob →
  i + n ≤ length T → i + n ≤ length Ob →
  loss_loop (Some pt) (Some po) i n acc h
  = Some (squared_error (take n (drop i T)) (take n (drop i Ob)) acc).
Proof.
  induction n as [|n IH]; intros i acc HT HO HlT HlO; [done|].
  cbn [loss_loop].
  rewrite (load_block h pt T), (load_block h po Ob) by done.
  destruct (lookup_lt_is_Some_2 T i) as [t Ht]; [lia|].
  destruct (lookup_lt_is_Some_2 Ob i) as [o Ho]; [lia|].
  rewrite Ht, Ho. cbn [mbind option_bind].
  rewrite IH by (done || lia).
  rewrite (drop_S T t i), (drop_S Ob o i) by done.
  reflexivity.
Qed.

(** [agi_train_batch] on a ready network: the loss it returns, what it
    leaves in the gradient buffer, and what it leaves alone. *)
Lemma agi_train_batch_spec net (h : list cell) pin pt X T batch_size :
  network_ready net h →
  block h pin = Some X → Z.to_nat (input_size (config net)) ≤ length X →
  block h pt = Some T → Z.to_nat (output_size (config net)) ≤ length T →
  input_buffer net ≠ Some pt → output_buffer net ≠ Some pt →
  ∃ h2 : list cell,
    agi_train_batch (Some net) (Some pin) (Some pt) batch_size h
    = Some ((squared_error (take (Z.to_nat (output_size (config net))) T)
               (forward_values net h X) 0
             / double_of_Z (output_size (config net)))%float, h2) ∧
    (∀ g, gradient_buffer net = Some g →
          ∃ G, block h2 g = Some G ∧
               take (Z.to_nat (output_size (config net))) G
               = zip_with PrimFloat.sub
                   (take (Z.to_nat (output_size (config net))) T)
                   (forward_values net h X)) ∧
    (∀ p, input_buffer net ≠ Some p → output_buffer net ≠ Some p →
          gradient_buffer net ≠ Some p → h2 !! p = h !! p) ∧
    (∀ p l, block h p = Some l →
            ∃ l', block h2 p = Some l' ∧ length l' = length l).
Proof.
  intros Hready HX HlX HT HlT Hta Htb.
  pose proof Hready as (a & b & A & B & Ha & Hb & Hab & HA & HB & _ & _ & _ &
                        _ & _ & _ & _ & _ & HlB & Hgrad).
  destruct (agi_forward_pass_spec net h pin b X B batch_size Hready HX HlX HB HlB)
    as (h1 & r & Hfp & Hout & Hlen1 & Hframe1 & Hlens1).
  pose proof (length_forward_values net h X Hready HlX) as HlFV.
  set (FV := forward_values net h X) in *.
  set (n_out := Z.to_nat (output_size (config net))) in *.
  assert (block h1 pt = Some T) as HT1.
  { rewrite (block_agree h h1); [done|]. apply Hframe1; congruence. }
  unfold agi_train_batch. cbn [is_null orb]. rewrite Hb, Hfp.
  cbn [mbind option_bind fst snd]. fold n_out.
  rewrite (loss_loop_spec h1 pt b T (FV ++ r) n_out 0 0%float HT1 Hout)
    by (rewrite ?length_app; lia).
  cbn [mbind option_bind]. rewrite !drop_0, take_app_length' by done.
  unfold agi_backward_pass.
  destruct Hgrad as [Hg | (g & G & Hg & HG & HlG)]; rewrite Hg; cbn [is_null orb].
  { exists h1. split; [done|]. split; [done|]. split.
    - intros p Hpa Hpb _. apply Hframe1; congruence.
    - exact Hlens1. }
  destruct (Hlens1 g G HG) as (G1 & HG1 & HlG1).
  rewrite residual_loop_elementwise. fold n_out.
  rewrite (elementwise_loop_correct _ pt b g h1 T (FV ++ r) G1 n_out HT1 Hout HG1)
    by (rewrite ?length_app; lia).
  cbn [mbind option_bind fst snd].
  pose proof (block_lt _ _ _ HG1) as Hglt.
  assert (length (written PrimFloat.sub T (FV ++ r) G1 n_out) = length G1)
    as Hlw by (apply length_written; rewrite ?length_app; lia).
  eexists. split; [done|]. split; [|split].
  - intros g' [= <-]. eexists. split; [by apply block_set_block_eq|].
    unfold written. rewrite (take_app_length' FV r n_out (eq_sym HlFV)).
    rewrite take_app_length'; [done|].
    rewrite length_zip_with, length_take. lia.
  - intros p Hpa Hpb Hpg. unfold set_block.
    rewrite list_lookup_insert_ne by congruence. apply Hframe1; congruence.
  - intros p l Hl. destruct (Hlens1 p l Hl) as (l1 & Hl1 & Hll1).
    destruct (decide (p = g)) as [->|Hpg].
    + eexists. split; [by apply block_set_block_eq|]. congruence.
    + exists l1. by rewrite block_set_block_ne.
Qed.

(** X20.  On a ready network and a target that is none of its scratch
    buffers, [agi_train_batch] returns the sum of the squared differences
    between the first [output_size] target elements and the forward
    output on the input, accumulated left to right from [0.0] and divided
    by [(double) output_size]; the gradient buffer, when there is one,
    receives the differences [target[i] - output[i]]. *)
Theorem train_batch_returns_mean_squared_error :
  ∀ (net : agi_neural_network_t) (h : list cell) (pin pt : nat)
    (X T : list float) (batch_size : Z),
    network_ready net h →
    block h pin = Some X → Z.to_nat (input_size (config net)) ≤ length X →
    block h pt = Some T → Z.to_nat (output_size (config net)) ≤ length T →
    input_buffer net ≠ Some pt → output_buffer net ≠ Some pt →
    ∃ h2 : list cell,
      agi_train_batch (Some net) (Some pin) (Some pt) batch_size h
      = Some ((squared_error (take (Z.to_nat (output_size (config net))) T)
                 (forward_values net h X) 0
               / double_of_Z (output_size (config net)))%float, h2) ∧
      (∀ g, gradient_buffer net = Some g →
            ∃ G, block h2 g = Some G ∧
                 take (Z.to_nat (output_size (config net))) G
                 = zip_with PrimFloat.sub
                     (take (Z.to_nat (output_size (config net))) T)
                     (forward_values net h X)).
Proof.
  intros net h pin pt X T batch_size Hready HX HlX HT HlT Hta Htb.
  destruct (agi_train_batch_spec net h pin pt X T batch_size Hready HX HlX HT HlT
              Hta Htb) as (h2 & Hrun & Hgrad & _).
  by exists h2.
Qed.

(** The caller's input [(1, 2)] and target [(3, 5)]. *)
Definition training_pair : list cell :=
  [Doubles [1; 2]%float; Doubles [3; 5]%float].

Lemma train_batch_returns_mean_squared_error_witness :
  ∃ (net : agi_neural_network_t) (w' : world) (h2 : list cell),
    built_2_2_2 modest_draws = Some (Some net, w') ∧
    agi_train_batch (Some net) (Some 11) (Some 12) 1 (heap_of w' ++ training_pair)
    = Some ((squared_error [3; 5]%float
               (forward_values net (heap_of w' ++ training_pair) [1; 2]%float) 0
             / 2)%float, h2).
Proof.
  eexists _, _.
  match goal with
  | |- ∃ h2, ?A ∧ _ => assert A as Hbuilt by (vm_compute; reflexivity)
  end.
  match type of Hbuilt with
  | _ = Some (Some ?net, ?w') =>
      assert (network_ready net (heap_of w' ++ training_pair)) as Hready;
      [apply (create_network_ready _ _ _ _ _ Hbuilt);
       [discriminate | discriminate | cbn; lia | cbn; lia
       | cbn; unfold SIZE_MODULUS; lia | cbn; lia]
      |destruct (train_batch_returns_mean_squared_error net
                   (heap_of w' ++ training_pair) 11 12
                   [1%float; 2%float] [3%float; 5%float] 1 Hready)
         as (h2 & Hrun & _)]
  end.
  - reflexivity.
  - cbn. lia.
  - reflexivity.
  - cbn. lia.
  - discriminate.
  - discriminate.
  - exists h2. split; [exact Hbuilt | exact Hrun].
Defined.

(** ** Training does not learn *)

Lemma layers_ready_parameters (h : list cell) : ∀ ls a b width len_a len_b l p,
  layers_ready h a b ls width len_a len_b → l ∈ ls →
  weights l = Some p ∨ biases l = Some p → p ≠ a ∧ p ≠ b.
Proof.
  induction ls as [|l0 ls IH]; intros a b width len_a len_b l p Hr Hl Hp;
    [by apply elem_of_nil in Hl|].
  destruct Hr as ((pw & pb & W & B0 & Hw & Hbi & _ & _ & ? & ? & ? & ? & _) &
                  _ & _ & Hr).
  apply elem_of_cons in Hl as [->|Hl].
  - destruct Hp; split; congruence.
  - destruct (IH _ _ _ _ _ l p Hr Hl Hp). done.
Qed.

(** X21.  [agi_train_batch] writes the scratch buffers and the gradient
    buffer and nothing else: every weight and every bias is as before the
    call, so training the network again on the same batch returns the
    same loss. *)
Theorem train_batch_leaves_the_parameters :
  ∀ (net : agi_neural_network_t) (h : list cell) (pin pt g : nat)
    (X T : list float) (b1 b2 : Z),
    network_ready net h →
    gradient_buffer net = Some g →
    input_buffer net ≠ Some g → output_buffer net ≠ Some g →
    apart_from_parameters (layers net) g →
    block h pin = Some X → Z.to_nat (input_size (config net)) ≤ length X →
    block h pt = Some T → Z.to_nat (output_size (config net)) ≤ length T →
    input_buffer net ≠ Some pin → output_buffer net ≠ Some pin → pin ≠ g →
    input_buffer net ≠ Some pt → output_buffer net ≠ Some pt → pt ≠ g →
    ∃ (loss : float) (h2 h3 : list cell),
      agi_train_batch (Some net) (Some pin) (Some pt) b1 h = Some (loss, h2) ∧
      (∀ l p, l ∈ layers net → weights l = Some p ∨ biases l = Some p →
              block h2 p = block h p) ∧
      agi_train_batch (Some net) (Some pin) (Some pt) b2 h2 = Some (loss, h3).
Proof.
  intros net h pin pt g X T b1 b2 Hready Hg Hga Hgb Hapart HX HlX HT HlT
         Hina Hinb Hing Hta Htb Htg.
  destruct (agi_train_batch_spec net h pin pt X T b1 Hready HX HlX HT HlT Hta Htb)
    as (h2 & Hrun & _ & Hframe & Hlens).
  assert (∀ p, input_buffer net ≠ Some p → output_buffer net ≠ Some p → p ≠ g →
               h2 !! p = h !! p) as Hframe'.
  { intros p Hpa Hpb Hpg. apply Hframe; congruence. }
  destruct (network_ready_after net h h2 g Hready Hga Hgb Hapart Hframe' Hlens)
    as [Hready2 Hvalues].
  assert (block h2 pin = Some X) as HX2
    by (rewrite (block_agree h h2); [done|]; by apply Hframe').
  assert (block h2 pt = Some T) as HT2
    by (rewrite (block_agree h h2); [done|]; by apply Hframe').
  destruct (agi_train_batch_spec net h2 pin pt X T b2 Hready2 HX2 HlX HT2 HlT
              Hta Htb) as (h3 & Hrun2 & _).
  rewrite Hvalues in Hrun2.
  eexists _, h2, h3. split; [exact Hrun|]. split; [|exact Hrun2].
  intros l p Hl Hp.
  destruct Hready as (a & b & A & B & Ha & Hb & _ & _ & _ & _ & _ & _ & _ & _ &
                      _ & Hlayers & _).
  destruct (layers_ready_parameters h _ _ _ _ _ _ l p Hlayers Hl Hp) as [Hpa Hpb].
  apply block_agree, Hframe'; [congruence..|].
  unfold apart_from_parameters in Hapart. rewrite Forall_forall in Hapart.
  destruct (Hapart l Hl) as [Hw Hbi].
  destruct Hp as [Hp|Hp]; congruence.
Qed.

Lemma train_batch_leaves_the_parameters_witness :
  ∃ (net : agi_neural_network_t) (w' : world) (loss : float)
    (h2 h3 : list cell),
    built_2_2_2 modest_draws = Some (Some net, w') ∧
    agi_train_batch (Some net) (Some 11) (Some 12) 1 (heap_of w' ++ training_pair)
    = Some (loss, h2) ∧
    (∀ l p, l ∈ layers net → weights l = Some p ∨ biases l = Some p →
            block h2 p = block (heap_of w' ++ training_pair) p) ∧
    agi_train_batch (Some net) (Some 11) (Some 12) 1 h2 = Some (loss, h3).
Proof.
  eexists _, _.
  match goal with
  | |- ∃ loss h2 h3, ?A ∧ _ => assert A as Hbuilt by (vm_compute; reflexivity)
  end.
  match type of Hbuilt with
  | _ = Some (Some ?net, ?w') =>
      assert (network_ready net (heap_of w' ++ training_pair)) as Hready;
      [apply (create_network_ready _ _ _ _ _ Hbuilt);
       [discriminate | discriminate | cbn; lia | cbn; lia
       | cbn; unfold SIZE_MODULUS; lia | cbn; lia]
      |destruct (train_batch_leaves_the_parameters net
                   (heap_of w' ++ training_pair) 11 12 10
                   [1%float; 2%float] [3%float; 5%float] 1 1 Hready)
         as (loss & h2 & h3 & Hrun & Hsame & Hagain)]
  end.
  - reflexivity.
  - discriminate.
  - discriminate.
  - repeat constructor; discriminate.
  - reflexivity.
  - cbn. lia.
  - reflexivity.
  - cbn. lia.
  - discriminate.
  - discriminate.
  - lia.
  - discriminate.
  - discriminate.
  - lia.
  - exists loss, h2, h3. split; [exact Hbuilt|]. split; [exact Hrun|].
    split; [exact Hsame | exact Hagain].
Defined.

(** ** The sentinel of [agi_train_batch] *)

Lemma double_of_size_sign_clear (n : Z) :
  is_size_t n → sign_clear (Prim2SF (double_of_Z n)).
Proof.
  intros Hn. unfold is_size_t, SIZE_MODULUS in Hn.
  rewrite double_of_size_spec by lia.
  apply binary_normalize_sign_clear. lia.
Qed.

Lemma loss_loop_sign_clear target output (h : list cell) n : ∀ i acc s,
  sign_clear (Prim2SF acc) →
  loss_loop target output i n acc h = Some s → sign_clear (Prim2SF s).
Proof.
  induction n as [|n IH]; intros i acc s Hacc Hrun; cbn [loss_loop] in Hrun.
  { by injection Hrun as <-. }
  destruct (load h target i) as [t|]; cbn [mbind option_bind] in Hrun; [|done].
  destruct (load h output i) as [o|]; cbn [mbind option_bind] in Hrun; [|done].
  eapply IH; [|exact Hrun].
  apply add_sign_clear; [done|]. apply square_sign_clear.
Qed.

(** X22.  Whenever [agi_train_batch] returns, the value is the sentinel
    [-1.0] exactly when the network, the input or the target is [NULL]:
    a loss that was computed is a quotient of a sum of squares by
    [(double) output_size], so its sign bit is clear or it is a NaN. *)
Theorem train_batch_sentinel_is_unambiguous :
  ∀ (network : option agi_neural_network_t) (input target : option nat)
    (batch_size : Z) (h : list cell) (loss : float) (h' : list cell),
    (∀ net, network = Some net → is_size_t (output_size (config net))) →
    agi_train_batch network input target batch_size h = Some (loss, h') →
    (loss = (-1)%float ↔ network = None ∨ input = None ∨ target = None).
Proof.
  intros [net|] input target batch_size h loss h' Hsize Hrun;
    cbn [agi_train_batch] in Hrun.
  2: { injection Hrun as <- <-. split; [by left|done]. }
  destruct (is_null input || is_null target) eqn:Hnull.
  { injection Hrun as <- <-. split; [|done]. intros _. right.
    destruct input, target; try done; (by left) || (by right). }
  assert (sign_clear (Prim2SF loss)) as Hloss.
  { destruct (agi_forward_pass _ _ _ _ _) as [f|];
      cbn [mbind option_bind] in Hrun; [|done].
    destruct (loss_loop _ _ _ _ _ _) as [s|] eqn:Hs;
      cbn [mbind option_bind] in Hrun; [|done].
    destruct (agi_backward_pass _ _ _ _ _ _) as [b|];
      cbn [mbind option_bind] in Hrun; [|done].
    injection Hrun as <- <-.
    apply div_sign_clear.
    - by apply loss_loop_sign_clear in Hs.
    - by apply double_of_size_sign_clear, Hsize. }
  split.
  - intros ->. by vm_compute in Hloss.
  - intros [|[->| ->]]; [done|done|].
    by rewrite orb_true_r in Hnull.
Qed.

Lemma train_batch_sentinel_is_unambiguous_witness :
  ∃ (net : agi_neural_network_t) (w' : world) (loss : float) (h' : list cell),
    built_2_2_2 modest_draws = Some (Some net, w') ∧
    agi_train_batch (Some net) (Some 11) (Some 12) 1 (heap_of w' ++ training_pair)
    = Some (loss, h') ∧
    loss ≠ (-1)%float.
Proof.
  eexists _, _, _, _.
  match goal with
  | |- ?A ∧ _ => assert A as Hbuilt by (vm_compute; reflexivity)
  end.
  split; [exact Hbuilt|].
  match goal with
  | |- ?A ∧ _ => assert A as Hrun by (vm_compute; reflexivity)
  end.
  split; [exact Hrun|].
  intros Hloss.
  match type of Hrun with
  | agi_train_batch (Some ?net) _ _ _ _ = _ =>
      assert (∀ n, Some net = Some n → is_size_t (output_size (config n)))
        as Hsize
        by (intros n [= <-]; vm_compute; split; [discriminate|reflexivity])
  end.
  apply (train_batch_sentinel_is_unambiguous _ _ _ _ _ _ _ Hsize Hrun) in Hloss.
  destruct Hloss as [Hnull | [Hnull | Hnull]]; discriminate Hnull.
Defined.

(** ** The widths a defined forward pass implies *)

(** Every live array of [h] is a live array of the same length in [h']. *)
Definition same_shape (h h' : list cell) : Prop :=
  ∀ p l, block h p = Some l → ∃ l', block h' p = Some l' ∧ length l' = length l.

Lemma same_shape_refl (h : list cell) : same_shape h h.
Proof. intros p l Hl. by exists l. Qed.

Lemma same_shape_trans (h1 h2 h3 : list cell) :
  same_shape h1 h2 → same_shape h2 h3 → same_shape h1 h3.
Proof.
  intros H12 H23 p l Hl.
  destruct (H12 p l Hl) as (l2 & Hl2 & Hlen2).
  destruct (H23 p l2 Hl2) as (l3 & Hl3 & Hlen3).
  exists l3. split; [done|congruence].
Qed.

Lemma store_same_shape (h : list cell) p i v h' :
  store h p i v = Some h' → same_shape h h'.
Proof.
  intros Hs. apply store_Some in Hs as (b & l & -> & Hb & Hi & ->).
  intros q lq Hq. pose proof (block_lt _ _ _ Hb) as Hlt.
  destruct (decide (q = b)) as [->|Hqb].
  - rewrite block_set_block_eq by done. eexists. split; [done|].
    rewrite length_insert. congruence.
  - rewrite block_set_block_ne by done. by exists lq.
Qed.

Lemma elementwise_loop_same_shape op a b r n : ∀ i (h h' : list cell),
  elementwise_loop op a b r i n h = Some h' → same_shape h h'.
Proof.
  induction n as [|n IH]; intros i h h' Hrun; cbn [elementwise_loop] in Hrun.
  { injection Hrun as <-. apply same_shape_refl. }
  destruct (load h a i) as [x|]; cbn [mbind option_bind] in Hrun; [|done].
  destruct (load h b i) as [y|]; cbn [mbind option_bind] in Hrun; [|done].
  destruct (store h r i (op x y)) as [h1|] eqn:Hs;
    cbn [mbind option_bind] in Hrun; [|done].
  eapply same_shape_trans; [by eapply store_same_shape|by eapply IH].
Qed.

Lemma accumulate_loop_same_shape wts cin cout in_size i n : ∀ j (h h' : list cell),
  accumulate_loop wts cin cout in_size i j n h = Some h' → same_shape h h'.
Proof.
  induction n as [|n IH]; intros j h h' Hrun; cbn [accumulate_loop] in Hrun.
  { injection Hrun as <-. apply same_shape_refl. }
  destruct (load h cout i) as [acc|]; cbn [mbind option_bind] in Hrun; [|done].
  destruct (load h wts _) as [wt|]; cbn [mbind option_bind] in Hrun; [|done].
  destruct (load h cin j) as [x|]; cbn [mbind option_bind] in Hrun; [|done].
  destruct (store h cout i _) as [h1|] eqn:Hs;
    cbn [mbind option_bind] in Hrun; [|done].
  eapply same_shape_trans; [by eapply store_same_shape|by eapply IH].
Qed.

(** The matrix-vector loop writes [current_output[i]] for every
    [i < output_size]: where it is defined, the block holds that many
    doubles. *)
Lemma matvec_loop_bound wts cin b in_size n : ∀ i (h h' : list cell) Y,
  matvec_loop wts cin (Some b) in_size i n h = Some h' →
  block h b = Some Y →
  same_shape h h' ∧ (n = 0 ∨ i + n ≤ length Y).
Proof.
  induction n as [|n IH]; intros i h h' Y Hrun HY; cbn [matvec_loop] in Hrun.
  { injection Hrun as <-. split; [apply same_shape_refl | by left]. }
  destruct (store h (Some b) i 0%float) as [h1|] eqn:Hs;
    cbn [mbind option_bind] in Hrun; [|done].
  destruct (accumulate_loop _ _ _ _ _ _ _ h1) as [h2|] eqn:Ha;
    cbn [mbind option_bind] in Hrun; [|done].
  pose proof (store_same_shape _ _ _ _ _ Hs) as S1.
  pose proof (accumulate_loop_same_shape _ _ _ _ _ _ _ _ _ Ha) as S2.
  pose proof (same_shape_trans _ _ _ S1 S2) as S12.
  destruct (S12 b Y HY) as (Y2 & HY2 & HlY2).
  destruct (IH _ _ _ _ Hrun HY2) as [S3 Hn].
  split; [by eapply same_shape_trans|]. right.
  apply store_Some in Hs as (b' & l & [= <-] & Hb & Hi & _).
  assert (l = Y) as -> by congruence. lia.
Qed.

Lemma forward_layer_bound l cin b (h h' : list cell) Y :
  forward_layer l cin (Some b) h = Some h' → block h b = Some Y →
  same_shape h h' ∧ Z.to_nat (layer_output_size l) ≤ length Y.
Proof.
  unfold forward_layer. intros Hrun HY.
  destruct (matvec_loop _ _ _ _ _ _ h) as [h1|] eqn:Hm;
    cbn [mbind option_bind] in Hrun; [|done].
  destruct (bias_loop _ _ _ _ h1) as [h2|] eqn:Hb;
    cbn [mbind option_bind] in Hrun; [|done].
  destruct (matvec_loop_bound _ _ _ _ _ _ _ _ _ Hm HY) as [S1 Hn].
  rewrite bias_loop_elementwise in Hb. rewrite relu_loop_elementwise in Hrun.
  split; [|lia].
  eapply same_shape_trans; [exact S1|].
  eapply same_shape_trans; by eapply elementwise_loop_same_shape.
Qed.

Lemma layers_loop_bound ls n : ∀ idx a b (h : list cell) r A B,
  layers_loop ls idx n (Some a) (Some b) h = Some r →
  block h a = Some A → block h b = Some B →
  same_shape h r.2 ∧
  ∀ j l, j < n → ls !! (idx + j) = Some l →
         Z.to_nat (layer_output_size l)
         ≤ (if Nat.even j then length B else length A).
Proof.
  induction n as [|n IH]; intros idx a b h r A B Hrun HA HB;
    cbn [layers_loop] in Hrun.
  { injection Hrun as <-. split; [apply same_shape_refl | intros; lia]. }
  destruct (ls !! idx) as [l0|] eqn:Hl0; cbn [mbind option_bind] in Hrun; [|done].
  destruct (forward_layer l0 (Some a) (Some b) h) as [h1|] eqn:Hf;
    cbn [mbind option_bind] in Hrun; [|done].
  destruct (forward_layer_bound _ _ _ _ _ _ Hf HB) as [S1 Hw].
  destruct (S1 a A HA) as (A1 & HA1 & HlA1).
  destruct (S1 b B HB) as (B1 & HB1 & HlB1).
  destruct (IH _ _ _ _ _ _ _ Hrun HB1 HA1) as [S2 Hrest].
  split; [by eapply same_shape_trans|].
  intros [|j] l Hj Hl.
  - rewrite Nat.add_0_r in Hl. cbn. congruence.
  - rewrite Nat.even_succ, <- Nat.negb_even.
    replace (idx + S j) with (S idx + j) in Hl by lia.
    specialize (Hrest j l ltac:(lia) Hl).
    destruct (Nat.even j); cbn [negb]; lia.
Qed.

Lemma memcpy_same_shape dst src bytes (h h' : list cell) :
  memcpy dst src bytes h = Some h' → same_shape h h'.
Proof.
  unfold memcpy. case_decide; [intros [= <-]; apply same_shape_refl|].
  destruct dst as [d|], src as [s|]; cbn [mbind option_bind]; try done.
  destruct (block h s) as [ls|]; cbn [mbind option_bind]; [|done].
  destruct (block h d) as [ld|] eqn:Hd; cbn [mbind option_bind]; [|done].
  case_decide as Hn; [|done]. intros [= <-] q lq Hq.
  pose proof (block_lt _ _ _ Hd) as Hlt.
  destruct (decide (q = d)) as [->|Hqd].
  - rewrite block_set_block_eq by done. eexists. split; [done|].
    rewrite length_app, length_take, length_drop.
    assert (lq = ld) as -> by congruence. lia.
  - rewrite block_set_block_ne by done. by exists lq.
Qed.

(** X23.  The layer loop writes the outputs of layer 0, 2, 4, ... to the
    output scratch buffer and those of layer 1, 3, ... to the input
    scratch buffer.  So wherever [agi_forward_pass] is defined, no layer
    is wider than the buffer it is written to: a network with a layer
    wider than that writes past the end of a scratch buffer. *)
Theorem forward_pass_needs_fitting_widths :
  ∀ (net : agi_neural_network_t) (h : list cell) (pin pout a b : nat)
    (A B : list float) (batch_size : Z) (e : agi_error_t) (h' : list cell),
    agi_forward_pass (Some net) (Some pin) (Some pout) batch_size h
    = Some (e, h') →
    input_buffer net = Some a → output_buffer net = Some b →
    block h a = Some A → block h b = Some B →
    ∀ j l, j < Z.to_nat (layer_count net) → layers net !! j = Some l →
           Z.to_nat (layer_output_size l)
           ≤ (if Nat.even j then length B else length A).
Proof.
  intros net h pin pout a b A B batch_size e h' Hrun Ha Hb HA HB j l Hj Hl.
  unfold agi_forward_pass in Hrun. cbn [is_null orb] in Hrun.
  rewrite Ha, Hb in Hrun.
  destruct (memcpy (Some a) _ _ h) as [h1|] eqn:Hcopy;
    cbn [mbind option_bind] in Hrun; [|done].
  destruct (layers_loop _ _ _ _ _ h1) as [r|] eqn:Hloop;
    cbn [mbind option_bind] in Hrun; [|done].
  pose proof (memcpy_same_shape _ _ _ _ _ Hcopy) as S1.
  destruct (S1 a A HA) as (A1 & HA1 & <-).
  destruct (S1 b B HB) as (B1 & HB1 & <-).
  destruct (layers_loop_bound _ _ _ _ _ _ _ _ _ Hloop HA1 HB1) as [_ Hall].
  by apply (Hall j l).
Qed.

Lemma forward_pass_needs_fitting_widths_witness :
  ∃ (net : agi_neural_network_t) (w' : world) (h' : list cell),
    built_2_2_2 modest_draws = Some (Some net, w') ∧
    agi_forward_pass (Some net) (Some 11) (Some 12) 1
      (heap_of w' ++ caller_buffers 1 2) = Some (AGI_SUCCESS, h') ∧
    ∀ j l, j < 3 → layers net !! j = Some l →
           Z.to_nat (layer_output_size l) ≤ 2.
Proof.
  eexists _, _, _.
  match goal with
  | |- ?A ∧ _ => assert A as Hbuilt by (vm_compute; reflexivity)
  end.
  split; [exact Hbuilt|].
  match goal with
  | |- ?A ∧ _ => assert A as Hrun by (vm_compute; reflexivity)
  end.
  split; [exact Hrun|].
  intros j l Hj Hl.
  pose proof (forward_pass_needs_fitting_widths _ _ _ _ 8 9
                [0%float; 0%float] [0%float; 0%float] _ _ _ Hrun
                eq_refl eq_refl eq_refl eq_refl j l Hj Hl) as Hfit.
  destruct (Nat.even j); exact Hfit.
Defined.

(* ================================================================== *)
(** * Releasing a tracked block twice                                  *)
(* ================================================================== *)

(** X25.  [agi_aligned_free] hands its pointer to [free] without keeping
    track of what was released: after a call that succeeded, a second
    call on the same pointer frees a freed block, which is undefined. *)
Theorem aligned_free_twice_is_undefined :
  ∀ (p : option nat) (w w' : world),
    agi_aligned_free p w = Some (AGI_SUCCESS, w') →
    agi_aligned_free p w' = None.
Proof.
  intros [b|] w w' Hrun; unfold agi_aligned_free in *; cbn [is_null] in *;
    [|done].
  destruct (free (Some b) _) as [w2|] eqn:Hfree; cbn [mbind option_bind] in Hrun;
    [|done].
  injection Hrun as <-.
  unfold free in Hfree. cbn [heap_of with_stats] in Hfree.
  destruct (heap_of w !! b) as [c|] eqn:Hc; cbn [mbind option_bind] in Hfree;
    [|done].
  destruct (live c); [|done]. injection Hfree as <-.
  unfold free. cbn [heap_of with_stats with_heap].
  rewrite list_lookup_insert_eq by (by eapply lookup_lt_Some). done.
Qed.

Lemma aligned_free_twice_is_undefined_witness :
  ∃ (p : option nat) (w1 w2 : world),
    agi_aligned_alloc 64 64 initial_world = (p, w1) ∧
    agi_aligned_free p w1 = Some (AGI_SUCCESS, w2) ∧
    agi_aligned_free p w2 = None.
Proof.
  eexists _, _, _. split; [reflexivity|].
  match goal with
  | |- ?A ∧ _ => assert A as Hfree by reflexivity
  end.
  split; [exact Hfree|].
  exact (aligned_free_twice_is_undefined _ _ _ Hfree).
Defined.

(* ================================================================== *)
(** * Edge cases and status codes                                      *)
(* ================================================================== *)

(** X26.  With [size = 0] no kernel dereferences a pointer: on any three
    non-null pointers, whatever they point to, the element-wise kernels
    and both activation functions return [AGI_SUCCESS] and leave the heap
    as it is - softmax too, which then divides nothing by its zero sum -
    and the dot product returns [0.0]. *)
Theorem empty_vectors_touch_nothing :
  ∀ (m : libm) (a b r : nat) (tag : Z) (h : list cell),
    agi_matrix_add (Some a) (Some b) (Some r) 0 h = Some (AGI_SUCCESS, h) ∧
    agi_matrix_subtract (Some a) (Some b) (Some r) 0 h = Some (AGI_SUCCESS, h) ∧
    agi_matrix_element_multiply (Some a) (Some b) (Some r) 0 h
    = Some (AGI_SUCCESS, h) ∧
    agi_vector_dot_product_simd (Some a) (Some b) 0 h = Some 0%float ∧
    agi_apply_activation m (Some a) (Some r) 0 tag h = Some (AGI_SUCCESS, h) ∧
    agi_apply_activation_derivative m (Some a) (Some r) 0 tag h
    = Some (AGI_SUCCESS, h).
Proof.
  intros m a b r tag h. repeat (split; [reflexivity|]).
  split; [|reflexivity].
  unfold agi_apply_activation. cbn.
  by destruct (tag =? AGI_ACTIVATION_SOFTMAX)%Z.
Qed.

(** ** Status codes of the engine *)

Lemma null_check2 (a b : option nat) :
  is_null a || is_null b = true ↔ a = None ∨ b = None.
Proof.
  destruct a, b; cbn; (split; [intros H | intros [H|H]]); try done;
    (by left) || (by right).
Qed.

(** X27.  Wherever they are defined, [agi_forward_pass],
    [agi_backward_pass] and [agi_destroy_neural_network] return
    [AGI_ERROR_NULL_POINTER] exactly when one of their pointer arguments
    is [NULL], and then leave the heap as it is; otherwise they return
    [AGI_SUCCESS].  No other status is ever returned. *)
Theorem engine_status_codes :
  (∀ network input output batch_size (h : list cell) e h',
      agi_forward_pass network input output batch_size h = Some (e, h') →
      (network = None ∨ input = None ∨ output = None →
       e = AGI_ERROR_NULL_POINTER ∧ h' = h) ∧
      (¬ (network = None ∨ input = None ∨ output = None) → e = AGI_SUCCESS)) ∧
  (∀ network input target gradients batch_size (h : list cell) e h',
      agi_backward_pass network input target gradients batch_size h
      = Some (e, h') →
      (network = None ∨ input = None ∨ target = None ∨ gradients = None →
       e = AGI_ERROR_NULL_POINTER ∧ h' = h) ∧
      (¬ (network = None ∨ input = None ∨ target = None ∨ gradients = None) →
       e = AGI_SUCCESS)) ∧
  (∀ network (w : world) e w',
      agi_destroy_neural_network network w = Some (e, w') →
      (network = None → e = AGI_ERROR_NULL_POINTER ∧ w' = w) ∧
      (network ≠ None → e = AGI_SUCCESS)).
Proof.
  split; [|split].
  - intros [net|] input output batch_size h e h' Hrun;
      cbn [agi_forward_pass] in Hrun.
    2: { injection Hrun as <- <-. split; [done|]. intros Hn. destruct Hn. by left. }
    destruct (is_null input || is_null output) eqn:Hnull.
    + injection Hrun as <- <-. split; [done|]. intros Hn. destruct Hn. right.
      by apply null_check2.
    + assert (¬ (input = None ∨ output = None)) as Hnn.
      { intros Hn. apply null_check2 in Hn. congruence. }
      split; [intros [|]; [done|by destruct Hnn]|]. intros _.
      by simplify_option_eq.
  - intros [net|] input target gradients batch_size h e h' Hrun;
      cbn [agi_backward_pass] in Hrun.
    2: { injection Hrun as <- <-. split; [done|]. intros Hn. destruct Hn. by left. }
    destruct (is_null input || is_null target || is_null gradients) eqn:Hnull.
    + injection Hrun as <- <-. split; [done|]. intros Hn. destruct Hn. right.
      by apply null_check3.
    + assert (¬ (input = None ∨ target = None ∨ gradients = None)) as Hnn.
      { intros Hn. apply null_check3 in Hn. congruence. }
      split; [intros [|]; [done|by destruct Hnn]|]. intros _.
      by simplify_option_eq.
  - intros [net|] w e w' Hrun; cbn [agi_destroy_neural_network] in Hrun.
    + split; [done|]. intros _. by simplify_option_eq.
    + injection Hrun as <- <-. done.
Qed.

Lemma engine_status_codes_witness :
  ∃ (e : agi_error_t) (h' : list cell),
    agi_forward_pass None (Some 0) (Some 1) 1 kernel_sample_heap = Some (e, h') ∧
    e = AGI_ERROR_NULL_POINTER ∧ h' = kernel_sample_heap.
Proof.
  destruct engine_status_codes as (Hforward & _ & _).
  eexists _, _.
  match goal with
  | |- ?A ∧ _ => assert A as Hrun by reflexivity
  end.
  split; [exact Hrun|].
  destruct (Hforward _ _ _ _ _ _ _ Hrun) as [Hnull _].
  apply Hnull. by left.
Defined.

(** ** The network construction leaves *)

Lemma layer_cells_lookup : ∀ ls base cells j l,
  layer_cells base ls cells → ls !! j = Some l →
  ∃ W, weights l = Some (base + 2 * j) ∧ biases l = Some (S (base + 2 * j)) ∧
       cells !! (2 * j) = Some (Doubles W) ∧
       length W = Z.to_nat (size_mul (layer_input_size l) (layer_output_size l)) ∧
       cells !! S (2 * j)
       = Some (Doubles (replicate (Z.to_nat (layer_output_size l)) 0%float)).
Proof.
  induction ls as [|l0 ls IH]; intros base cells j l Hcells Hl; [done|].
  destruct cells as [|[W0| |] [|[B0| |] cells]]; try done.
  destruct Hcells as (Hw & Hb & HW & -> & _ & Hcells).
  destruct j as [|j].
  - injection Hl as <-. exists W0. rewrite Nat.add_0_r. done.
  - cbn [lookup list_lookup] in Hl.
    destruct (IH _ _ _ _ Hcells Hl) as (W & Hw' & Hb' & HW' & HlW' & HB').
    exists W.
    replace (base + 2 * S j) with (S (S base) + 2 * j) by lia.
    replace (2 * S j) with (S (S (2 * j))) by lia.
    done.
Qed.

(** X28.  In the network [agi_create_neural_network] returns, layer [j]
    owns two blocks of their own, number [2j] and [2j + 1] after the
    network record and the layer array: its weights, of
    [input_size * output_size] doubles (the product taken in [size_t]),
    and its biases, [output_size] doubles that are all [0.0].  Each
    scratch buffer that was obtained is zeroed as well. *)
Theorem created_network_initial_state :
  ∀ (cfg : agi_neural_config_t) (w : world) (net : agi_neural_network_t)
    (w' : world) (j : nat) (l : agi_neural_layer_t),
    agi_create_neural_network (Some cfg) w = Some (Some net, w') →
    layers net !! j = Some l →
    (∃ W,
        weights l = Some (length (heap_of w) + 2 + 2 * j) ∧
        block (heap_of w') (length (heap_of w) + 2 + 2 * j) = Some W ∧
        length W
        = Z.to_nat (size_mul (layer_input_size l) (layer_output_size l))) ∧
    biases l = Some (length (heap_of w) + 3 + 2 * j) ∧
    block (heap_of w') (length (heap_of w) + 3 + 2 * j)
    = Some (replicate (Z.to_nat (layer_output_size l)) 0%float) ∧
    (∀ p, p ∈ [input_buffer net; output_buffer net; gradient_buffer net] →
          p = None ∨
          ∃ b n, p = Some b ∧ block (heap_of w') b = Some (replicate n 0%float)).
Proof.
  intros cfg w net w' j l Hrun Hl.
  destruct (create_spec _ _ _ _ Hrun)
    as (cells & ci & co & cg & Hh & _ & _ & _ & _ & _ & Hcells & _ &
        Hi & Ho & Hg & _).
  set (h0 := heap_of w) in *.
  set (ra := Raw sizeof_agi_neural_network_t) in *.
  set (rb := Raw (size_mul (layer_count net) sizeof_agi_neural_layer_t)) in *.
  destruct (layer_cells_lookup _ _ _ _ _ Hcells Hl) as (W & Hw & Hb & HW & HlW & HB).
  assert (length (h0 ++ [ra; rb]) = S (S (length h0))) as Hpre
    by (rewrite length_app; cbn [length]; lia).
  assert (∀ i c, cells !! i = Some c →
                 heap_of w' !! (length h0 + 2 + i) = Some c) as Hcell.
  { intros i c Hc. rewrite Hh, (app_assoc h0), lookup_app_r by lia.
    rewrite Hpre. replace (length h0 + 2 + i - S (S (length h0))) with i by lia.
    rewrite lookup_app_l by (by eapply lookup_lt_Some). done. }
  split; [|split; [|split]].
  - exists W. split; [rewrite Hw; f_equal; lia|]. split; [|done].
    apply block_Some. by apply Hcell.
  - rewrite Hb. f_equal. lia.
  - apply block_Some.
    replace (length h0 + 3 + 2 * j) with (length h0 + 2 + S (2 * j)) by lia.
    by apply Hcell.
  - assert (∀ (pre post c : list cell) p n,
              heap_of w' = pre ++ c ++ post → scratch p n (length pre) c →
              p = None ∨
              ∃ b k, p = Some b ∧
                     block (heap_of w') b = Some (replicate k 0%float)) as Hs.
    { intros pre post c p n Hheap [[-> _] | (-> & -> & _)]; [by left|right].
      eexists _, _. split; [done|]. apply block_Some.
      by rewrite Hheap, lookup_app_r, Nat.sub_diag. }
    intros p Hp. rewrite !elem_of_cons, elem_of_nil in Hp.
    destruct Hp as [-> | [-> | [-> | []]]].
    + apply (Hs ((h0 ++ [ra; rb]) ++ cells) (co ++ cg) ci _ (input_size cfg)).
      * by rewrite Hh, <- !app_assoc.
      * by rewrite length_app, Hpre.
    + apply (Hs ((h0 ++ [ra; rb]) ++ cells ++ ci) cg co _ (output_size cfg)).
      * by rewrite Hh, <- !app_assoc.
      * by rewrite (length_app (h0 ++ [ra; rb])), Hpre, length_app,
             Nat.add_assoc.
    + apply (Hs ((h0 ++ [ra; rb]) ++ cells ++ ci ++ co) [] cg _ (output_size cfg)).
      * by rewrite Hh, <- !app_assoc, app_nil_r.
      * by rewrite (length_app (h0 ++ [ra; rb])), Hpre, !length_app,
             !Nat.add_assoc.
Qed.

Lemma created_network_initial_state_witness :
  ∃ (net : agi_neural_network_t) (w' : world) (l : agi_neural_layer_t),
    agi_create_neural_network (Some (config_3_4_2_then 7)) initial_world
    = Some (Some net, w') ∧
    layers net !! 1 = Some l ∧
    biases l = Some 5 ∧
    block (heap_of w') 5 = Some (replicate 7 0%float) ∧
    ∃ W, block (heap_of w') 4 = Some W ∧ length W = 28.
Proof.
  eexists _, _, _.
  match goal with
  | |- ?A ∧ _ => assert A as Hrun by (vm_compute; reflexivity)
  end.
  split; [exact Hrun|].
  match goal with
  | |- ?A ∧ _ => assert A as Hl by reflexivity
  end.
  split; [exact Hl|].
  destruct (created_network_initial_state _ _ _ _ 1 _ Hrun Hl)
    as ((W & _ & HW & HlW) & Hb & HB & _).
  split; [exact Hb|]. split; [exact HB|].
  exists W. split; [exact HW | exact HlW].
Defined.
